(** * Roborock washer integration: the refresh coordinator and its transport

    A shallow embedding of
      custom_components/roborock_washer/coordinator.py
      custom_components/roborock_washer/zeo_protocol.py
      custom_components/roborock_washer/entity.py   (async_set_value)
      custom_components/roborock_washer/const.py    (the two intervals)

    Python dictionaries keyed by strings are [gmap string _]; the coordinator
    object, the outside world (device, clock) and the list of calls issued so
    far are threaded explicitly through a state-and-exception monad, because
    in Python a mutation made before an exception is raised is not undone. *)

From Stdlib Require Import ZArith List Ascii String.
From stdpp Require Import gmap strings list fin_maps.
Import ListNotations.

Local Open Scope string_scope.
Local Open Scope list_scope.
Local Open Scope Z_scope.

(* ===================================================================== *)
(** ** Python values and the built-ins the code relies on                 *)
(* ===================================================================== *)

(** [RoborockZeoProtocol] is an enumeration of the [roborock] package.  The
    members listed here are the ones this repository names (the ten that the
    source keeps in commented-out lines, marked as not supported by the
    device, are members of the enumeration all the same). *)
Inductive RoborockZeoProtocol : Type :=
  | STATE | WASHING_LEFT | COUNTDOWN
  | ERROR | TIMES_AFTER_CLEAN | DETERGENT_EMPTY
  | START | PAUSE | SHUTDOWN
  | MODE | PROGRAM | TEMP | RINSE_TIMES | SPIN_LEVEL | DRYING_MODE
  | DETERGENT_TYPE | SOUND_SET
  | DOORLOCK_STATE | CUSTOM_PARAM_GET | SOFTENER_EMPTY | CHILD_LOCK
  | DETERGENT_SET | SOFTENER_SET | SOFTENER_TYPE | CUSTOM_PARAM_SAVE
  | DEFAULT_SETTING | LIGHT_SETTING.

#[global] Instance RoborockZeoProtocol_eq_dec : EqDecision RoborockZeoProtocol.
Proof. solve_decision. Defined.

Definition members : list RoborockZeoProtocol :=
  [ STATE; WASHING_LEFT; COUNTDOWN; ERROR; TIMES_AFTER_CLEAN; DETERGENT_EMPTY;
    START; PAUSE; SHUTDOWN; MODE; PROGRAM; TEMP; RINSE_TIMES; SPIN_LEVEL;
    DRYING_MODE; DETERGENT_TYPE; SOUND_SET; DOORLOCK_STATE; CUSTOM_PARAM_GET;
    SOFTENER_EMPTY; CHILD_LOCK; DETERGENT_SET; SOFTENER_SET; SOFTENER_TYPE;
    CUSTOM_PARAM_SAVE; DEFAULT_SETTING; LIGHT_SETTING ].

(** [protocol.name] *)
Definition name (protocol : RoborockZeoProtocol) : string :=
  match protocol with
  | STATE => "STATE" | WASHING_LEFT => "WASHING_LEFT" | COUNTDOWN => "COUNTDOWN"
  | ERROR => "ERROR" | TIMES_AFTER_CLEAN => "TIMES_AFTER_CLEAN"
  | DETERGENT_EMPTY => "DETERGENT_EMPTY"
  | START => "START" | PAUSE => "PAUSE" | SHUTDOWN => "SHUTDOWN"
  | MODE => "MODE" | PROGRAM => "PROGRAM" | TEMP => "TEMP"
  | RINSE_TIMES => "RINSE_TIMES" | SPIN_LEVEL => "SPIN_LEVEL"
  | DRYING_MODE => "DRYING_MODE" | DETERGENT_TYPE => "DETERGENT_TYPE"
  | SOUND_SET => "SOUND_SET"
  | DOORLOCK_STATE => "DOORLOCK_STATE" | CUSTOM_PARAM_GET => "CUSTOM_PARAM_GET"
  | SOFTENER_EMPTY => "SOFTENER_EMPTY" | CHILD_LOCK => "CHILD_LOCK"
  | DETERGENT_SET => "DETERGENT_SET" | SOFTENER_SET => "SOFTENER_SET"
  | SOFTENER_TYPE => "SOFTENER_TYPE" | CUSTOM_PARAM_SAVE => "CUSTOM_PARAM_SAVE"
  | DEFAULT_SETTING => "DEFAULT_SETTING" | LIGHT_SETTING => "LIGHT_SETTING"
  end.

(** [getattr(RoborockZeoProtocol, s, None)]: the member called [s], if any.
    (Attributes of the class that are not members, such as dunder names, are
    outside the model.) *)
Definition getattr_protocol (s : string) : option RoborockZeoProtocol :=
  List.find (fun p => String.eqb (name p) s) members.

(** A Python value as the transport may hand it back.  A dict returned by the
    device is keyed by protocol; it is kept as a list of bindings with
    distinct keys, looked up from the front. *)
#[warnings="-register-all"]
Inductive PyVal : Type :=
  | VNone
  | VBool (b : bool)
  | VInt (z : Z)
  | VStr (s : string)
  | VList (l : list PyVal)
  | VDict (d : list (RoborockZeoProtocol * PyVal)).

Fixpoint dict_get (d : list (RoborockZeoProtocol * PyVal))
    (protocol : RoborockZeoProtocol) : option PyVal :=
  match d with
  | [] => None
  | (k, v) :: rest =>
      if decide (k = protocol) then Some v else dict_get rest protocol
  end.

(** [bool(v)] *)
Definition py_bool (v : PyVal) : bool :=
  match v with
  | VNone => false
  | VBool b => b
  | VInt z => negb (z =? 0)
  | VStr s => negb (String.eqb s "")
  | VList l => match l with [] => false | _ => true end
  | VDict d => match d with [] => false | _ => true end
  end.

(** [s.lower()] and [s.upper()], on ASCII letters (other bytes are kept). *)
Definition lower_ascii (c : ascii) : ascii :=
  let n := N_of_ascii c in
  if ((65 <=? n) && (n <=? 90))%N then ascii_of_N (n + 32) else c.

Definition upper_ascii (c : ascii) : ascii :=
  let n := N_of_ascii c in
  if ((97 <=? n) && (n <=? 122))%N then ascii_of_N (n - 32) else c.

Fixpoint lower (s : string) : string :=
  match s with
  | EmptyString => EmptyString
  | String c rest => String (lower_ascii c) (lower rest)
  end.

Fixpoint upper (s : string) : string :=
  match s with
  | EmptyString => EmptyString
  | String c rest => String (upper_ascii c) (upper rest)
  end.

(** [int(s)] for a string, base ten: surrounding white space is dropped, one
    sign is allowed, and the digits may be separated by single underscores.
    [None] stands for [ValueError].  (ASCII digits and white space only;
    the white space [int] drops is tab to carriage return and the blank.) *)
Definition is_space (c : ascii) : bool :=
  let n := N_of_ascii c in
  (((9 <=? n) && (n <=? 13)) || (n =? 32))%N.

Definition digit_of (c : ascii) : option Z :=
  let n := N_of_ascii c in
  if ((48 <=? n) && (n <=? 57))%N then Some (Z.of_N n - 48) else None.

Fixpoint lstrip (s : string) : string :=
  match s with
  | String c rest => if is_space c then lstrip rest else s
  | EmptyString => EmptyString
  end.

Fixpoint rstrip (s : string) : string :=
  match s with
  | EmptyString => EmptyString
  | String c rest =>
      match rstrip rest with
      | EmptyString => if is_space c then EmptyString else String c EmptyString
      | r => String c r
      end
  end.

Fixpoint parse_digits (acc : Z) (after_digit : bool) (s : string) : option Z :=
  match s with
  | EmptyString => if after_digit then Some acc else None
  | String c rest =>
      match digit_of c with
      | Some d => parse_digits (acc * 10 + d) true rest
      | None =>
          if (Ascii.eqb c "_" && after_digit)%bool
          then parse_digits acc false rest
          else None
      end
  end.

Definition py_int_of_str (s : string) : option Z :=
  match rstrip (lstrip s) with
  | String "-" rest => Z.opp <$> parse_digits 0 false rest
  | String "+" rest => parse_digits 0 false rest
  | body => parse_digits 0 false body
  end.

(* ===================================================================== *)
(** ** Exceptions, outcomes and the world outside the coordinator         *)
(* ===================================================================== *)

(** The exceptions the code meets.  All of them derive from [Exception], which
    is what every handler in these files catches; task cancellation is not an
    [Exception] and is outside the model. *)
Inductive exn : Type :=
  | ValueError (msg : string)
  | RoborockException (msg : string)
  | RuntimeError (msg : string).

Inductive outcome (A : Type) : Type :=
  | Ok (a : A)
  | Raise (e : exn).
Arguments Ok {A} a.
Arguments Raise {A} e.

(** An object with the two asynchronous methods [query_values] and
    [set_value]: the device's [zeo] trait, and also the [ZeoProtocol] wrapper
    the coordinator receives as [api].  A call may change the world [W] and
    may raise. *)
Record Api (W : Type) : Type := {
  query_values : list RoborockZeoProtocol -> W -> outcome PyVal * W;
  set_value : RoborockZeoProtocol -> PyVal -> W -> outcome PyVal * W
}.
Arguments query_values {W} _ _ _.
Arguments set_value {W} _ _ _ _.

(** [device.zeo]: [None] when the attribute is missing or is [None]. *)
Record Device (W : Type) : Type := { zeo : option (Api W) }.
Arguments zeo {W} _.

Module ZeoProtocol.
Section Wrapper.
Context {W : Type} (_device : Device W).

(** zeo_protocol.py, [ZeoProtocol.query_values] *)
Definition query_values (protocols : list RoborockZeoProtocol) (w : W)
    : outcome PyVal * W :=
  match zeo _device with
  | None => (Ok (VDict []), w)
  | Some z =>
      match query_values z protocols w with
      | (Ok result, w') => (Ok result, w')
      | (Raise e, w') => (Ok (VDict []), w')
      end
  end.

(** zeo_protocol.py, [ZeoProtocol.set_value] *)
Definition set_value (protocol : RoborockZeoProtocol) (value : PyVal) (w : W)
    : outcome PyVal * W :=
  match zeo _device with
  | None => (Ok (VDict []), w)
  | Some z =>
      match set_value z protocol value w with
      | (Ok result, w') => (Ok result, w')
      | (Raise e, w') => (Ok (VDict []), w')
      end
  end.

(** The wrapper seen as the [api] object handed to the coordinator
    (__init__.py: [ZeoProtocol(device)]). *)
Definition as_api : Api W := Build_Api W query_values set_value.
End Wrapper.
End ZeoProtocol.

(** What the coordinator runs in: its [api], the wall clock read by
    [datetime.now()], and the debouncer of Home Assistant's
    [DataUpdateCoordinator], which may postpone a requested refresh. *)
Record Host (W : Type) : Type := {
  zeo_api : Api W;
  clock : W -> Z;
  refresh_postponed : W -> bool
}.
Arguments zeo_api {W} _.
Arguments clock {W} _ _.
Arguments refresh_postponed {W} _ _.

(** const.py: the two intervals, in microseconds (the resolution of
    [datetime] and [timedelta]). *)
Definition UPDATE_INTERVAL_FREQUENT : Z := 60 * 1000000.
Definition UPDATE_INTERVAL_INFREQUENT : Z := 6 * 3600 * 1000000.

(** What [self.data] refers to: the very dict object [self._state_cache], or
    a dict of its own. *)
Inductive data_ref : Type :=
  | DataIsCache
  | DataOwn (d : gmap string PyVal).

(** The fields of [RoborockWasherDataUpdateCoordinator] the code reads or
    writes after construction. *)
Record Coordinator : Type := {
  _state_cache : gmap string PyVal;
  _last_update_times : gmap string Z;
  _initial_load_complete : bool;
  _initial_load_started : bool;
  data : data_ref
}.

(** coordinator.py, [__init__] *)
Definition new_coordinator : Coordinator :=
  {| _state_cache := ∅; _last_update_times := ∅;
     _initial_load_complete := false; _initial_load_started := false;
     data := DataOwn ∅ |}.

(** The calls the coordinator makes on its collaborators, in order. *)
Inductive event : Type :=
  | EvQuery (protocols : list RoborockZeoProtocol)
  | EvSet (protocol : RoborockZeoProtocol) (value : PyVal)
  | EvRefreshRequest
  | EvNotify.

Record Env (W : Type) : Type := {
  co : Coordinator;
  world : W;
  trace : list event
}.
Arguments co {W} _.
Arguments world {W} _.
Arguments trace {W} _.
Arguments Build_Env {W} _ _ _.

Definition new_env {W : Type} (w : W) : Env W :=
  {| co := new_coordinator; world := w; trace := [] |}.

(* ===================================================================== *)
(** ** The monad of coordinator code                                      *)
(* ===================================================================== *)

(** A piece of coordinator code: it reads and changes the environment and
    either returns or raises; what it changed before raising stays changed. *)
Definition M (W A : Type) : Type := Env W -> outcome A * Env W.

Definition ret {W A} (a : A) : M W A := fun env => (Ok a, env).

Definition raise {W A} (e : exn) : M W A := fun env => (Raise e, env).

Definition bind {W A B} (m : M W A) (k : A -> M W B) : M W B :=
  fun env =>
    match m env with
    | (Ok a, env') => k a env'
    | (Raise e, env') => (Raise e, env')
    end.

(** [try: body  except Exception as err: handler err] *)
Definition try_except {W A} (body : M W A) (handler : exn -> M W A) : M W A :=
  fun env =>
    match body env with
    | (Ok a, env') => (Ok a, env')
    | (Raise e, env') => handler e env'
    end.

#[global] Instance M_ret {W} : MRet (M W) := fun A => @ret W A.
#[global] Instance M_bind {W} : MBind (M W) := fun A B k m => @bind W A B m k.

(** A result computed without touching the environment, which may raise. *)
Definition lift {W A} (o : outcome A) : M W A := fun env => (o, env).

(** Reading and writing the coordinator's fields. *)
Definition gets {W A} (f : Coordinator -> A) : M W A :=
  fun env => (Ok (f (co env)), env).

Definition modify {W} (f : Coordinator -> Coordinator) : M W unit :=
  fun env => (Ok tt, Build_Env (f (co env)) (world env) (trace env)).

Definition emit {W} (e : event) : M W unit :=
  fun env => (Ok tt, Build_Env (co env) (world env) (trace env ++ [e])).

(** [for x in xs: acc = body acc x], the accumulator standing for the local
    variables the loop body assigns. *)
Fixpoint for_each {W A B} (xs : list A) (acc : B) (body : B -> A -> M W B)
    : M W B :=
  match xs with
  | [] => ret acc
  | x :: rest => bind (body acc x) (fun acc' => for_each rest acc' body)
  end.

Definition set_state_cache (c : gmap string PyVal) (s : Coordinator) : Coordinator :=
  {| _state_cache := c; _last_update_times := _last_update_times s;
     _initial_load_complete := _initial_load_complete s;
     _initial_load_started := _initial_load_started s; data := data s |}.

Definition set_last_update_times (t : gmap string Z) (s : Coordinator) : Coordinator :=
  {| _state_cache := _state_cache s; _last_update_times := t;
     _initial_load_complete := _initial_load_complete s;
     _initial_load_started := _initial_load_started s; data := data s |}.

Definition set_initial_load_complete (b : bool) (s : Coordinator) : Coordinator :=
  {| _state_cache := _state_cache s; _last_update_times := _last_update_times s;
     _initial_load_complete := b;
     _initial_load_started := _initial_load_started s; data := data s |}.

Definition set_initial_load_started (b : bool) (s : Coordinator) : Coordinator :=
  {| _state_cache := _state_cache s; _last_update_times := _last_update_times s;
     _initial_load_complete := _initial_load_complete s;
     _initial_load_started := b; data := data s |}.

Definition set_data (d : data_ref) (s : Coordinator) : Coordinator :=
  {| _state_cache := _state_cache s; _last_update_times := _last_update_times s;
     _initial_load_complete := _initial_load_complete s;
     _initial_load_started := _initial_load_started s; data := d |}.

(** [self.data[key] = value]: through the alias when [self.data] is the
    cache object. *)
Definition data_setitem (key : string) (value : PyVal) (s : Coordinator)
    : Coordinator :=
  match data s with
  | DataIsCache => set_state_cache (<[key := value]> (_state_cache s)) s
  | DataOwn d => set_data (DataOwn (<[key := value]> d)) s
  end.

(** Truth value of a dict: non-empty. *)
Definition dict_bool {A} (d : gmap string A) : bool :=
  negb (Nat.eqb (size d) 0).

(* ===================================================================== *)
(** ** coordinator.py                                                     *)
(* ===================================================================== *)

(** [__init__]: the three protocol groups, in declaration order. *)
Definition frequent_protocols : list RoborockZeoProtocol :=
  [STATE; WASHING_LEFT; COUNTDOWN].

Definition infrequent_protocols : list RoborockZeoProtocol :=
  [ERROR; TIMES_AFTER_CLEAN; DETERGENT_EMPTY].

Definition manual_protocols : list RoborockZeoProtocol :=
  [START; PAUSE; SHUTDOWN; MODE; PROGRAM; TEMP; RINSE_TIMES; SPIN_LEVEL;
   DRYING_MODE; DETERGENT_TYPE; SOUND_SET].

Definition all_protocols : list RoborockZeoProtocol :=
  frequent_protocols ++ infrequent_protocols ++ manual_protocols.

(** The "Process the result" block, repeated four times in the source:
    a dict holding the protocol gives its entry, a one-element list gives
    its element, anything else is kept as it is. *)
Definition unwrap_result (protocol : RoborockZeoProtocol) (result : PyVal)
    : PyVal :=
  match result with
  | VDict d =>
      match dict_get d protocol with
      | Some v => v
      | None => result
      end
  | VList [x] => x
  | _ => result
  end.

(** [bool(int(x)) if isinstance(x, str) else bool(x)] *)
Definition to_boolean (protocol_result : PyVal) : outcome PyVal :=
  match protocol_result with
  | VStr s =>
      match py_int_of_str s with
      | Some z => Ok (VBool (negb (Z.eqb z 0)))
      | None => Raise (ValueError "invalid literal for int() with base 10")
      end
  | v => Ok (VBool (py_bool v))
  end.

Definition is_None (v : PyVal) : bool :=
  match v with VNone => true | _ => false end.

(** [if <boolean protocol> and protocol_result is not None: ...] *)
Definition coerce_boolean (boolean_protocol : bool) (protocol_result : PyVal)
    : outcome PyVal :=
  if boolean_protocol && negb (is_None protocol_result)
  then to_boolean protocol_result
  else Ok protocol_result.

(** [not last_update or (current_time - last_update) >= interval]; a
    [datetime] is never falsy, so [not last_update] means "no entry". *)
Definition is_due (last_update : option Z) (current_time interval : Z) : bool :=
  match last_update with
  | None => true
  | Some t => (interval <=? current_time - t)%Z
  end.

Section RoborockWasherDataUpdateCoordinator.
Context {W : Type} (host : Host W).

(** [await self.zeo_api.query_values(protocols)] *)
Definition call_query_values (protocols : list RoborockZeoProtocol)
    : M W PyVal :=
  fun env =>
    let '(o, w') := query_values (zeo_api host) protocols (world env) in
    (o, Build_Env (co env) w' (trace env ++ [EvQuery protocols])).

(** [await self.zeo_api.set_value(protocol, value)] *)
Definition call_set_value (protocol : RoborockZeoProtocol) (value : PyVal)
    : M W PyVal :=
  fun env =>
    let '(o, w') := set_value (zeo_api host) protocol value (world env) in
    (o, Build_Env (co env) w' (trace env ++ [EvSet protocol value])).

(** [datetime.now()] *)
Definition datetime_now : M W Z :=
  fun env => (Ok (clock host (world env)), env).

(** The per-protocol [try: ... except Exception: continue] block shared by
    the three loops of [_async_update_data]: query one protocol, unwrap,
    coerce when the protocol is in the loop's [boolean_protocols], then
    record the value in [all_results] and the time in
    [self._last_update_times]. *)
Definition query_into (boolean_protocols : list RoborockZeoProtocol)
    (current_time : Z) (all_results : gmap string PyVal)
    (protocol : RoborockZeoProtocol) : M W (gmap string PyVal) :=
  let protocol_str := lower (name protocol) in
  try_except
    (result ← call_query_values [protocol];
     protocol_result ←
       lift (coerce_boolean (bool_decide (protocol ∈ boolean_protocols))
               (unwrap_result protocol result));
     modify (fun s => set_last_update_times
               (<[protocol_str := current_time]> (_last_update_times s)) s);;
     mret (<[protocol_str := protocol_result]> all_results))
    (fun err => mret all_results).

(** Body of the initial-load loop (lines 161-200). *)
Definition initial_load_protocol (current_time : Z)
    (all_results : gmap string PyVal) (protocol : RoborockZeoProtocol)
    : M W (gmap string PyVal) :=
  if bool_decide (protocol ∈ [START; PAUSE; SHUTDOWN])
  then mret all_results
  else query_into [SOUND_SET] current_time all_results protocol.

(** Body of the frequent and of the infrequent loop (lines 209-244 and
    248-275); neither coerces any protocol to a boolean. *)
Definition scheduled_protocol (interval : Z) (current_time : Z)
    (all_results : gmap string PyVal) (protocol : RoborockZeoProtocol)
    : M W (gmap string PyVal) :=
  last_update ← gets (fun s => _last_update_times s !! lower (name protocol));
  if is_due last_update current_time interval
  then query_into [] current_time all_results protocol
  else mret all_results.

(** Lines 152-278: what a tick collects in [all_results]. *)
Definition gather_results (current_time : Z) : M W (gmap string PyVal) :=
  complete ← gets _initial_load_complete;
  if negb complete then
    started ← gets _initial_load_started;
    (if negb started then modify (set_initial_load_started true)
     else mret tt);;
    all_results ←
      for_each all_protocols ∅ (initial_load_protocol current_time);
    modify (set_initial_load_complete true);;
    mret all_results
  else
    all_results ←
      for_each frequent_protocols ∅
        (scheduled_protocol UPDATE_INTERVAL_FREQUENT current_time);
    for_each infrequent_protocols all_results
      (scheduled_protocol UPDATE_INTERVAL_INFREQUENT current_time).

(** Lines 280-289: [self._state_cache.update(all_results)] when there is
    something to store, and [return all_results or self._state_cache]. *)
Definition store_results (all_results : gmap string PyVal) : M W data_ref :=
  if dict_bool all_results then
    modify (fun s => set_state_cache (all_results ∪ _state_cache s) s);;
    mret (DataOwn all_results)
  else mret DataIsCache.

(** What the outer [except Exception] returns: [self._state_cache]. *)
Definition tick_fallback (err : exn) : M W data_ref := mret DataIsCache.

Definition _async_update_data : M W data_ref :=
  try_except
    (current_time ← datetime_now;
     all_results ← gather_results current_time;
     store_results all_results)
    tick_fallback.

(** The dict a tick's return value denotes. *)
Definition result_dict (r : data_ref) (s : Coordinator) : gmap string PyVal :=
  match r with
  | DataIsCache => _state_cache s
  | DataOwn d => d
  end.

(** [get_cached_value]: [dict.get] answers [None] for a missing key. *)
Definition get_cached_value (protocol : string) (s : Coordinator) : PyVal :=
  let protocol_key := lower protocol in
  default VNone (_state_cache s !! protocol_key).

(** Modelled from the spec: [async_refresh] and [async_request_refresh],
    which the class inherits from Home Assistant's [DataUpdateCoordinator]
    and which are not in this repository.  A refresh is one tick: it awaits
    [_async_update_data], makes what it returned the new [self.data] and
    calls the listeners.  A refresh request is an independent follow-up: it
    runs the refresh at once or leaves it to the debouncer.  No handler is
    put around [_async_update_data] here: what the tick would raise, the
    refresh would raise. *)
Definition async_refresh : M W unit :=
  result ← _async_update_data;
  modify (set_data result);;
  emit EvNotify.

Definition async_request_refresh : M W unit :=
  emit EvRefreshRequest;;
  postponed ← (fun env => (Ok (refresh_postponed host (world env)), env));
  if (postponed : bool) then mret tt else async_refresh.

(** [async_send_command] *)
Definition async_send_command (protocol : string) (value : PyVal) : M W unit :=
  try_except
    (match getattr_protocol protocol with
     | None => raise (ValueError (String.append "Unknown protocol: " protocol))
     | Some protocol_enum =>
         call_set_value protocol_enum value;;
         async_request_refresh
     end)
    (fun err => raise err).

(** [async_query_protocol] *)
Definition async_query_protocol (protocol_name : string) : M W PyVal :=
  try_except
    (match getattr_protocol (upper protocol_name) with
     | None => raise (ValueError (String.append "Unknown protocol: " protocol_name))
     | Some protocol_enum =>
         result ← call_query_values [protocol_enum];
         protocol_result ←
           lift (coerce_boolean (bool_decide (protocol_name ∈ ["sound_set"]))
                   (unwrap_result protocol_enum result));
         modify (fun s => set_state_cache
                   (<[protocol_name := protocol_result]> (_state_cache s)) s);;
         t ← datetime_now;
         modify (fun s => set_last_update_times
                   (<[protocol_name := t]> (_last_update_times s)) s);;
         modify (data_setitem protocol_name protocol_result);;
         emit EvNotify;;
         mret protocol_result
     end)
    (fun err => raise err).

(* =================================================================== *)
(** *** entity.py, [RoborockWasherApiEntity.async_set_value]            *)
(* =================================================================== *)

Definition integer_protocols : list string :=
  ["sound_set"; "start"; "pause"; "shutdown"].

(** Lines 130-142: a boolean becomes 1 or 0, a string goes through
    [int], every other value is passed on as it is. *)
Definition to_integer (value : PyVal) : outcome PyVal :=
  match value with
  | VBool b => Ok (VInt (if b then 1 else 0))
  | VStr s =>
      match py_int_of_str s with
      | Some z => Ok (VInt z)
      | None => Raise (ValueError "invalid literal for int() with base 10")
      end
  | v => Ok v
  end.

(** [self] is the entity, [_protocol] its [self._protocol]. *)
Definition async_set_value (_protocol : string) (value : PyVal) : M W unit :=
  try_except
    (match getattr_protocol _protocol with
     | None => raise (ValueError (String.append "Unknown protocol: " _protocol))
     | Some protocol_enum =>
         let protocol_key := lower _protocol in
         value ←
           (if bool_decide (protocol_key ∈ integer_protocols)
            then lift (to_integer value) else mret value);
         call_set_value protocol_enum value;;
         async_request_refresh
     end)
    (fun err => raise err).

(** What can happen to a coordinator between its construction and its
    teardown: a periodic tick, a call of one of its public operations, or
    the world moving on by itself. *)
Inductive op : Type :=
  | OpTick
  | OpSendCommand (protocol : string) (value : PyVal)
  | OpQueryProtocol (protocol_name : string)
  | OpSetValue (_protocol : string) (value : PyVal)
  | OpWorld (f : W -> W).

Definition run_op (o : op) (env : Env W) : Env W :=
  match o with
  | OpTick => snd (async_refresh env)
  | OpSendCommand protocol value => snd (async_send_command protocol value env)
  | OpQueryProtocol protocol_name => snd (async_query_protocol protocol_name env)
  | OpSetValue _protocol value => snd (async_set_value _protocol value env)
  | OpWorld f => Build_Env (co env) (f (world env)) (trace env)
  end.

Definition run_ops (ops : list op) (env : Env W) : Env W :=
  fold_left (fun e o => run_op o e) ops env.

End RoborockWasherDataUpdateCoordinator.

(* ===================================================================== *)
(** ** More built-ins: [str] of an integer, slices, [startswith]          *)
(* ===================================================================== *)

(** The decimal digits of a non-negative integer, least significant first
    onto [acc]; [fuel] bounds the number of digits. *)
Fixpoint digits_onto (fuel : nat) (n : Z) (acc : string) : string :=
  match fuel with
  | O => acc
  | S fuel' =>
      let acc' := String (ascii_of_N (Z.to_N (48 + n mod 10))) acc in
      if n <? 10 then acc' else digits_onto fuel' (n / 10) acc'
  end.

(** [str(z)] for an integer: a number below two to the [k] has at most [k]
    decimal digits, and at least one is printed. *)
Definition py_str_of_int (z : Z) : string :=
  if z <? 0
  then String "-" (digits_onto (S (Z.to_nat (Z.log2 (- z)))) (- z) "")
  else digits_onto (S (Z.to_nat (Z.log2 z))) z "".

(** [str(v)] for the values that can be keys of a dict; [None] for lists
    and dicts, whose [str] the code never reaches. *)
Definition py_str (v : PyVal) : option string :=
  match v with
  | VNone => Some "None"
  | VBool true => Some "True"
  | VBool false => Some "False"
  | VInt z => Some (py_str_of_int z)
  | VStr s => Some s
  | VList _ | VDict _ => None
  end.

(** Lists and dicts cannot be hashed: looking one up in a dict raises
    [TypeError]. *)
Definition hashable (v : PyVal) : bool :=
  match v with
  | VList _ | VDict _ => false
  | _ => true
  end.

(** [s.startswith(prefix)] *)
Fixpoint startswith (prefix s : string) : bool :=
  match prefix, s with
  | EmptyString, _ => true
  | String a p', String b s' => Ascii.eqb a b && startswith p' s'
  | String _ _, EmptyString => false
  end.

(** [s.endswith(")")] *)
Fixpoint ends_with_paren (s : string) : bool :=
  match s with
  | EmptyString => false
  | String c EmptyString => Ascii.eqb c ")"
  | String _ rest => ends_with_paren rest
  end.

(** [s[:-1]] *)
Fixpoint drop_last (s : string) : string :=
  match s with
  | EmptyString => EmptyString
  | String c EmptyString => EmptyString
  | String c rest => String c (drop_last rest)
  end.

(** [s[n:]] *)
Fixpoint drop_first (n : nat) (s : string) : string :=
  match n, s with
  | O, _ => s
  | S n', String _ rest => drop_first n' rest
  | S _, EmptyString => EmptyString
  end.

(** [v == s] for a string [s]: only an equal string is equal to it. *)
Definition py_eq_str (v : PyVal) (s : string) : bool :=
  match v with
  | VStr x => String.eqb x s
  | _ => false
  end.

Definition is_dict (v : PyVal) : bool :=
  match v with VDict _ => true | _ => false end.

(* ===================================================================== *)
(** ** entity.py ([get_state]) and sensor.py ([native_value])             *)
(* ===================================================================== *)

(** [RoborockWasherApiEntity.get_state]; the coordinator always has
    [get_cached_value], so the fall-back on [coordinator.data] is never
    taken. *)
Definition get_state (_protocol : string) (s : Coordinator) : PyVal :=
  let protocol_key := lower _protocol in
  get_cached_value protocol_key s.

(** sensor.py: the keys of [SENSOR_DESCRIPTIONS], in order. *)
Definition SENSOR_DESCRIPTIONS : list string :=
  ["state"; "countdown"; "washing_left"; "error"; "times_after_clean";
   "detergent_empty"; "drying_mode"; "sound_set"; "temp"; "spin_level";
   "detergent_type"; "rinse_times"; "mode"; "program"].

(** [RoborockWasherSensor.native_value] for the sensor built on [key]. *)
Definition native_value (key : string) (s : Coordinator) : PyVal :=
  let value := get_state key s in
  if is_None value || py_eq_str value "not set" then VNone
  else if is_dict value && negb (py_bool value) then VNone
  else value.

(* ===================================================================== *)
(** ** select.py: [EnhancedOptionsMap]                                    *)
(* ===================================================================== *)

Module EnhancedOptionsMap.

(** What [get_option] and [get_value] can raise. *)
Inductive error : Type :=
  | TypeError
  | ValueError (msg : string).

(** The dict handed to [__init__], as its items in order.  Every map of
    select.py has string keys. *)
Definition base_map : Type := list (string * string).

(** [key in d] and [d[key]] for a string key. *)
Fixpoint lookup (d : list (string * string)) (k : string) : option string :=
  match d with
  | [] => None
  | (k0, v0) :: rest => if String.eqb k0 k then Some v0 else lookup rest k
  end.

(** [{v: k for k, v in base_map.items()}]: a later item replaces an earlier
    one with the same value, so the lookup goes by the last such item. *)
Definition _reverse_map (_base_map : base_map) : list (string * string) :=
  rev (map (fun kv => (snd kv, fst kv)) _base_map).

(** [get_option] *)
Definition get_option (_base_map : base_map) (value : PyVal)
    : error + string :=
  if negb (hashable value) then inl TypeError
  else
    match (match value with VStr s => lookup _base_map s | _ => None end) with
    | Some o => inr o
    | None =>
        match py_str value with
        | None => inl TypeError
        | Some str_value =>
            match lookup _base_map str_value with
            | Some o => inr o
            | None =>
                inr (String.append "Custom ("
                       (String.append str_value ")"))
            end
        end
    end.

(** [get_value] *)
Definition get_value (_base_map : base_map) (option : string)
    : error + PyVal :=
  match lookup (_reverse_map _base_map) option with
  | Some k => inr (VStr k)
  | None =>
      if startswith "Custom (" option && ends_with_paren option then
        let inner := drop_last (drop_first 8 option) in
        match py_int_of_str inner with
        | Some z => inr (VInt z)
        | None => inr (VStr inner)
        end
      else inl (ValueError (String.append "Invalid option: " option))
  end.

(** [get_all_options] *)
Definition get_all_options (_base_map : base_map) : list string :=
  map snd _base_map.

End EnhancedOptionsMap.

(** select.py: the option maps. *)
Definition same (names : list string) : list (string * string) :=
  map (fun n => (n, n)) names.

Definition MODE_OPTIONS : list (string * string) :=
  same ["wash"; "wash_and_dry"; "dry"].

Definition PROGRAM_OPTIONS : list (string * string) :=
  same ["standard"; "quick"; "sanitize"; "wool"; "air_refresh"; "custom";
        "bedding"; "down"; "silk"; "rinse_and_spin"; "spin"; "down_clean";
        "baby_care"; "anti_allergen"; "sportswear"; "night"; "new_clothes";
        "shirts"; "synthetics"; "underwear"; "gentle"; "intensive";
        "cotton_linen"; "season"; "warming"; "bra"; "panties";
        "boiling_wash"; "socks"; "towels"; "anti_mite"; "exo_40_60";
        "twenty_c"; "t_shirts"; "stain_removal"].

Definition DETERGENT_TYPE_OPTIONS : list (string * string) :=
  same ["empty"; "low"; "medium"; "high"].

(** The degree sign is the two bytes 194 and 176 of its UTF-8 form. *)
Definition TEMP_OPTIONS : list (string * string) :=
  same ["normal"; "low"; "medium"; "high"; "max"] ++
  [("twenty_c",
    String "2" (String "0" (String (ascii_of_N 194) (String (ascii_of_N 176)
      (String "C" EmptyString)))))].

Definition SPIN_LEVEL_OPTIONS : list (string * string) :=
  same ["none"; "very_low"; "low"; "mid"; "high"; "very_high"; "max"].

Definition RINSE_TIMES_OPTIONS : list (string * string) :=
  same ["none"; "min"; "low"; "mid"; "high"; "max"].

Definition DRYING_MODE_OPTIONS : list (string * string) :=
  same ["none"; "quick"; "iron"; "store"].

(** The six [EnhancedOptionsMap] instances of select.py, each given by the
    [base_map] it was built from. *)
Definition MODE_ENHANCED_MAP : EnhancedOptionsMap.base_map := MODE_OPTIONS.
Definition PROGRAM_ENHANCED_MAP : EnhancedOptionsMap.base_map := PROGRAM_OPTIONS.
Definition TEMP_ENHANCED_MAP : EnhancedOptionsMap.base_map := TEMP_OPTIONS.
Definition SPIN_LEVEL_ENHANCED_MAP : EnhancedOptionsMap.base_map :=
  SPIN_LEVEL_OPTIONS.
Definition RINSE_TIMES_ENHANCED_MAP : EnhancedOptionsMap.base_map :=
  RINSE_TIMES_OPTIONS.
Definition DRYING_MODE_ENHANCED_MAP : EnhancedOptionsMap.base_map :=
  DRYING_MODE_OPTIONS.

(** [RoborockWasherSelectDescription], the fields the code reads. *)
Record SelectDescription : Type := {
  select_key : string;
  select_data_protocol : string;
  options_map : list (string * string)
}.

Definition SELECT_TYPES : list SelectDescription :=
  [ {| select_key := "mode"; select_data_protocol := "MODE";
       options_map := MODE_OPTIONS |};
    {| select_key := "program"; select_data_protocol := "PROGRAM";
       options_map := PROGRAM_OPTIONS |};
    {| select_key := "detergent_type"; select_data_protocol := "DETERGENT_TYPE";
       options_map := DETERGENT_TYPE_OPTIONS |};
    {| select_key := "temperature"; select_data_protocol := "TEMP";
       options_map := TEMP_OPTIONS |};
    {| select_key := "spin_level"; select_data_protocol := "SPIN_LEVEL";
       options_map := SPIN_LEVEL_OPTIONS |};
    {| select_key := "rinse_times"; select_data_protocol := "RINSE_TIMES";
       options_map := RINSE_TIMES_OPTIONS |};
    {| select_key := "drying_mode"; select_data_protocol := "DRYING_MODE";
       options_map := DRYING_MODE_OPTIONS |} ].

(** [RoborockWasherSelect.__init__]: [self._protocol] and
    [self._attr_options]. *)
Definition select_protocol (description : SelectDescription) : string :=
  if negb (String.eqb (select_data_protocol description) "")
  then select_data_protocol description
  else select_key description.

Definition _attr_options (description : SelectDescription) : list string :=
  map snd (options_map description).

(** [RoborockWasherSelect.current_option].  The result is [inl] for the
    [TypeError] of looking an unhashable value up, [inr None] for [None],
    [inr (Some o)] for the option [o].  The last branch, [str(value)] for an
    entity whose key is not one of the seven, is reached by no description
    of [SELECT_TYPES]; there [str] of a list or dict is not modelled, and
    such a value has raised before. *)
Definition current_option (description : SelectDescription) (s : Coordinator)
    : EnhancedOptionsMap.error + option string :=
  if String.eqb (select_key description) "operation" then inr None
  else
    let value := get_state (select_protocol description) s in
    if is_None value || py_eq_str value "not set" then inr None
    else if bool_decide (select_key description ∈
               ["mode"; "program"; "detergent_type"; "temperature";
                "spin_level"; "rinse_times"; "drying_mode"]) then
      if negb (hashable value) then inl EnhancedOptionsMap.TypeError
      else
        match (match value with
               | VStr x => EnhancedOptionsMap.lookup (options_map description) x
               | _ => None
               end) with
        | Some mapped_value => inr (Some mapped_value)
        | None =>
            match py_str value with
            | None => inl EnhancedOptionsMap.TypeError
            | Some str_value =>
                inr (EnhancedOptionsMap.lookup (options_map description)
                       str_value)
            end
        end
    else
      match py_str value with
      | Some str_value => inr (Some str_value)
      | None => inl EnhancedOptionsMap.TypeError
      end.

(** An enumeration of [roborock.data.zeo.zeo_code_mappings], which is not
    part of this repository: its [__members__] with their [.value], and the
    value of the member the code falls back on. *)
Record ZeoEnum : Type := {
  __members__ : list (string * PyVal);
  fallback_value : PyVal
}.

(** The six enumerations [async_select_option] imports; the fall-back
    members are [wash], [standard], [normal], [mid], [mid] and [none]. *)
Record CodeMappings : Type := {
  ZeoMode : ZeoEnum;
  ZeoProgram : ZeoEnum;
  ZeoTemperature : ZeoEnum;
  ZeoSpin : ZeoEnum;
  ZeoRinse : ZeoEnum;
  ZeoDryingMode : ZeoEnum
}.

(** [E[option].value if option in E.__members__ else E.<fallback>.value] *)
Fixpoint member_value (members : list (string * PyVal)) (chosen : string)
    : option PyVal :=
  match members with
  | [] => None
  | (n, v) :: rest =>
      if String.eqb n chosen then Some v else member_value rest chosen
  end.

Definition value_of_option (e : ZeoEnum) (option : string) : PyVal :=
  match member_value (__members__ e) option with
  | Some v => v
  | None => fallback_value e
  end.

(* ===================================================================== *)
(** ** button.py, switch.py and select.py: the entities that write        *)
(* ===================================================================== *)

(** button.py, [BUTTON_TYPES]: key, [data_protocol] and [press_value]. *)
Definition BUTTON_TYPES : list (string * string * PyVal) :=
  [("start", "START", VInt 1); ("pause", "PAUSE", VInt 1);
   ("shutdown", "SHUTDOWN", VInt 1)].

(** switch.py, [SWITCH_TYPES]: the one description, with its
    [data_protocol], [setter_value_on] and [setter_value_off]. *)
Record SwitchDescription : Type := {
  switch_key : string;
  switch_data_protocol : string;
  setter_value_on : PyVal;
  setter_value_off : PyVal
}.

Definition SWITCH_TYPES : list SwitchDescription :=
  [ {| switch_key := "sound_set"; switch_data_protocol := "SOUND_SET";
       setter_value_on := VInt 1; setter_value_off := VInt 0 |} ].

(** [RoborockWasherSwitch.is_on] *)
Definition is_on (description : SwitchDescription) (s : Coordinator) : bool :=
  py_bool (get_state (switch_data_protocol description) s).

Section Entities.
Context {W : Type} (host : Host W).

(** [RoborockWasherButton.async_press] for the button on [data_protocol]
    with [press_value]. *)
Definition async_press (data_protocol : string) (press_value : PyVal)
    : M W unit :=
  try_except
    (async_set_value host data_protocol press_value;;
     if bool_decide (data_protocol ∈ ["START"; "PAUSE"; "SHUTDOWN"])
     then
       try_except
         (async_query_protocol host "state";; mret tt)
         (fun ex => mret tt)
     else mret tt)
    (fun ex => raise ex).

(** [RoborockWasherSwitch.async_set_value].  The attribute [_attr_is_on]
    the method assigns is read nowhere ([is_on] goes to the cache), and
    [async_write_ha_state] hands the state to the framework; neither is
    part of the environment. *)
Definition switch_async_set_value (description : SwitchDescription)
    (value : PyVal) : M W unit :=
  try_except
    (async_set_value host (switch_data_protocol description) value;;
     if String.eqb (switch_data_protocol description) "SOUND_SET"
     then
       async_query_protocol host (lower (switch_data_protocol description));;
       mret tt
     else mret tt)
    (fun ex => mret tt).

(** [async_turn_on] and [async_turn_off] *)
Definition async_turn_on (description : SwitchDescription) : M W unit :=
  try_except
    (switch_async_set_value description (setter_value_on description))
    (fun ex => mret tt).

Definition async_turn_off (description : SwitchDescription) : M W unit :=
  try_except
    (switch_async_set_value description (setter_value_off description))
    (fun ex => mret tt).

(** [RoborockWasherSelect.async_set_value] *)
Definition select_async_set_value (description : SelectDescription)
    (value : PyVal) : M W unit :=
  try_except
    (async_set_value host (select_protocol description) value;;
     let protocol_name :=
       if negb (String.eqb (select_data_protocol description) "")
       then lower (select_data_protocol description)
       else select_key description in
     async_query_protocol host protocol_name;;
     mret tt)
    (fun ex => mret tt).

(** [RoborockWasherSelect.async_select_option] *)
Definition async_select_option (mappings : CodeMappings)
    (description : SelectDescription) (option : string) : M W unit :=
  try_except
    (let key := select_key description in
     let send (e : ZeoEnum) :=
       select_async_set_value description (value_of_option e option) in
     if String.eqb key "mode" then send (ZeoMode mappings)
     else if String.eqb key "program" then send (ZeoProgram mappings)
     else if String.eqb key "temperature" then send (ZeoTemperature mappings)
     else if String.eqb key "spin_level" then send (ZeoSpin mappings)
     else if String.eqb key "rinse_times" then send (ZeoRinse mappings)
     else if String.eqb key "drying_mode" then send (ZeoDryingMode mappings)
     else mret tt)
    (fun ex => raise ex).

End Entities.

(* ===================================================================== *)
(** ** Demonstration worlds                                               *)
(* ===================================================================== *)

(** The world is a clock in microseconds; every device call takes a second. *)
Module Demo.
Definition second : Z := 1000000.

(** A device that answers every query with a dict giving 1 for each
    protocol asked, and acknowledges every write. *)
Definition answering_zeo : Api Z :=
  {| query_values ps w := (Ok (VDict (map (fun p => (p, VInt 1)) ps)), w + second);
     set_value p v w := (Ok (VDict [(p, v)]), w + second) |}.

(** A device whose calls all time out. *)
Definition failing_zeo : Api Z :=
  {| query_values ps w := (Raise (RoborockException "timeout"), w + second);
     set_value p v w := (Raise (RoborockException "timeout"), w + second) |}.

(** A device that acknowledges writes but times out on every query. *)
Definition write_only_zeo : Api Z :=
  {| query_values ps w := (Raise (RoborockException "timeout"), w + second);
     set_value p v w := (Ok (VDict [(p, v)]), w + second) |}.

(** A device that answers like [answering_zeo], but takes ten seconds over
    a query made in its first minute and one second afterwards. *)
Definition slow_start_zeo : Api Z :=
  {| query_values ps w :=
       (Ok (VDict (map (fun p => (p, VInt 1)) ps)),
        w + (if w <? 60 * second then 10 * second else second));
     set_value p v w := (Ok (VDict [(p, v)]), w + second) |}.

(** __init__.py: the coordinator gets [ZeoProtocol(device)] as its api. *)
Definition wired (dev : Device Z) : Host Z :=
  {| zeo_api := ZeoProtocol.as_api dev;
     clock := fun w => w;
     refresh_postponed := fun _ => false |}.

(** A coordinator handed the device's trait itself, with no wrapper. *)
Definition bare (z : Api Z) : Host Z :=
  {| zeo_api := z; clock := fun w => w; refresh_postponed := fun _ => false |}.

Definition answering : Host Z := wired {| zeo := Some answering_zeo |}.
Definition failing : Host Z := wired {| zeo := Some failing_zeo |}.
Definition slow_start : Host Z := wired {| zeo := Some slow_start_zeo |}.

(** The coordinator after its first tick against the answering device. *)
Definition loaded : Env Z := snd (async_refresh answering (new_env 0)).

(** The loaded coordinator, [d] microseconds after its first tick ended. *)
Definition later (d : Z) : Env Z :=
  Build_Env (co loaded) (world loaded + d) [].
End Demo.

(* ===================================================================== *)
(** ** Vocabulary for stating what the code does                          *)
(* ===================================================================== *)

(** The key a protocol is stored under, and two fields of the coordinator
    inside an environment. *)
Abbreviation key p := (lower (name p)).
Abbreviation times env := (_last_update_times (co env)).
Abbreviation cache env := (_state_cache (co env)).

(** What the per-protocol block keeps of a query's outcome. *)
Definition collected (boolean_protocols : list RoborockZeoProtocol)
    (protocol : RoborockZeoProtocol) (o : outcome PyVal) : option PyVal :=
  match o with
  | Ok result =>
      match coerce_boolean (bool_decide (protocol ∈ boolean_protocols))
              (unwrap_result protocol result) with
      | Ok v => Some v
      | Raise _ => None
      end
  | Raise _ => None
  end.

(** A protocol list seen as the events of its single-key queries. *)
Definition queries (ps : list RoborockZeoProtocol) : list event :=
  map (fun p => EvQuery [p]) ps.

(** The protocols the initial load skips (line 162). *)
Definition write_only (p : RoborockZeoProtocol) : bool :=
  bool_decide (p ∈ [START; PAUSE; SHUTDOWN]).

(** The test of lines 213 and 252 for one protocol, on the timestamps [tm]. *)
Definition due (tm : gmap string Z) (t interval : Z)
    (p : RoborockZeoProtocol) : bool :=
  is_due (tm !! key p) t interval.

(** The protocols a tick queries, from the coordinator's state when the
    tick starts and the time [t] it reads then. *)
Definition tick_queries (s : Coordinator) (t : Z) : list RoborockZeoProtocol :=
  if _initial_load_complete s then
    List.filter (due (_last_update_times s) t UPDATE_INTERVAL_FREQUENT)
      frequent_protocols ++
    List.filter (due (_last_update_times s) t UPDATE_INTERVAL_INFREQUENT)
      infrequent_protocols
  else List.filter (fun p => negb (write_only p)) all_protocols.

(** Calls of the api's [set_value]. *)
Definition is_write (e : event) : bool :=
  match e with EvSet _ _ => true | _ => false end.

(** [all_protocols] without START, PAUSE and SHUTDOWN. *)
Definition readable_protocols : list RoborockZeoProtocol :=
  [STATE; WASHING_LEFT; COUNTDOWN; ERROR; TIMES_AFTER_CLEAN; DETERGENT_EMPTY;
   MODE; PROGRAM; TEMP; RINSE_TIMES; SPIN_LEVEL; DRYING_MODE; DETERGENT_TYPE;
   SOUND_SET].

(** What [async_set_value] turns the given value into before the write. *)
Definition entity_value (_protocol : string) (value : PyVal) : outcome PyVal :=
  if bool_decide (lower _protocol ∈ integer_protocols)
  then to_integer value else Ok value.

(** Every key of the dict is its own lower-case form. *)
Definition lowercase_keys {A} (m : gmap string A) : Prop :=
  ∀ k, is_Some (m !! k) → lower k = k.

(** An operation that hands [async_query_protocol] a name hands it a
    lower-case one, as every call of it in the repository does: "state" in
    button.py, [data_protocol.lower()] in switch.py and select.py. *)
Definition lowercase_query {W : Type} (o : op (W:=W)) : Prop :=
  match o with
  | OpQueryProtocol protocol_name => lower protocol_name = protocol_name
  | _ => True
  end.

Section Vocabulary.
Context {W : Type} (host : Host W).

(** The fields a tick's loops never touch. *)
Definition gather_frame (env env' : Env W) : Prop :=
  cache env' = cache env ∧
  _initial_load_complete (co env') = _initial_load_complete (co env) ∧
  _initial_load_started (co env') = _initial_load_started (co env) ∧
  data (co env') = data (co env).

(** What a loop has done when it ends: it issued the queries [qs], it
    touched nothing but timestamps, world and trace, and the keys it added
    to [all_results] are keys of [qs], each stamped with [t]. *)
Definition loop_done (t : Z) (qs : list RoborockZeoProtocol)
    (acc : gmap string PyVal) (env : Env W)
    (acc' : gmap string PyVal) (env' : Env W) : Prop :=
  trace env' = trace env ++ queries qs ∧
  gather_frame env env' ∧
  ∃ new : gmap string PyVal,
    acc' = new ∪ acc ∧
    times env' = ((fun _ => t) <$> new) ∪ times env ∧
    (∀ k, is_Some (new !! k) → ∃ p, p ∈ qs ∧ k = key p).

(** The events of one refresh request made in [env]. *)
Definition refresh_events (env : Env W) : list event :=
  if refresh_postponed host (world env) then []
  else queries (tick_queries (co env) (clock host (world env))) ++ [EvNotify].

(** The load flag, if set before, is set after. *)
Definition flag_kept (env env' : Env W) : Prop :=
  _initial_load_complete (co env) = true →
  _initial_load_complete (co env') = true.

(** The tick's initial-load branch, stopped when its loop has gone through
    the first [n] protocols: the state in which the next query is made. *)
Definition initial_load_upto (n : nat) : M W (gmap string PyVal) :=
  current_time ← datetime_now host;
  started ← gets _initial_load_started;
  (if negb started then modify (set_initial_load_started true)
   else mret tt);;
  for_each (take n all_protocols) ∅ (initial_load_protocol host current_time).

End Vocabulary.

(* ===================================================================== *)
(** ** Vocabulary for the coordinator's invariants                        *)
(* ===================================================================== *)

(** A value as the boolean coercion leaves it. *)
Definition bool_or_none (v : PyVal) : Prop := v = VNone ∨ ∃ b, v = VBool b.

Section GrowthVocabulary.
Context {W : Type} (host : Host W).

(** [v] is what the per-protocol block with [bps] as its boolean protocols
    keeps of some answer of the api to the single-key query for a protocol
    of [ps] whose key is [k]. *)
Definition answer_for (bps ps : list RoborockZeoProtocol)
    (k : string) (v : PyVal) : Prop :=
  ∃ p w, p ∈ ps ∧ k = key p ∧
    collected bps p (fst (query_values (zeo_api host) [p] w)) = Some v.

(** From [env] to [env'] the cache and the timestamps were only written
    over: entries were added or replaced, on the same keys in both dicts,
    and a value written under sound_set is a boolean or [None]. *)
Definition grows (env env' : Env W) : Prop :=
  ∃ (added : gmap string PyVal) (stamps : gmap string Z),
    cache env' = added ∪ cache env ∧
    times env' = stamps ∪ times env ∧
    (∀ k, is_Some (added !! k) ↔ is_Some (stamps !! k)) ∧
    (∀ v, added !! "sound_set" = Some v → bool_or_none v).

End GrowthVocabulary.

(** Vocabulary for strings: the first character satisfies [P]; every
    character is a decimal digit; a lower-case letter; the label
    [get_option] makes up for a value it does not know. *)
Definition head_sat (P : ascii → bool) (s : string) : bool :=
  match s with
  | String c _ => P c
  | EmptyString => false
  end.

Fixpoint all_digits (s : string) : bool :=
  match s with
  | EmptyString => true
  | String c rest =>
      match digit_of c with Some _ => all_digits rest | None => false end
  end.

Definition is_lower_letter (c : ascii) : bool :=
  let n := N_of_ascii c in ((97 <=? n) && (n <=? 122))%N.

Definition custom_label (s : string) : string :=
  String.append "Custom (" (String.append s ")").

Definition enhanced_maps : list EnhancedOptionsMap.base_map :=
  [MODE_ENHANCED_MAP; PROGRAM_ENHANCED_MAP; TEMP_ENHANCED_MAP;
   SPIN_LEVEL_ENHANCED_MAP; RINSE_TIMES_ENHANCED_MAP;
   DRYING_MODE_ENHANCED_MAP].

(** A device without [zeo], or one whose queries all raise. *)
Definition device_fails {W : Type} (_device : Device W) : Prop :=
  zeo _device = None ∨
  ∃ z, zeo _device = Some z ∧
       ∀ ps w, ∃ e, fst (query_values z ps w) = Raise e.

(** Demonstration entities: the first select and the switch of the
    descriptions, an enumeration with three members standing for the
    library's, and a device that answers 0 to every query. *)
Module DemoEntities.
Definition mode_select : SelectDescription :=
  {| select_key := "mode"; select_data_protocol := "MODE";
     options_map := MODE_OPTIONS |}.

Definition sound_switch : SwitchDescription :=
  {| switch_key := "sound_set"; switch_data_protocol := "SOUND_SET";
     setter_value_on := VInt 1; setter_value_off := VInt 0 |}.

Definition three_members : ZeoEnum :=
  {| __members__ := [("wash", VInt 1); ("wash_and_dry", VInt 2);
                     ("dry", VInt 3)];
     fallback_value := VInt 1 |}.

Definition mappings : CodeMappings :=
  {| ZeoMode := three_members; ZeoProgram := three_members;
     ZeoTemperature := three_members; ZeoSpin := three_members;
     ZeoRinse := three_members; ZeoDryingMode := three_members |}.

Definition zero_zeo : Api Z :=
  {| query_values ps w :=
       (Ok (VDict (map (fun p => (p, VInt 0)) ps)), w + Demo.second);
     set_value p v w := (Ok (VDict [(p, v)]), w + Demo.second) |}.

Definition failing_device : Device Z := {| zeo := Some Demo.failing_zeo |}.

(** The loaded coordinator after an on-demand query of STATE, and the same
    coordinator half a minute later. *)
Definition queried : Env Z :=
  snd (async_query_protocol Demo.answering (key STATE) (Demo.later 0)).

Definition half_a_minute_on : Env Z :=
  Build_Env (co queried) (world queried + 30 * Demo.second) [].
End DemoEntities.

(* ===================================================================== *)
(** ** Checks of the built-ins                                            *)
(* ===================================================================== *)

Example py_int_2 : py_int_of_str "2" = Some 2.
Proof. reflexivity. Qed.

Example py_int_abc : py_int_of_str "abc" = None.
Proof. reflexivity. Qed.

Example py_int_padded : py_int_of_str "  -1_000 " = Some (-1000).
Proof. reflexivity. Qed.

Example lower_sound_set : lower (name SOUND_SET) = "sound_set".
Proof. reflexivity. Qed.

(** Two protocols do not share a key. *)
Lemma key_inj p q : key p = key q → p = q.
Proof. intros H. destruct p, q; try reflexivity; by vm_compute in H. Qed.

(* ===================================================================== *)
(** ** How one tick proceeds                                              *)
(* ===================================================================== *)

Lemma elem_of_List_filter {A} (f : A → bool) (l : list A) (x : A) :
  x ∈ List.filter f l ↔ x ∈ l ∧ f x = true.
Proof. by rewrite !list_elem_of_In, filter_In. Qed.

Lemma NoDup_List_filter {A} (f : A → bool) (l : list A) :
  NoDup l → NoDup (List.filter f l).
Proof.
  induction 1 as [|x l Hx Hl IH]; simpl; [constructor|].
  destruct (f x); [|done]. constructor; [|done].
  rewrite elem_of_List_filter. by intros [? _].
Qed.

Section TickFacts.
Context {W : Type} (host : Host W).

Lemma gather_frame_refl (env : Env W) : gather_frame env env.
Proof. by repeat split. Qed.

Lemma gather_frame_trans (env1 env2 env3 : Env W) :
  gather_frame env1 env2 → gather_frame env2 env3 → gather_frame env1 env3.
Proof.
  intros (?&?&?&?) (?&?&?&?). repeat split; congruence.
Qed.

(** One protocol's block, written out. *)
Lemma query_into_eq bps t acc p env :
  query_into host bps t acc p env =
    let '(o, w') := query_values (zeo_api host) [p] (world env) in
    let tr := trace env ++ [EvQuery [p]] in
    match collected bps p o with
    | Some v =>
        (Ok (<[key p := v]> acc),
         Build_Env (set_last_update_times (<[key p := t]> (times env)) (co env))
           w' tr)
    | None => (Ok acc, Build_Env (co env) w' tr)
    end.
Proof.
  unfold query_into, try_except, mbind, M_bind, bind, call_query_values,
    collected, lift.
  destruct (query_values (zeo_api host) [p] (world env)) as [[result|e] w'];
    simpl; [|done].
  by destruct (coerce_boolean _ _).
Qed.

(** The block always returns, issues exactly its query, and either leaves
    [all_results] and the timestamps alone or adds the protocol's key to
    both. *)
Lemma query_into_spec bps t acc p env :
  ∃ acc' env',
    query_into host bps t acc p env = (Ok acc', env') ∧
    trace env' = trace env ++ [EvQuery [p]] ∧
    gather_frame env env' ∧
    ((acc' = acc ∧ times env' = times env) ∨
     (∃ v, acc' = <[key p := v]> acc ∧
           times env' = <[key p := t]> (times env))).
Proof.
  rewrite query_into_eq.
  destruct (query_values (zeo_api host) [p] (world env)) as [o w'].
  destruct (collected bps p o) as [v|]; simpl.
  - eexists _, _. split; [done|]. repeat split; eauto.
  - eexists _, _. split; [done|]. repeat split; eauto.
Qed.

Lemma loop_done_nil t acc (env : Env W) : loop_done t [] acc env acc env.
Proof.
  split; [by rewrite app_nil_r|]. split; [apply gather_frame_refl|].
  exists ∅. rewrite fmap_empty, !(left_id_L ∅ (∪)).
  repeat split. intros k [? Hk]. by rewrite lookup_empty in Hk.
Qed.

Lemma loop_done_step t p acc (env : Env W) acc1 env1 qs acc2 env2 :
  trace env1 = trace env ++ [EvQuery [p]] →
  gather_frame env env1 →
  ((acc1 = acc ∧ times env1 = times env) ∨
   (∃ v, acc1 = <[key p := v]> acc ∧ times env1 = <[key p := t]> (times env))) →
  loop_done t qs acc1 env1 acc2 env2 →
  loop_done t (p :: qs) acc env acc2 env2.
Proof.
  intros Htr Hfr Hstep (Htr2 & Hfr2 & new & Hacc & Htm & Hdom).
  split; [by rewrite Htr2, Htr, <- app_assoc|].
  split; [by eapply gather_frame_trans|].
  destruct Hstep as [[-> Ht1] | (v & -> & Ht1)].
  - exists new. rewrite Htm, Ht1. repeat split; [done|].
    intros k Hk. destruct (Hdom k Hk) as (q & ? & ?).
    exists q. split; [by right | done].
  - exists (new ∪ {[key p := v]}).
    rewrite Htm, Ht1, Hacc.
    rewrite !insert_union_singleton_l, map_fmap_union, map_fmap_singleton.
    rewrite !(assoc_L (∪)). repeat split.
    intros k Hk. apply lookup_union_is_Some in Hk as [Hk|Hk].
    + destruct (Hdom k Hk) as (q & ? & ?). exists q. split; [by right|done].
    + exists p. split; [by left|].
      destruct Hk as [x Hk]. apply lookup_singleton_Some in Hk. by destruct Hk.
Qed.

Lemma loop_done_app t qs1 qs2 acc (env : Env W) acc1 env1 acc2 env2 :
  loop_done t qs1 acc env acc1 env1 →
  loop_done t qs2 acc1 env1 acc2 env2 →
  loop_done t (qs1 ++ qs2) acc env acc2 env2.
Proof.
  intros (Htr1 & Hfr1 & new1 & Hacc1 & Htm1 & Hdom1)
         (Htr2 & Hfr2 & new2 & Hacc2 & Htm2 & Hdom2).
  split; [unfold queries; by rewrite Htr2, Htr1, map_app, app_assoc|].
  split; [by eapply gather_frame_trans|].
  exists (new2 ∪ new1).
  rewrite Hacc2, Hacc1, Htm2, Htm1, map_fmap_union, !(assoc_L (∪)).
  repeat split.
  intros k Hk. apply lookup_union_is_Some in Hk as [Hk|Hk].
  - destruct (Hdom2 k Hk) as (q & ? & ?). exists q. split; [|done].
    apply elem_of_app. by right.
  - destruct (Hdom1 k Hk) as (q & ? & ?). exists q. split; [|done].
    apply elem_of_app. by left.
Qed.

Lemma initial_load_protocol_eq t acc p env :
  initial_load_protocol host t acc p env =
    if write_only p then (Ok acc, env)
    else query_into host [SOUND_SET] t acc p env.
Proof.
  unfold initial_load_protocol, write_only. by destruct (bool_decide _).
Qed.

Lemma scheduled_protocol_eq interval t acc p env :
  scheduled_protocol host interval t acc p env =
    if due (times env) t interval p
    then query_into host [] t acc p env
    else (Ok acc, env).
Proof.
  unfold scheduled_protocol, due, mbind, M_bind, bind, gets. simpl.
  by destruct (is_due _ _ _).
Qed.

(** The initial-load loop over any list of protocols: it returns, and it
    queries the protocols that are not write-only, each once, in order. *)
Lemma initial_load_loop t ps : ∀ acc env,
  ∃ acc' env',
    for_each ps acc (initial_load_protocol host t) env = (Ok acc', env') ∧
    loop_done t (List.filter (fun p => negb (write_only p)) ps)
      acc env acc' env'.
Proof.
  induction ps as [|p ps IH]; intros acc env; simpl.
  - eexists _, _. split; [done|]. apply loop_done_nil.
  - unfold bind. rewrite initial_load_protocol_eq.
    destruct (write_only p); simpl.
    + apply IH.
    + destruct (query_into_spec [SOUND_SET] t acc p env)
        as (acc1 & env1 & -> & Htr & Hfr & Hstep).
      destruct (IH acc1 env1) as (acc2 & env2 & -> & Hdone).
      eexists _, _. split; [done|]. by eapply loop_done_step.
Qed.

Lemma filter_due_insert (tm : gmap string Z) k t' t interval ps :
  k ∉ map (fun p => key p) ps →
  List.filter (due (<[k := t']> tm) t interval) ps =
  List.filter (due tm t interval) ps.
Proof.
  induction ps as [|q ps IH]; simpl; [done|].
  intros Hk. apply not_elem_of_cons in Hk as [Hne Hk].
  assert (due (<[k := t']> tm) t interval q = due tm t interval q) as ->.
  { unfold due. by rewrite lookup_insert_ne. }
  by rewrite IH.
Qed.

(** The frequent or infrequent loop over any list of protocols with
    distinct keys: it returns, and it queries the protocols that were due
    when the loop started, each once, in order. *)
Lemma scheduled_loop interval t ps : ∀ acc env,
  NoDup (map (fun p => key p) ps) →
  ∃ acc' env',
    for_each ps acc (scheduled_protocol host interval t) env
      = (Ok acc', env') ∧
    loop_done t (List.filter (due (times env) t interval) ps)
      acc env acc' env'.
Proof.
  induction ps as [|p ps IH]; intros acc env Hnd.
  - eexists _, _. split; [done|]. apply loop_done_nil.
  - cbn [for_each map List.filter] in *.
    apply NoDup_cons in Hnd as [Hp Hnd].
    unfold bind. rewrite scheduled_protocol_eq.
    destruct (due (times env) t interval p).
    + destruct (query_into_spec [] t acc p env)
        as (acc1 & env1 & -> & Htr & Hfr & Hstep).
      destruct (IH acc1 env1 Hnd) as (acc2 & env2 & -> & Hdone).
      eexists _, _. split; [done|].
      assert (List.filter (due (times env1) t interval) ps =
              List.filter (due (times env) t interval) ps) as Hsame.
      { destruct Hstep as [[_ ->] | (v & _ & ->)]; [done|].
        by apply filter_due_insert. }
      rewrite Hsame in Hdone. by eapply loop_done_step.
    + apply IH, Hnd.
Qed.

Lemma scheduled_keys_NoDup :
  NoDup (map (fun p => key p) (frequent_protocols ++ infrequent_protocols)).
Proof. apply (bool_decide_unpack _). by vm_compute. Qed.

Lemma filter_due_agree (tm tm' : gmap string Z) t interval ps :
  (∀ p, p ∈ ps → tm' !! key p = tm !! key p) →
  List.filter (due tm' t interval) ps = List.filter (due tm t interval) ps.
Proof.
  induction ps as [|q ps IH]; simpl; [done|].
  intros H.
  assert (due tm' t interval q = due tm t interval q) as ->.
  { unfold due. rewrite (H q); [done|]. by left. }
  rewrite IH; [done|]. intros p Hp. apply H. by right.
Qed.

(** Lines 152-278 as a whole. *)
Lemma gather_results_spec t env :
  ∃ all_results env',
    gather_results host t env = (Ok all_results, env') ∧
    trace env' = trace env ++ queries (tick_queries (co env) t) ∧
    cache env' = cache env ∧
    data (co env') = data (co env) ∧
    _initial_load_complete (co env') = true ∧
    times env' = ((fun _ => t) <$> all_results) ∪ times env ∧
    (∀ k, is_Some (all_results !! k) →
          ∃ p, p ∈ tick_queries (co env) t ∧ k = key p).
Proof.
  unfold gather_results, tick_queries, mbind, M_bind, bind, gets.
  destruct (_initial_load_complete (co env)) eqn:Hc; cbn [negb].
  - pose proof scheduled_keys_NoDup as Hnd.
    rewrite map_app in Hnd.
    apply NoDup_app in Hnd as (Hnd1 & Hdisj & Hnd2).
    destruct (scheduled_loop UPDATE_INTERVAL_FREQUENT t frequent_protocols
                ∅ env Hnd1) as (acc1 & env1 & -> & Hdone1).
    destruct (scheduled_loop UPDATE_INTERVAL_INFREQUENT t infrequent_protocols
                acc1 env1 Hnd2) as (acc2 & env2 & -> & Hdone2).
    assert (List.filter (due (times env1) t UPDATE_INTERVAL_INFREQUENT)
              infrequent_protocols =
            List.filter (due (times env) t UPDATE_INTERVAL_INFREQUENT)
              infrequent_protocols) as Hsame.
    { apply filter_due_agree. intros p Hp.
      destruct Hdone1 as (_ & _ & new & _ & -> & Hdom).
      apply lookup_union_r. rewrite lookup_fmap.
      destruct (new !! key p) as [v|] eqn:Hv; [|done].
      exfalso. destruct (Hdom (key p)) as (q & Hq & Hkey); [by eexists|].
      apply elem_of_List_filter in Hq as [Hq _].
      apply (Hdisj (key q)).
      - apply list_elem_of_fmap. by exists q.
      - rewrite <- Hkey. apply list_elem_of_fmap. by exists p. }
    rewrite Hsame in Hdone2.
    pose proof (loop_done_app _ _ _ _ _ _ _ _ _ Hdone1 Hdone2)
      as (Htr & (Hca & Hco & _ & Hda) & new & Hacc & Htm & Hdom).
    rewrite (right_id_L ∅ (∪)) in Hacc. subst acc2.
    eexists _, _. split; [done|]. repeat split; try done. congruence.
  - set (env0 := snd ((if negb (_initial_load_started (co env))
                       then modify (set_initial_load_started true)
                       else mret tt) env)).
    assert ((if negb (_initial_load_started (co env))
             then modify (set_initial_load_started true)
             else mret tt) env = (Ok tt, env0)) as ->.
    { unfold env0. by destruct (negb _). }
    assert (trace env0 = trace env ∧ cache env0 = cache env ∧
            data (co env0) = data (co env) ∧ times env0 = times env)
      as (Htr0 & Hca0 & Hda0 & Htm0).
    { unfold env0. by destruct (negb _). }
    destruct (initial_load_loop t all_protocols ∅ env0)
      as (acc1 & env1 & -> & Htr & (Hca & _ & _ & Hda) & new & Hacc & Htm & Hdom).
    rewrite (right_id_L ∅ (∪)) in Hacc. subst acc1.
    eexists _, _. split; [done|]. cbn [co trace set_initial_load_complete
      _state_cache _last_update_times _initial_load_complete data].
    split; [by rewrite Htr, Htr0|].
    split; [congruence|]. split; [congruence|]. split; [done|].
    split; [congruence|]. exact Hdom.
Qed.

End TickFacts.

Section OperationFacts.
Context {W : Type} (host : Host W).

Lemma dict_bool_false {A} (d : gmap string A) :
  dict_bool d = false ↔ d = ∅.
Proof.
  unfold dict_bool. rewrite negb_false_iff, Nat.eqb_eq.
  apply map_size_empty_iff.
Qed.

(** [_async_update_data] with its outer [try] written out. *)
Lemma _async_update_data_eq env :
  _async_update_data host env =
    match gather_results host (clock host (world env)) env with
    | (Ok all_results, env1) => store_results all_results env1
    | (Raise e, env1) => tick_fallback e env1
    end.
Proof.
  unfold _async_update_data, try_except, mbind, M_bind, bind, datetime_now.
  destruct (gather_results host (clock host (world env)) env)
    as [[all_results|e] env1]; [|done].
  unfold store_results, mbind, M_bind, bind, modify, mret, M_ret, ret.
  by destruct (dict_bool all_results).
Qed.

(** One tick, start to end: it returns; [all_results] holds keys of
    queried protocols only; the cache takes [all_results] on top of what it
    had; the keys of [all_results] are stamped with the time read when the
    tick started; the load flag is set. *)
Lemma tick_spec env :
  let t := clock host (world env) in
  ∃ all_results env1 r env',
    gather_results host t env = (Ok all_results, env1) ∧
    _async_update_data host env = (Ok r, env') ∧
    r = (if dict_bool all_results then DataOwn all_results else DataIsCache) ∧
    trace env' = trace env ++ queries (tick_queries (co env) t) ∧
    cache env' = all_results ∪ cache env ∧
    times env' = ((fun _ => t) <$> all_results) ∪ times env ∧
    _initial_load_complete (co env') = true ∧
    data (co env') = data (co env) ∧
    world env' = world env1 ∧
    (∀ k, is_Some (all_results !! k) →
          ∃ p, p ∈ tick_queries (co env) t ∧ k = key p).
Proof.
  intros t. rewrite _async_update_data_eq. fold t.
  destruct (gather_results_spec host t env)
    as (all_results & env1 & Hg & Htr & Hca & Hda & Hco & Htm & Hdom).
  rewrite Hg. unfold store_results, mbind, M_bind, bind, modify, mret, M_ret, ret.
  destruct (dict_bool all_results) eqn:Hb.
  - eexists _, _, _, _. split; [done|]. split; [done|].
    cbn [co trace world set_state_cache _state_cache _last_update_times
         _initial_load_complete data].
    rewrite Hb, Hca. by repeat split.
  - eexists _, _, _, _. split; [done|]. split; [done|].
    rewrite Hb. apply dict_bool_false in Hb. subst all_results.
    rewrite (left_id_L ∅ (∪)). by repeat split.
Qed.

(** The framework's refresh on top of the tick. *)
Lemma async_refresh_spec env :
  ∃ r env1,
    _async_update_data host env = (Ok r, env1) ∧
    async_refresh host env =
      (Ok tt, Build_Env (set_data r (co env1)) (world env1)
                (trace env1 ++ [EvNotify])).
Proof.
  destruct (tick_spec env) as (ar & e1 & r & env1 & _ & Ht & _).
  exists r, env1. split; [done|].
  unfold async_refresh, mbind, M_bind, bind. by rewrite Ht.
Qed.

Lemma queries_no_write qs : List.filter is_write (queries qs) = [].
Proof. by induction qs. Qed.

Lemma refresh_events_no_write env :
  List.filter is_write (refresh_events host env) = [].
Proof.
  unfold refresh_events. destruct (refresh_postponed _ _); [done|].
  by rewrite List.filter_app, queries_no_write.
Qed.

(** A refresh request never raises, whatever the device does. *)
Lemma async_request_refresh_spec env :
  ∃ env',
    async_request_refresh host env = (Ok tt, env') ∧
    trace env' = trace env ++ EvRefreshRequest :: refresh_events host env ∧
    (_initial_load_complete (co env) = true →
     _initial_load_complete (co env') = true).
Proof.
  unfold async_request_refresh, refresh_events, mbind, M_bind, bind, emit.
  cbn [world co trace].
  destruct (refresh_postponed host (world env)).
  - eexists. by split.
  - set (env0 := Build_Env (co env) (world env) (trace env ++ [EvRefreshRequest])).
    destruct (async_refresh_spec env0) as (r & env1 & Ht & ->).
    destruct (tick_spec env0)
      as (ar & e1 & r' & env1' & _ & Ht' & _ & Htr & _ & _ & Hco & _).
    rewrite Ht in Ht'. injection Ht' as <- <-.
    eexists. split; [done|]. cbn [trace co set_data _initial_load_complete].
    split; [|done]. rewrite Htr. cbn [trace env0 co world].
    by rewrite <- !app_assoc.
Qed.

Lemma async_send_command_flag protocol value env :
  flag_kept env (snd (async_send_command host protocol value env)).
Proof.
  unfold flag_kept, async_send_command, try_except, mbind, M_bind, bind,
    call_set_value, raise.
  destruct (getattr_protocol protocol) as [p|]; [|done].
  destruct (set_value (zeo_api host) p value (world env)) as [[r|e] w'];
    [|done].
  set (env0 := Build_Env (co env) w' (trace env ++ [EvSet p value])).
  destruct (async_request_refresh_spec env0) as (env' & -> & _ & Hflag).
  exact Hflag.
Qed.

Lemma async_set_value_flag _protocol value env :
  flag_kept env (snd (async_set_value host _protocol value env)).
Proof.
  unfold flag_kept, async_set_value, try_except, mbind, M_bind, bind,
    call_set_value, raise, lift, mret, M_ret, ret.
  destruct (getattr_protocol _protocol) as [p|]; [|done].
  destruct (bool_decide _); [destruct (to_integer value) as [v|e]; [|done]|].
  - destruct (set_value (zeo_api host) p v (world env)) as [[r|e] w'];
      [|done].
    set (env0 := Build_Env (co env) w' (trace env ++ [EvSet p v])).
    destruct (async_request_refresh_spec env0) as (env' & -> & _ & Hflag).
    exact Hflag.
  - destruct (set_value (zeo_api host) p value (world env)) as [[r|e] w'];
      [|done].
    set (env0 := Build_Env (co env) w' (trace env ++ [EvSet p value])).
    destruct (async_request_refresh_spec env0) as (env' & -> & _ & Hflag).
    exact Hflag.
Qed.

Lemma data_setitem_flag k v s :
  _initial_load_complete (data_setitem k v s) = _initial_load_complete s.
Proof. unfold data_setitem. by destruct (data s). Qed.

Lemma async_query_protocol_flag protocol_name env :
  flag_kept env (snd (async_query_protocol host protocol_name env)).
Proof.
  unfold flag_kept, async_query_protocol, try_except, mbind, M_bind, bind,
    call_query_values, raise, lift, modify, emit, datetime_now, mret, M_ret,
    ret.
  destruct (getattr_protocol (upper protocol_name)) as [p|]; [|done].
  destruct (query_values (zeo_api host) [p] (world env)) as [[r|e] w'];
    [|done].
  destruct (coerce_boolean _ _) as [v|e]; [|done].
  cbn [snd co]. by rewrite data_setitem_flag.
Qed.

Lemma run_op_flag o env : flag_kept env (run_op host o env).
Proof.
  destruct o; cbn [run_op].
  - destruct (async_refresh_spec env) as (r & env1 & Ht & ->).
    destruct (tick_spec env)
      as (ar & e1 & r' & env1' & _ & Ht' & _ & _ & _ & _ & Hco & _).
    rewrite Ht in Ht'. injection Ht' as <- <-. by intros _.
  - apply async_send_command_flag.
  - apply async_query_protocol_flag.
  - apply async_set_value_flag.
  - by unfold flag_kept.
Qed.

(** Once set, the load flag stays set through anything that happens to the
    coordinator. *)
Lemma run_ops_flag ops : ∀ env,
  _initial_load_complete (co env) = true →
  _initial_load_complete (co (run_ops host ops env)) = true.
Proof.
  induction ops as [|o ops IH]; intros env Hc; [done|].
  cbn [run_ops fold_left]. apply IH. by apply run_op_flag.
Qed.

End OperationFacts.

(* ===================================================================== *)
(** ** The scheduler                                                      *)
(* ===================================================================== *)

Lemma readable_protocols_eq :
  readable_protocols =
  List.filter (fun p => negb (bool_decide (p ∈ [START; PAUSE; SHUTDOWN])))
    (frequent_protocols ++ infrequent_protocols ++ manual_protocols).
Proof. by vm_compute. Qed.

Lemma readable_protocols_NoDup : NoDup readable_protocols.
Proof. apply (bool_decide_unpack _). by vm_compute. Qed.

Lemma manual_not_scheduled p :
  p ∈ manual_protocols → p ∉ frequent_protocols ++ infrequent_protocols.
Proof.
  revert p. apply Forall_forall. apply (bool_decide_unpack _). by vm_compute.
Qed.

Lemma frequent_not_infrequent p :
  p ∈ frequent_protocols → p ∉ infrequent_protocols.
Proof.
  revert p. apply Forall_forall. apply (bool_decide_unpack _). by vm_compute.
Qed.

Lemma is_due_iff last_update t interval :
  is_due last_update t interval = true ↔
  last_update = None ∨ ∃ T, last_update = Some T ∧ interval ≤ t - T.
Proof.
  unfold is_due. destruct last_update as [T|].
  - rewrite Z.leb_le. split.
    + intros H. right. by exists T.
    + by intros [?|(T' & [= <-] & ?)].
  - split; [by left|done].
Qed.

Section SchedulerClaims.
Context {W : Type} (host : Host W).

(** C2. The first tick queries every protocol of the three groups except
    START, PAUSE and SHUTDOWN, one single-key query each, in declaration
    order, whatever the individual queries do; it then sets the load flag,
    and nothing that happens to the coordinator afterwards clears it. *)
Theorem initial_load_queries_each_key_once (env : Env W) :
  _initial_load_complete (co env) = false →
  ∃ r env',
    _async_update_data host env = (Ok r, env') ∧
    trace env' = trace env ++ map (fun p => EvQuery [p]) readable_protocols ∧
    readable_protocols =
      List.filter (fun p => negb (bool_decide (p ∈ [START; PAUSE; SHUTDOWN])))
        (frequent_protocols ++ infrequent_protocols ++ manual_protocols) ∧
    NoDup readable_protocols ∧
    _initial_load_complete (co env') = true ∧
    (∀ ops, _initial_load_complete (co (run_ops host ops env')) = true) ∧
    (∀ e ops, _initial_load_complete (co e) = true →
              _initial_load_complete (co (run_ops host ops e)) = true).
Proof.
  intros Hc.
  destruct (tick_spec host env)
    as (ar & e1 & r & env' & _ & Ht & _ & Htr & _ & _ & Hco & _).
  exists r, env'. split; [done|].
  split.
  { rewrite Htr. unfold tick_queries. rewrite Hc. done. }
  split; [apply readable_protocols_eq|].
  split; [apply readable_protocols_NoDup|].
  split; [done|].
  split; [intros ops; by apply run_ops_flag|].
  intros e ops He. by apply run_ops_flag.
Qed.

(** C3. In a tick made after the initial load, the queries issued are
    single-key queries, at most one per protocol, and a protocol is queried
    exactly when it is in the frequent or the infrequent group and has no
    timestamp or one at least its group's interval old; a manual protocol is
    never queried.  What the tick stores it stamps with [now], the time it
    read once when it started, not with the time of the query: the
    timestamps after the tick are [now] under the keys of [all_results],
    which are keys of queried protocols, and what they were under every
    other key.  So a protocol stamped [T] is not queried by a tick that
    starts before [T + interval], and a protocol this tick stamped is not
    queried by a tick starting before [now + interval]. *)
Theorem steady_tick_queries_exactly_due_keys (env : Env W) :
  _initial_load_complete (co env) = true →
  let now := clock host (world env) in
  let last p := _last_update_times (co env) !! key p in
  ∃ r env' qs,
    _async_update_data host env = (Ok r, env') ∧
    trace env' = trace env ++ map (fun p => EvQuery [p]) qs ∧
    NoDup qs ∧
    (∀ p, p ∈ qs ↔
       (p ∈ frequent_protocols ∧
        (last p = None ∨
         ∃ T, last p = Some T ∧ UPDATE_INTERVAL_FREQUENT ≤ now - T)) ∨
       (p ∈ infrequent_protocols ∧
        (last p = None ∨
         ∃ T, last p = Some T ∧ UPDATE_INTERVAL_INFREQUENT ≤ now - T))) ∧
    (∀ p T, p ∈ frequent_protocols → last p = Some T →
            now < T + UPDATE_INTERVAL_FREQUENT → p ∉ qs) ∧
    (∀ p T, p ∈ infrequent_protocols → last p = Some T →
            now < T + UPDATE_INTERVAL_INFREQUENT → p ∉ qs) ∧
    (∀ p, p ∈ manual_protocols → p ∉ qs) ∧
    (∃ all_results : gmap string PyVal,
       _state_cache (co env') = all_results ∪ _state_cache (co env) ∧
       _last_update_times (co env') =
         ((fun _ => now) <$> all_results) ∪ _last_update_times (co env) ∧
       (∀ k, is_Some (all_results !! k) → ∃ p, p ∈ qs ∧ k = key p)) ∧
    (∀ p, p ∉ qs → _last_update_times (co env') !! key p = last p) ∧
    (∀ p T, _last_update_times (co env') !! key p = Some T →
            T = now ∨ last p = Some T) ∧
    (∀ (env2 : Env W) p,
       co env2 = co env' →
       _last_update_times (co env') !! key p = Some now →
       (p ∈ frequent_protocols ∧
        clock host (world env2) < now + UPDATE_INTERVAL_FREQUENT) ∨
       (p ∈ infrequent_protocols ∧
        clock host (world env2) < now + UPDATE_INTERVAL_INFREQUENT) →
       ∃ r2 env2' qs2,
         _async_update_data host env2 = (Ok r2, env2') ∧
         trace env2' = trace env2 ++ map (fun p => EvQuery [p]) qs2 ∧
         p ∉ qs2).
Proof.
  intros Hc now last.
  assert (∀ e : Env W, _initial_load_complete (co e) = true →
          ∀ p, p ∈ tick_queries (co e) (clock host (world e)) ↔
       (p ∈ frequent_protocols ∧
        (_last_update_times (co e) !! key p = None ∨
         ∃ T, _last_update_times (co e) !! key p = Some T ∧
              UPDATE_INTERVAL_FREQUENT ≤ clock host (world e) - T)) ∨
       (p ∈ infrequent_protocols ∧
        (_last_update_times (co e) !! key p = None ∨
         ∃ T, _last_update_times (co e) !! key p = Some T ∧
              UPDATE_INTERVAL_INFREQUENT ≤ clock host (world e) - T)))
    as Hgen.
  { intros e He p. unfold tick_queries. rewrite He.
    rewrite elem_of_app, !elem_of_List_filter.
    unfold due. by rewrite !is_due_iff. }
  destruct (tick_spec host env)
    as (ar & e1 & r & env' & _ & Ht & _ & Htr & Hca & Htm & Hflag & _ & _
        & Hdom).
  fold now in Htr, Htm, Hdom.
  pose proof (Hgen env Hc) as Hiff. fold now in Hiff.
  set (qs := tick_queries (co env) now) in *.
  assert (NoDup qs) as Hnd.
  { unfold qs, tick_queries. rewrite Hc. apply NoDup_app. repeat split.
    - apply NoDup_List_filter. apply (bool_decide_unpack _). by vm_compute.
    - intros p [Hp _]%elem_of_List_filter [Hq _]%elem_of_List_filter.
      by apply (frequent_not_infrequent p).
    - apply NoDup_List_filter. apply (bool_decide_unpack _). by vm_compute. }
  assert (∀ p, p ∉ qs → _last_update_times (co env') !! key p = last p)
    as Hkeep.
  { intros p Hp. rewrite Htm.
    apply lookup_union_r. rewrite lookup_fmap.
    destruct (ar !! key p) as [v|] eqn:Hv; [|done].
    destruct (Hdom (key p) (mk_is_Some _ _ Hv)) as (q & Hq & Hk).
    apply key_inj in Hk as ->. done. }
  exists r, env', qs. split; [done|]. split; [done|].
  split; [exact Hnd|].
  split; [exact Hiff|].
  split.
  { intros p T Hp HT Hlt Hin. apply Hiff in Hin as [[_ H]|[Hq _]].
    - destruct H as [H|(T' & H & Hle)]; [unfold last in HT; congruence|].
      assert (T' = T) as -> by (unfold last in HT; congruence). lia.
    - by apply (frequent_not_infrequent p). }
  split.
  { intros p T Hp HT Hlt Hin. apply Hiff in Hin as [[Hq _]|[_ H]].
    - by apply (frequent_not_infrequent p).
    - destruct H as [H|(T' & H & Hle)]; [unfold last in HT; congruence|].
      assert (T' = T) as -> by (unfold last in HT; congruence). lia. }
  split.
  { intros p Hp Hin. apply (manual_not_scheduled p Hp).
    apply elem_of_app. apply Hiff in Hin as [[? _]|[? _]]; [by left|by right]. }
  split; [by exists ar|].
  split; [exact Hkeep|].
  split.
  { intros p T HT. rewrite Htm in HT.
    apply lookup_union_Some_raw in HT as [HT|[_ HT]]; [|by right].
    rewrite lookup_fmap in HT. destruct (ar !! key p); [|done].
    injection HT as <-. by left. }
  intros env2 p Hco Hp Hsoon.
  destruct (tick_spec host env2)
    as (ar2 & e2 & r2 & env2' & _ & Ht2 & _ & Htr2 & _).
  exists r2, env2', (tick_queries (co env2) (clock host (world env2))).
  split; [done|]. split; [done|].
  intros Hin. apply Hgen in Hin; [|by rewrite Hco].
  rewrite Hco, Hp in Hin.
  destruct Hsoon as [[Hf Hlt]|[Hf Hlt]],
    Hin as [[Hq [H|(T & [= <-] & Hle)]]|[Hq [H|(T & [= <-] & Hle)]]];
    try done; try lia; by apply (frequent_not_infrequent p).
Qed.

(** C4. Storing an empty [all_results] changes nothing and hands back the
    cache object; so a tick that collects nothing leaves every cache entry
    and every timestamp as it was and returns the cache, not an empty
    dict; and when the body protected by the outer [try] raises, the
    handler returns the cache as well. *)
Theorem empty_tick_keeps_cache_and_returns_it (env : Env W) :
  (∀ e, store_results (W:=W) ∅ e = (Ok DataIsCache, e)) ∧
  (fst (gather_results host (clock host (world env)) env) = Ok ∅ →
   ∃ env',
     _async_update_data host env = (Ok DataIsCache, env') ∧
     _state_cache (co env') = _state_cache (co env) ∧
     _last_update_times (co env') = _last_update_times (co env) ∧
     result_dict DataIsCache (co env') = _state_cache (co env)) ∧
  (∀ (body : M W data_ref) err env1,
     body env = (Raise err, env1) →
     try_except body tick_fallback env = (Ok DataIsCache, env1) ∧
     result_dict DataIsCache (co env1) = _state_cache (co env1)).
Proof.
  split; [done|]. split.
  - intros Hg.
    destruct (tick_spec host env)
      as (ar & e1 & r & env' & Hg' & Ht & Hr & _ & Hca & Htm & _).
    rewrite Hg' in Hg. injection Hg as ->.
    assert (dict_bool (∅ : gmap string PyVal) = false) as Hb
      by (by apply dict_bool_false).
    rewrite Hb in Hr. subst r.
    exists env'. unfold result_dict.
    rewrite Ht, Hca, Htm, fmap_empty, !(left_id_L ∅ (∪)). by repeat split.
  - intros body err env1 Hb. unfold try_except. by rewrite Hb.
Qed.

End SchedulerClaims.

(* ===================================================================== *)
(** ** The initial load, round by round                                   *)
(* ===================================================================== *)

Section InitialLoadRounds.
Context {W : Type} (host : Host W).

Lemma for_each_app {A B} (xs ys : list A) (acc : B) (body : B → A → M W B) env :
  for_each (xs ++ ys) acc body env =
  bind (for_each xs acc body) (fun acc' => for_each ys acc' body) env.
Proof.
  revert acc env. induction xs as [|x xs IH]; intros acc env; [done|].
  cbn [for_each app]. unfold bind at 1. symmetry. unfold bind at 1 2.
  destruct (body acc x env) as [[acc1|e] env1]; [|done].
  by rewrite IH.
Qed.

Lemma initial_load_upto_spec n env :
  let t := clock host (world env) in
  ∃ acc env_n,
    initial_load_upto host n env = (Ok acc, env_n) ∧
    trace env_n = trace env ++
      queries (List.filter (fun p => negb (write_only p)) (take n all_protocols)) ∧
    _state_cache (co env_n) = _state_cache (co env) ∧
    _last_update_times (co env_n) =
      ((fun _ => t) <$> acc) ∪ _last_update_times (co env) ∧
    _initial_load_complete (co env_n) = _initial_load_complete (co env).
Proof.
  intros t. unfold initial_load_upto, mbind, M_bind, bind, datetime_now, gets.
  fold t.
  set (env0 := snd ((if negb (_initial_load_started (co env))
                     then modify (set_initial_load_started true)
                     else mret tt) env)).
  assert ((if negb (_initial_load_started (co env))
           then modify (set_initial_load_started true)
           else mret tt) env = (Ok tt, env0)) as ->.
  { unfold env0. by destruct (negb _). }
  assert (trace env0 = trace env ∧
          _state_cache (co env0) = _state_cache (co env) ∧
          _last_update_times (co env0) = _last_update_times (co env) ∧
          _initial_load_complete (co env0) = _initial_load_complete (co env))
    as (Htr0 & Hca0 & Htm0 & Hco0).
  { unfold env0. by destruct (negb _). }
  destruct (initial_load_loop host t (take n all_protocols) ∅ env0)
    as (acc & env_n & -> & Htr & (Hca & Hco & _) & new & Hacc & Htm & _).
  rewrite (right_id_L ∅ (∪)) in Hacc. subst acc.
  exists new, env_n. split; [done|].
  repeat split; congruence.
Qed.

(** The state after [n] rounds is a state the whole loop goes through: the
    pass continues from it with the remaining protocols. *)
Lemma initial_load_upto_continues n env :
  initial_load_upto host (length all_protocols) env =
    match initial_load_upto host n env with
    | (Ok acc, env_n) =>
        for_each (drop n all_protocols) acc
          (initial_load_protocol host (clock host (world env))) env_n
    | (Raise err, env_n) => (Raise err, env_n)
    end.
Proof.
  unfold initial_load_upto, mbind, M_bind, bind, datetime_now, gets.
  rewrite firstn_all.
  destruct ((if negb (_initial_load_started (co env))
             then modify (set_initial_load_started true)
             else mret tt) env) as [[[]|e] env0]; [|done].
  rewrite <- (take_drop n all_protocols) at 1.
  rewrite for_each_app. unfold bind.
  by destruct (for_each (take n all_protocols) ∅ _ env0) as [[acc|e] env_n].
Qed.

(** With the load flag down, what the tick collects is what the loop has
    collected after its last round. *)
Lemma gather_results_initial env :
  _initial_load_complete (co env) = false →
  gather_results host (clock host (world env)) env =
    match initial_load_upto host (length all_protocols) env with
    | (Ok all_results, e) =>
        (Ok all_results,
         Build_Env (set_initial_load_complete true (co e)) (world e) (trace e))
    | (Raise err, e) => (Raise err, e)
    end.
Proof.
  intros Hc.
  unfold gather_results, initial_load_upto, mbind, M_bind, bind, gets,
    datetime_now.
  rewrite Hc, firstn_all. cbn [negb].
  destruct ((if negb (_initial_load_started (co env))
             then modify (set_initial_load_started true)
             else mret tt) env) as [[[]|e] env0]; [|done].
  by destruct (for_each all_protocols ∅ _ env0) as [[a|e] e1].
Qed.

(** C5, as the code has it. During the initial load each protocol's
    successful result is unwrapped, coerced and put into [all_results], and
    its timestamp is set, right after its own query; the timestamp is the
    one time read when the tick started.  The cache is not written while
    the loop runs: after any number of rounds it is the cache from before
    the tick, and it takes all of [all_results] in one update after the
    last round. *)
Theorem initial_load_collects_then_stores_once (env : Env W) :
  _initial_load_complete (co env) = false →
  let t := clock host (world env) in
  (∀ acc p e,
     bool_decide (p ∈ [START; PAUSE; SHUTDOWN]) = false →
     initial_load_protocol host t acc p e =
       let '(o, w') := query_values (zeo_api host) [p] (world e) in
       let tr := trace e ++ [EvQuery [p]] in
       match collected [SOUND_SET] p o with
       | Some v =>
           (Ok (<[key p := v]> acc),
            Build_Env (set_last_update_times
                         (<[key p := t]> (_last_update_times (co e))) (co e))
              w' tr)
       | None => (Ok acc, Build_Env (co e) w' tr)
       end) ∧
  (∀ n, ∃ acc env_n,
     initial_load_upto host n env = (Ok acc, env_n) ∧
     initial_load_upto host (length all_protocols) env =
       for_each (drop n all_protocols) acc (initial_load_protocol host t) env_n ∧
     _state_cache (co env_n) = _state_cache (co env) ∧
     _last_update_times (co env_n) =
       ((fun _ => t) <$> acc) ∪ _last_update_times (co env)) ∧
  (∃ all_results e_last r env',
     initial_load_upto host (length all_protocols) env = (Ok all_results, e_last) ∧
     _async_update_data host env = (Ok r, env') ∧
     _state_cache (co env') = all_results ∪ _state_cache (co env) ∧
     _last_update_times (co env') =
       ((fun _ => t) <$> all_results) ∪ _last_update_times (co env)).
Proof.
  intros Hc t. split; [|split].
  - intros acc p e Hp. rewrite initial_load_protocol_eq.
    unfold write_only. rewrite Hp. apply query_into_eq.
  - intros n.
    destruct (initial_load_upto_spec n env)
      as (acc & env_n & H & _ & Hca & Htm & _).
    exists acc, env_n. split; [done|]. split; [|done].
    by rewrite (initial_load_upto_continues n), H.
  - destruct (initial_load_upto_spec (length all_protocols) env)
      as (acc & e_last & Hup & _ & Hca & Htm & _).
    destruct (tick_spec host env)
      as (ar & e1 & r & env' & Hg & Ht & _ & _ & Hca' & Htm' & _).
    rewrite (gather_results_initial env Hc), Hup in Hg.
    injection Hg as <- _.
    by exists acc, e_last, r, env'.
Qed.

End InitialLoadRounds.

(* ===================================================================== *)
(** ** The command path                                                   *)
(* ===================================================================== *)

Section CommandClaims.
Context {W : Type} (host : Host W).

(** When the [api] itself raises on a write, [async_send_command] raises
    the same exception and requests no refresh. *)
Lemma async_send_command_reraises protocol p value env e w' :
  getattr_protocol protocol = Some p →
  set_value (zeo_api host) p value (world env) = (Raise e, w') →
  async_send_command host protocol value env =
    (Raise e, Build_Env (co env) w' (trace env ++ [EvSet p value])).
Proof.
  intros Hp Hs.
  unfold async_send_command, try_except, mbind, M_bind, bind, call_set_value.
  by rewrite Hp, Hs.
Qed.

(** When the [api] itself raises on a query, the per-protocol block keeps
    [all_results] and every field of the coordinator as they were. *)
Lemma query_into_api_raise bps t acc p env e w' :
  query_values (zeo_api host) [p] (world env) = (Raise e, w') →
  query_into host bps t acc p env =
    (Ok acc, Build_Env (co env) w' (trace env ++ [EvQuery [p]])).
Proof. intros H. rewrite query_into_eq, H. done. Qed.

Lemma async_set_value_eq _protocol p value env :
  getattr_protocol _protocol = Some p →
  async_set_value host _protocol value env =
    match entity_value _protocol value with
    | Raise e => (Raise e, env)
    | Ok v =>
        match set_value (zeo_api host) p v (world env) with
        | (Raise e, w') =>
            (Raise e, Build_Env (co env) w' (trace env ++ [EvSet p v]))
        | (Ok _, w') =>
            async_request_refresh host
              (Build_Env (co env) w' (trace env ++ [EvSet p v]))
        end
    end.
Proof.
  intros Hp.
  unfold async_set_value, entity_value, try_except, mbind, M_bind, bind,
    call_set_value, raise, lift, mret, M_ret, ret.
  rewrite Hp.
  destruct (bool_decide _); [destruct (to_integer value) as [v|e]; [|done]|].
  - destruct (set_value (zeo_api host) p v (world env)) as [[r|e] w'];
      [|done].
    by destruct (async_request_refresh host _) as [[[]|e] e'].
  - destruct (set_value (zeo_api host) p value (world env)) as [[r|e] w'];
      [|done].
    by destruct (async_request_refresh host _) as [[[]|e] e'].
Qed.

(** C7. Once the write has returned, [async_send_command] and the
    entity's [async_set_value] request a refresh and return normally,
    whatever the device does to the queries of that refresh: the calls
    made are the write, the refresh request, and the refresh's own
    queries. *)
Theorem refresh_after_write_is_best_effort
    (env : Env W) (protocol : string) (p : RoborockZeoProtocol)
    (value : PyVal) :
  getattr_protocol protocol = Some p →
  let written x w' := Build_Env (co env) w' (trace env ++ [EvSet p x]) in
  (∀ r w',
     set_value (zeo_api host) p value (world env) = (Ok r, w') →
     ∃ env',
       async_send_command host protocol value env = (Ok tt, env') ∧
       trace env' =
         trace env ++ EvSet p value :: EvRefreshRequest ::
           refresh_events host (written value w')) ∧
  (∀ v r w',
     entity_value protocol value = Ok v →
     set_value (zeo_api host) p v (world env) = (Ok r, w') →
     ∃ env',
       async_set_value host protocol value env = (Ok tt, env') ∧
       trace env' =
         trace env ++ EvSet p v :: EvRefreshRequest ::
           refresh_events host (written v w')).
Proof.
  intros Hp written. split.
  - intros r w' Hs.
    unfold async_send_command, try_except, mbind, M_bind, bind, call_set_value.
    rewrite Hp, Hs.
    destruct (async_request_refresh_spec host (written value w'))
      as (env' & Hr & Htr & _).
    unfold written in Hr. rewrite Hr. exists env'. split; [done|].
    rewrite Htr. cbn [trace written]. by rewrite <- app_assoc.
  - intros v r w' Hv Hs.
    rewrite (async_set_value_eq _ p) by done. rewrite Hv, Hs.
    destruct (async_request_refresh_spec host (written v w'))
      as (env' & Hr & Htr & _).
    unfold written in Hr. rewrite Hr. exists env'. split; [done|].
    rewrite Htr. cbn [trace written]. by rewrite <- app_assoc.
Qed.

(** C8. For an entity on SOUND_SET, START, PAUSE or SHUTDOWN, the one
    write [async_set_value] makes carries 1 for [True] and 0 for [False],
    and the parsed integer for a string that [int] accepts, such as 2 for
    the string 2; for a string that [int] rejects, such as abc, the call
    raises [ValueError] and leaves the environment, trace included, as it
    was: no write and no query has been made. *)
Theorem integer_protocols_coerce_before_write
    (env : Env W) (_protocol : string) :
  _protocol ∈ ["SOUND_SET"; "START"; "PAUSE"; "SHUTDOWN"] →
  ∃ p,
    getattr_protocol _protocol = Some p ∧
    lower _protocol ∈ integer_protocols ∧
    (∀ b : bool, ∃ o env' rest,
       async_set_value host _protocol (VBool b) env = (o, env') ∧
       trace env' = trace env ++ EvSet p (VInt (if b then 1 else 0)) :: rest ∧
       List.filter (is_write) rest = []) ∧
    (∀ s z, py_int_of_str s = Some z → ∃ o env' rest,
       async_set_value host _protocol (VStr s) env = (o, env') ∧
       trace env' = trace env ++ EvSet p (VInt z) :: rest ∧
       List.filter (is_write) rest = []) ∧
    py_int_of_str "2" = Some 2 ∧
    (∀ s, py_int_of_str s = None → ∃ msg,
       async_set_value host _protocol (VStr s) env =
         (Raise (ValueError msg), env)) ∧
    py_int_of_str "abc" = None.
Proof.
  intros Hin.
  assert (∃ p, getattr_protocol _protocol = Some p ∧
               bool_decide (lower _protocol ∈ integer_protocols) = true)
    as (p & Hp & Hint).
  { repeat (apply elem_of_cons in Hin as [->|Hin]; [by eexists|]).
    by apply elem_of_nil in Hin. }
  assert (∀ value v, to_integer value = Ok v → ∃ o env' rest,
       async_set_value host _protocol value env = (o, env') ∧
       trace env' = trace env ++ EvSet p v :: rest ∧
       List.filter (is_write) rest = []) as Hsend.
  { intros value v Hv. rewrite (async_set_value_eq _ p) by done.
    unfold entity_value. rewrite Hint, Hv.
    destruct (set_value (zeo_api host) p v (world env)) as [[r|e] w'].
    - destruct (async_request_refresh_spec host
                  (Build_Env (co env) w' (trace env ++ [EvSet p v])))
        as (env' & -> & Htr & _).
      eexists _, env', _. split; [done|]. split.
      + rewrite Htr. cbn [trace]. by rewrite <- app_assoc.
      + cbn [List.filter is_write]. apply refresh_events_no_write.
    - eexists _, _, []. split; [done|]. by split. }
  exists p. split; [done|]. split; [by apply bool_decide_eq_true in Hint|].
  split; [intros b; by apply Hsend|].
  split.
  { intros s z Hs. apply Hsend. cbn [to_integer]. by rewrite Hs. }
  split; [done|]. split; [|done].
  intros s Hs. rewrite (async_set_value_eq _ p) by done.
  unfold entity_value. rewrite Hint. cbn [to_integer]. rewrite Hs.
  by eexists.
Qed.

End CommandClaims.

(* ===================================================================== *)
(** ** zeo_protocol.py                                                    *)
(* ===================================================================== *)

(** What [ZeoProtocol.set_value] answers, case by case. *)
Lemma zeo_set_value_returns {W : Type} (_device : Device W)
    (protocol : RoborockZeoProtocol) (value : PyVal) (w : W) :
  ∃ result w',
    ZeoProtocol.set_value _device protocol value w = (Ok result, w') ∧
    match zeo _device with
    | None => result = VDict [] ∧ w' = w
    | Some z =>
        match set_value z protocol value w with
        | (Ok answer, w1) => result = answer ∧ w' = w1
        | (Raise _, w1) => result = VDict [] ∧ w' = w1
        end
    end.
Proof.
  unfold ZeoProtocol.set_value.
  destruct (zeo _device) as [z|]; [|by eexists _, _].
  destruct (set_value z protocol value w) as [[answer|e] w1]; by eexists _, _.
Qed.

(** What [ZeoProtocol.query_values] answers, case by case. *)
Lemma zeo_query_values_returns {W : Type} (_device : Device W)
    (protocols : list RoborockZeoProtocol) (w : W) :
  ∃ result w',
    ZeoProtocol.query_values _device protocols w = (Ok result, w') ∧
    match zeo _device with
    | None => result = VDict [] ∧ w' = w
    | Some z =>
        match query_values z protocols w with
        | (Ok answer, w1) => result = answer ∧ w' = w1
        | (Raise _, w1) => result = VDict [] ∧ w' = w1
        end
    end.
Proof.
  unfold ZeoProtocol.query_values.
  destruct (zeo _device) as [z|]; [|by eexists _, _].
  destruct (query_values z protocols w) as [[answer|e] w1]; by eexists _, _.
Qed.

(** C10. [ZeoProtocol.query_values] and [ZeoProtocol.set_value] always
    return: the device's answer when the device call returns, and the empty
    dict when the device has no [zeo] or the device call raises. *)
Theorem zeo_protocol_never_raises {W : Type} (_device : Device W)
    (protocols : list RoborockZeoProtocol) (protocol : RoborockZeoProtocol)
    (value : PyVal) (w : W) :
  (∃ result w',
     ZeoProtocol.query_values _device protocols w = (Ok result, w') ∧
     match zeo _device with
     | None => result = VDict [] ∧ w' = w
     | Some z =>
         match query_values z protocols w with
         | (Ok answer, w1) => result = answer ∧ w' = w1
         | (Raise _, w1) => result = VDict [] ∧ w' = w1
         end
     end) ∧
  (∃ result w',
     ZeoProtocol.set_value _device protocol value w = (Ok result, w') ∧
     match zeo _device with
     | None => result = VDict [] ∧ w' = w
     | Some z =>
         match set_value z protocol value w with
         | (Ok answer, w1) => result = answer ∧ w' = w1
         | (Raise _, w1) => result = VDict [] ∧ w' = w1
         end
     end).
Proof.
  split; [apply zeo_query_values_returns | apply zeo_set_value_returns].
Qed.

(* ===================================================================== *)
(** ** Lower-case keys, and the coordinator behind the wrapper            *)
(* ===================================================================== *)

Lemma lower_ascii_idemp c : lower_ascii (lower_ascii c) = lower_ascii c.
Proof. destruct c as [[] [] [] [] [] [] [] []]; by vm_compute. Qed.

Lemma lower_idemp s : lower (lower s) = lower s.
Proof.
  induction s as [|c s IH]; [done|]. cbn [lower].
  by rewrite lower_ascii_idemp, IH.
Qed.

Section KeysAndWrapper.
Context {W : Type} (host : Host W).

(** A tick stores under [protocol.name.lower()] only. *)
Lemma tick_keeps_lowercase_keys env :
  lowercase_keys (_state_cache (co env)) →
  lowercase_keys (_state_cache (co (snd (_async_update_data host env)))).
Proof.
  intros Hl.
  destruct (tick_spec host env)
    as (ar & e1 & r & env' & _ & -> & _ & _ & Hca & _ & _ & _ & _ & Hdom).
  cbn [snd]. rewrite Hca. intros k Hk.
  apply lookup_union_is_Some in Hk as [Hk|Hk]; [|by apply Hl].
  destruct (Hdom k Hk) as (p & _ & ->). apply lower_idemp.
Qed.

(** [async_query_protocol] keeps the keys lower-case when it is given a
    lower-case name. *)
Lemma query_protocol_keeps_lowercase_keys protocol_name env :
  lower protocol_name = protocol_name →
  lowercase_keys (_state_cache (co env)) →
  lowercase_keys
    (_state_cache (co (snd (async_query_protocol host protocol_name env)))).
Proof.
  intros Hn Hl.
  unfold async_query_protocol, try_except, mbind, M_bind, bind,
    call_query_values, raise, lift, modify, emit, datetime_now, mret, M_ret,
    ret.
  destruct (getattr_protocol (upper protocol_name)) as [p|]; [|done].
  destruct (query_values (zeo_api host) [p] (world env)) as [[r|e] w'];
    [|done].
  destruct (coerce_boolean _ _) as [v|e]; [|done].
  cbn [snd co]. unfold data_setitem.
  cbn [data set_last_update_times set_state_cache _state_cache].
  assert (lowercase_keys (<[protocol_name := v]> (_state_cache (co env))))
    as Hl'.
  { intros k Hk. apply lookup_insert_is_Some in Hk as [<-|[_ Hk]]; [done|].
    by apply Hl. }
  destruct (data (co env)); cbn [set_state_cache set_data _state_cache];
    [|done].
  intros k Hk. apply lookup_insert_is_Some in Hk as [<-|[_ Hk]]; [done|].
  by apply Hl'.
Qed.

(** Behind the [ZeoProtocol] wrapper a device query that raises reaches the
    frequent and infrequent loops as an empty dict, which they record as the
    protocol's value, with a fresh timestamp. *)
Lemma wrapped_query_failure_is_recorded (_device : Device W) z t acc p env e w' :
  zeo_api host = ZeoProtocol.as_api _device →
  zeo _device = Some z →
  query_values z [p] (world env) = (Raise e, w') →
  query_into host [] t acc p env =
    (Ok (<[key p := VDict []]> acc),
     Build_Env (set_last_update_times
                  (<[key p := t]> (_last_update_times (co env))) (co env))
       w' (trace env ++ [EvQuery [p]])).
Proof.
  intros Hw Hz Hq. rewrite query_into_eq, Hw.
  cbn [query_values ZeoProtocol.as_api]. unfold ZeoProtocol.query_values.
  by rewrite Hz, Hq.
Qed.

(** Behind the [ZeoProtocol] wrapper a write never fails as far as the
    coordinator can tell. *)
Lemma wrapped_write_never_raises (_device : Device W) protocol p value env :
  zeo_api host = ZeoProtocol.as_api _device →
  getattr_protocol protocol = Some p →
  fst (async_send_command host protocol value env) = Ok tt.
Proof.
  intros Hw Hp.
  unfold async_send_command, try_except, mbind, M_bind, bind, call_set_value.
  rewrite Hp, Hw. cbn [set_value ZeoProtocol.as_api].
  destruct (zeo_set_value_returns _device p value (world env))
    as (r & w' & -> & _).
  by destruct (async_request_refresh_spec host
                 (Build_Env (co env) w' (trace env ++ [EvSet p value])))
    as (env' & -> & _).
Qed.

End KeysAndWrapper.

(* ===================================================================== *)
(** ** Runs on the demonstration worlds                                   *)
(* ===================================================================== *)

Module Runs.
Import Demo.

(** C1, on the code. The device's [query_values] raises;
    [ZeoProtocol.query_values] turns that into an empty dict, which the
    tick stores as the value of the key and stamps with the tick's time:
    the entry for state goes from 1, stamped 0, to the empty dict, stamped
    with the time of the failing tick. *)
Theorem failed_query_replaces_cached_value :
  let before := later (120 * second) in
  let after := snd (async_refresh failing before) in
  get_cached_value "state" (co before) = VInt 1 ∧
  _last_update_times (co before) !! "state" = Some 0 ∧
  fst (query_values failing_zeo [STATE] (world before))
    = Raise (RoborockException "timeout") ∧
  trace after =
    [EvQuery [STATE]; EvQuery [WASHING_LEFT]; EvQuery [COUNTDOWN]; EvNotify] ∧
  get_cached_value "state" (co after) = VDict [] ∧
  _last_update_times (co after) !! "state" = Some (world before).
Proof. by vm_compute. Qed.

(** C6, on the code. The device's [set_value] raises;
    [ZeoProtocol.set_value] returns the empty dict instead, so
    [async_send_command] and the entity's [async_set_value] return
    normally and go on to request a refresh. *)
Theorem failed_write_is_not_reported :
  fst (set_value failing_zeo START (VInt 1) (world loaded))
    = Raise (RoborockException "timeout") ∧
  fst (async_send_command failing "START" (VInt 1) loaded) = Ok tt ∧
  fst (async_set_value failing "START" (VInt 1) loaded) = Ok tt ∧
  (∃ rest,
     trace (snd (async_send_command failing "START" (VInt 1) loaded)) =
       trace loaded ++ EvSet START (VInt 1) :: EvRefreshRequest :: rest).
Proof. repeat split; try by vm_compute. eexists. by vm_compute. Qed.

(** Why the names handed to [async_query_protocol] matter.  It finds the
    member through [protocol_name.upper()] but stores under [protocol_name]
    as given: asked for STATE in capitals, which no caller in the
    repository does, it would add the key STATE to the cache, a key that is
    not lower-case and that [get_cached_value] reaches under no casing. *)
Lemma query_protocol_keeps_given_casing :
  let run := async_query_protocol answering "STATE" (new_env 0) in
  fst run = Ok (VInt 1) ∧
  _state_cache (co (snd run)) !! "STATE" = Some (VInt 1) ∧
  lower "STATE" ≠ "STATE" ∧
  get_cached_value "STATE" (co (snd run)) = VNone ∧
  get_cached_value "state" (co (snd run)) = VNone ∧
  get_cached_value "State" (co (snd run)) = VNone.
Proof. repeat split; by vm_compute. Qed.

(** C3 as stated fails for the time of the refresh: the timestamp is the
    time the tick started, not the time the key was queried.  The device
    takes ten seconds over each query of its first minute.  In the first
    tick, started at 0, COUNTDOWN is queried when the clock shows 20
    seconds, and is stamped 0.  The next tick starts when the first is
    over, at 68 seconds: 68 seconds after the stamp, so COUNTDOWN is due and
    is queried again, and that tick is over at 71 seconds, well before 20
    seconds plus the interval of 60. *)
Lemma stamp_is_tick_start_not_refresh_time :
  ¬ (∀ n acc env_n p r env1 r2 env2,
       initial_load_upto slow_start n (new_env 0) = (Ok acc, env_n) →
       all_protocols !! n = Some p →
       p ∈ frequent_protocols →
       _async_update_data slow_start (new_env 0) = (Ok r, env1) →
       _async_update_data slow_start env1 = (Ok r2, env2) →
       clock slow_start (world env2)
         < clock slow_start (world env_n) + UPDATE_INTERVAL_FREQUENT →
       EvQuery [p] ∉ drop (length (trace env1)) (trace env2)) ∧
  ∃ acc env_n acc3 env_3 r env1 r2 env2,
    initial_load_upto slow_start 2 (new_env 0) = (Ok acc, env_n) ∧
    clock slow_start (world env_n) = 20 * second ∧
    initial_load_upto slow_start 3 (new_env 0) = (Ok acc3, env_3) ∧
    trace env_3 = [EvQuery [STATE]; EvQuery [WASHING_LEFT]; EvQuery [COUNTDOWN]] ∧
    _async_update_data slow_start (new_env 0) = (Ok r, env1) ∧
    _last_update_times (co env1) !! "countdown" = Some 0 ∧
    clock slow_start (world env1) = 68 * second ∧
    _async_update_data slow_start env1 = (Ok r2, env2) ∧
    trace env2 = trace env1 ++
      [EvQuery [STATE]; EvQuery [WASHING_LEFT]; EvQuery [COUNTDOWN]] ∧
    clock slow_start (world env2) = 71 * second ∧
    71 * second < 20 * second + UPDATE_INTERVAL_FREQUENT.
Proof.
  assert (
    let upto2 := initial_load_upto slow_start 2 (new_env 0) in
    let upto3 := initial_load_upto slow_start 3 (new_env 0) in
    let first := _async_update_data slow_start (new_env 0) in
    let second_tick := _async_update_data slow_start (snd first) in
    (if fst upto2 is Ok _ then True else False) ∧
    clock slow_start (world (snd upto2)) = 20 * second ∧
    (if fst upto3 is Ok _ then True else False) ∧
    trace (snd upto3)
      = [EvQuery [STATE]; EvQuery [WASHING_LEFT]; EvQuery [COUNTDOWN]] ∧
    (if fst first is Ok _ then True else False) ∧
    _last_update_times (co (snd first)) !! "countdown" = Some 0 ∧
    clock slow_start (world (snd first)) = 68 * second ∧
    (if fst second_tick is Ok _ then True else False) ∧
    trace (snd second_tick) = trace (snd first) ++
      [EvQuery [STATE]; EvQuery [WASHING_LEFT]; EvQuery [COUNTDOWN]] ∧
    clock slow_start (world (snd second_tick)) = 71 * second ∧
    71 * second < 20 * second + UPDATE_INTERVAL_FREQUENT) as Hfacts
    by (vm_compute; repeat split).
  cbv zeta in Hfacts. revert Hfacts.
  destruct (initial_load_upto slow_start 2 (new_env 0)) as [[acc|?] env_n]
    eqn:Hn; [|by intros []].
  destruct (initial_load_upto slow_start 3 (new_env 0)) as [[acc3|?] env_3]
    eqn:H3; [|by intros (_ & _ & [] & _)].
  destruct (_async_update_data slow_start (new_env 0)) as [[r|?] env1]
    eqn:H1; [|by intros (_ & _ & _ & _ & [] & _)].
  cbn [fst snd].
  destruct (_async_update_data slow_start env1) as [[r2|?] env2]
    eqn:H2; [|by intros (_ & _ & _ & _ & _ & _ & _ & [] & _)].
  cbn [fst snd].
  intros (_ & Hclk & _ & Htr3 & _ & Hstamp & Hstart & _ & Htr & Hend & Hlt).
  split.
  - intros Hclaim.
    assert (COUNTDOWN ∈ frequent_protocols) as Hf
      by (unfold frequent_protocols; do 2 right; left).
    assert (clock slow_start (world env2)
            < clock slow_start (world env_n) + UPDATE_INTERVAL_FREQUENT)
      as Hlt' by (rewrite Hend, Hclk; exact Hlt).
    apply (Hclaim 2%nat acc env_n COUNTDOWN r env1 r2 env2 Hn eq_refl Hf
             eq_refl H2 Hlt').
    rewrite Htr, drop_app_length. do 2 right. left.
  - exists acc, env_n, acc3, env_3, r, env1, r2, env2.
    repeat split; first [assumption | reflexivity].
Qed.

(** C5 as stated fails: it is not so that after every round of the initial
    load the cache holds the values collected so far.  After the first round
    the value for state is in [all_results] but not in the cache, so the
    query for the next key is made with a cache that does not hold it; and
    the second key, queried when the clock shows one second, is stamped with
    the tick's starting time 0.  The value reaches the cache when the tick
    ends. *)
Lemma initial_load_merge_is_deferred :
  ¬ (∀ n acc env_n k v,
       initial_load_upto answering n (new_env 0) = (Ok acc, env_n) →
       acc !! k = Some v →
       get_cached_value k (co env_n) = v) ∧
  ∃ acc1 env1 acc2 env2,
    initial_load_upto answering 1 (new_env 0) = (Ok acc1, env1) ∧
    initial_load_upto answering 2 (new_env 0) = (Ok acc2, env2) ∧
    trace env1 = [EvQuery [STATE]] ∧
    acc1 !! "state" = Some (VInt 1) ∧
    get_cached_value "state" (co env1) = VNone ∧
    trace env2 = [EvQuery [STATE]; EvQuery [WASHING_LEFT]] ∧
    clock answering (world env1) = second ∧
    _last_update_times (co env2) !! "washing_left" = Some 0 ∧
    get_cached_value "state"
      (co (snd (_async_update_data answering (new_env 0)))) = VInt 1.
Proof.
  assert (∃ acc1 env1 acc2 env2,
    initial_load_upto answering 1 (new_env 0) = (Ok acc1, env1) ∧
    initial_load_upto answering 2 (new_env 0) = (Ok acc2, env2) ∧
    trace env1 = [EvQuery [STATE]] ∧
    acc1 !! "state" = Some (VInt 1) ∧
    get_cached_value "state" (co env1) = VNone ∧
    trace env2 = [EvQuery [STATE]; EvQuery [WASHING_LEFT]] ∧
    clock answering (world env1) = second ∧
    _last_update_times (co env2) !! "washing_left" = Some 0 ∧
    get_cached_value "state"
      (co (snd (_async_update_data answering (new_env 0)))) = VInt 1) as Hrun.
  { eexists _, _, _, _.
    split; [by vm_compute|]. split; [by vm_compute|]. by vm_compute. }
  split; [|exact Hrun].
  destruct Hrun as (acc1 & env1 & _ & _ & H1 & _ & _ & Hacc & Hcache & _).
  intros Hclaim. specialize (Hclaim 1%nat acc1 env1 "state" (VInt 1) H1 Hacc).
  rewrite Hcache in Hclaim. discriminate.
Qed.

Lemma initial_load_queries_each_key_once_witness :
  _initial_load_complete (co (new_env (W:=Z) 0)) = false ∧
  ∃ r env',
    _async_update_data answering (new_env 0) = (Ok r, env') ∧
    trace env' = map (fun p => EvQuery [p]) readable_protocols ∧
    _initial_load_complete (co env') = true.
Proof.
  split; [reflexivity|].
  destruct (initial_load_queries_each_key_once answering (new_env 0) eq_refl)
    as (r & env' & H1 & H2 & _ & _ & H5 & _).
  exists r, env'. split; [exact H1|]. split; [exact H2|exact H5].
Defined.

Lemma steady_tick_queries_exactly_due_keys_witness :
  _initial_load_complete (co (later (65 * second))) = true ∧
  ∃ r env' qs,
    _async_update_data answering (later (65 * second)) = (Ok r, env') ∧
    trace env' = map (fun p => EvQuery [p]) qs ∧
    (MODE ∉ qs) ∧
    _last_update_times (co env') !! key MODE
      = _last_update_times (co (later (65 * second))) !! key MODE.
Proof.
  split; [reflexivity|].
  destruct (steady_tick_queries_exactly_due_keys answering
              (later (65 * second)) eq_refl)
    as (r & env' & qs & H1 & H2 & _ & _ & _ & _ & H7 & _ & H9 & _).
  assert (MODE ∉ qs) as Hm
    by (apply H7; unfold manual_protocols; do 3 right; left).
  exists r, env', qs. split; [exact H1|]. split; [exact H2|].
  split; [exact Hm|]. exact (H9 MODE Hm).
Defined.

Lemma empty_tick_keeps_cache_and_returns_it_witness :
  fst (gather_results answering (clock answering (world (later (30 * second))))
         (later (30 * second))) = Ok ∅ ∧
  (∃ env',
     _async_update_data answering (later (30 * second))
       = (Ok DataIsCache, env') ∧
     _state_cache (co env') = _state_cache (co (later (30 * second)))) ∧
  try_except (raise (RuntimeError "unexpected")) tick_fallback
    (later (30 * second)) = (Ok DataIsCache, later (30 * second)).
Proof.
  assert (fst (gather_results answering
                 (clock answering (world (later (30 * second))))
                 (later (30 * second))) = Ok ∅) as Hg by (by vm_compute).
  destruct (empty_tick_keeps_cache_and_returns_it answering
              (later (30 * second))) as (_ & H2 & H3).
  split; [exact Hg|]. split.
  - destruct (H2 Hg) as (env' & Ht & Hca & _). exists env'.
    split; [exact Ht|exact Hca].
  - exact (proj1 (H3 (raise (RuntimeError "unexpected")) _ _ eq_refl)).
Defined.

Lemma initial_load_collects_then_stores_once_witness :
  _initial_load_complete (co (new_env (W:=Z) 0)) = false ∧
  ∃ acc env1,
    initial_load_upto answering 1 (new_env 0) = (Ok acc, env1) ∧
    _state_cache (co env1) = ∅.
Proof.
  split; [reflexivity|].
  destruct (initial_load_collects_then_stores_once answering (new_env 0)
              eq_refl) as (_ & H & _).
  destruct (H 1%nat) as (acc & env1 & H1 & _ & H2 & _).
  exists acc, env1. split; [exact H1|exact H2].
Defined.

(** A coordinator talking to a device that takes writes but times out on
    every query: the refresh after the write gets nothing, the command
    still returns. *)
Lemma refresh_after_write_is_best_effort_witness :
  getattr_protocol "START" = Some START ∧
  (∃ env',
     async_send_command (bare write_only_zeo) "START" (VBool true) (new_env 0)
       = (Ok tt, env')) ∧
  (∃ env',
     async_set_value (bare write_only_zeo) "START" (VBool true) (new_env 0)
       = (Ok tt, env')).
Proof.
  split; [reflexivity|].
  destruct (refresh_after_write_is_best_effort (bare write_only_zeo)
              (new_env 0) "START" START (VBool true) eq_refl) as (H1 & H2).
  split.
  - destruct (H1 _ _ eq_refl) as (env' & H & _). exists env'. exact H.
  - destruct (H2 (VInt 1) _ _ eq_refl eq_refl) as (env' & H & _).
    exists env'. exact H.
Defined.

Lemma integer_protocols_coerce_before_write_witness :
  ∃ o env' rest,
    async_set_value answering "SOUND_SET" (VBool true) (new_env 0)
      = (o, env') ∧
    trace env' = EvSet SOUND_SET (VInt 1) :: rest.
Proof.
  destruct (integer_protocols_coerce_before_write answering (new_env 0)
              "SOUND_SET" (list_elem_of_here _ _))
    as (p & Hp & _ & Hb & _).
  injection Hp as <-.
  destruct (Hb true) as (o & env' & rest & H1 & H2 & _).
  exists o, env', rest. split; [exact H1|exact H2].
Defined.

End Runs.

(* ===================================================================== *)
(** ** What the cache holds, over the coordinator's whole life            *)
(* ===================================================================== *)

Lemma coerce_boolean_true_result x v :
  coerce_boolean true x = Ok v → bool_or_none v.
Proof.
  unfold coerce_boolean, to_boolean, bool_or_none. cbn [andb].
  destruct x as [|b|z|s|l|d]; cbn [is_None negb];
    try (intros [= <-]; eauto; fail).
  destruct (py_int_of_str s); intros [= <-]. eauto.
Qed.

Section Growth.
Context {W : Type} (host : Host W).

(** A property of the loop's local variables that every round keeps is
    kept by the loop. *)
Lemma for_each_inv {A B} (I : B → Prop) (xs : list A) (body : B → A → M W B) :
  (∀ x acc env acc' env',
     x ∈ xs → body acc x env = (Ok acc', env') → I acc → I acc') →
  ∀ acc env acc' env',
    for_each xs acc body env = (Ok acc', env') → I acc → I acc'.
Proof.
  induction xs as [|x xs IH]; intros Hbody acc env acc' env' Hrun Hacc.
  - cbn in Hrun. by injection Hrun as <- <-.
  - cbn [for_each] in Hrun. unfold bind in Hrun.
    destruct (body acc x env) as [[acc1|e] env1] eqn:Hx; [|done].
    eapply IH; [|exact Hrun|].
    + intros y a e0 a' e0' Hy. apply Hbody. by right.
    + eapply Hbody; [by left|exact Hx|exact Hacc].
Qed.

(** Whatever a per-protocol block adds to [all_results] is what it kept of
    the api's answer to its own query. *)
Lemma query_into_answer bps ps t acc p env acc' env' :
  p ∈ ps →
  query_into host bps t acc p env = (Ok acc', env') →
  (∀ k v, acc !! k = Some v → answer_for host bps ps k v) →
  (∀ k v, acc' !! k = Some v → answer_for host bps ps k v).
Proof.
  intros Hp. rewrite query_into_eq.
  destruct (query_values (zeo_api host) [p] (world env)) as [o w'] eqn:Hq.
  destruct (collected bps p o) as [v0|] eqn:Hc; intros [= <- <-] Hacc k v;
    [|by apply Hacc].
  rewrite lookup_insert. case_decide as Hk; [|by apply Hacc].
  intros [= <-]. exists p, (world env). rewrite Hq. by subst k.
Qed.

(** Every value a tick collects is what was kept of an answer to the query
    for the protocol it is stored under: in the first tick any protocol of
    [all_protocols], with SOUND_SET coerced; later a frequent or infrequent
    protocol, none coerced. *)
Lemma gather_results_answers t env all_results env1 :
  gather_results host t env = (Ok all_results, env1) →
  ∀ k v, all_results !! k = Some v →
    if _initial_load_complete (co env)
    then answer_for host [] (frequent_protocols ++ infrequent_protocols) k v
    else answer_for host [SOUND_SET] all_protocols k v.
Proof.
  unfold gather_results, mbind, M_bind, bind, gets.
  destruct (_initial_load_complete (co env)); cbn [negb].
  - destruct (for_each frequent_protocols ∅ _ env) as [[acc1|e] e1] eqn:H1;
      [|done].
    intros H2.
    assert (∀ k v, acc1 !! k = Some v →
              answer_for host [] (frequent_protocols ++ infrequent_protocols) k v)
      as Hacc1.
    { eapply (for_each_inv (fun acc => ∀ k v, acc !! k = Some v →
                answer_for host [] (frequent_protocols ++ infrequent_protocols) k v));
        [|exact H1|by intros k v; rewrite lookup_empty].
      intros p acc e0 acc' e0' Hp. rewrite scheduled_protocol_eq.
      destruct (due _ _ _ _); [|by intros [= <- <-]].
      apply query_into_answer. apply elem_of_app. by left. }
    eapply (for_each_inv (fun acc => ∀ k v, acc !! k = Some v →
              answer_for host [] (frequent_protocols ++ infrequent_protocols) k v));
      [|exact H2|exact Hacc1].
    intros p acc e0 acc' e0' Hp. rewrite scheduled_protocol_eq.
    destruct (due _ _ _ _); [|by intros [= <- <-]].
    apply query_into_answer. apply elem_of_app. by right.
  - destruct ((if negb (_initial_load_started (co env))
               then modify (set_initial_load_started true)
               else mret tt) env) as [[[]|e] env0]; [|done].
    destruct (for_each all_protocols ∅ _ env0) as [[acc1|e] e1] eqn:H1;
      [|done].
    intros [= <- <-].
    eapply (for_each_inv (fun acc => ∀ k v, acc !! k = Some v →
              answer_for host [SOUND_SET] all_protocols k v));
      [|exact H1|by intros k v; rewrite lookup_empty].
    intros p acc e0 acc' e0' Hp. rewrite initial_load_protocol_eq.
    destruct (write_only p); [by intros [= <- <-]|].
    by apply query_into_answer.
Qed.

Lemma answer_for_sound_set bps ps v :
  (SOUND_SET ∈ ps → SOUND_SET ∈ bps) →
  answer_for host bps ps "sound_set" v → bool_or_none v.
Proof.
  intros Hin (p & w & Hp & Hk & Hc).
  assert (p = SOUND_SET) as -> by (by apply key_inj).
  unfold collected in Hc.
  destruct (fst (query_values (zeo_api host) [SOUND_SET] w)) as [r|e]; [|done].
  rewrite (bool_decide_eq_true_2 _ (Hin Hp)) in Hc.
  destruct (coerce_boolean true _) as [v0|e] eqn:Hv; [|done].
  injection Hc as <-. by eapply coerce_boolean_true_result.
Qed.

Lemma grows_refl (env : Env W) : grows env env.
Proof.
  exists ∅, ∅. rewrite !(left_id_L ∅ (∪)). repeat split.
  - intros [? H]. by rewrite lookup_empty in H.
  - intros [? H]. by rewrite lookup_empty in H.
  - intros v H. by rewrite lookup_empty in H.
Qed.

Lemma grows_trans (env1 env2 env3 : Env W) :
  grows env1 env2 → grows env2 env3 → grows env1 env3.
Proof.
  intros (a1 & s1 & Hc1 & Ht1 & Hd1 & Hs1) (a2 & s2 & Hc2 & Ht2 & Hd2 & Hs2).
  exists (a2 ∪ a1), (s2 ∪ s1).
  rewrite Hc2, Hc1, Ht2, Ht1, !(assoc_L (∪)). repeat split.
  - rewrite !lookup_union_is_Some, Hd1, Hd2. tauto.
  - rewrite !lookup_union_is_Some, Hd1, Hd2. tauto.
  - intros v Hv. apply lookup_union_Some_raw in Hv as [Hv|[_ Hv]]; eauto.
Qed.

(** Changes that leave the cache and the timestamps alone. *)
Lemma grows_same (env env' : Env W) :
  cache env' = cache env → times env' = times env → grows env env'.
Proof.
  intros Hc Ht. destruct (grows_refl env) as (a & s & Ha & Hs & H).
  exists a, s. by rewrite Hc, Ht.
Qed.

Lemma tick_grows env :
  grows env (snd (_async_update_data host env)).
Proof.
  destruct (tick_spec host env)
    as (ar & e1 & r & env' & Hg & -> & _ & _ & Hca & Htm & _).
  cbn [snd]. exists ar, ((fun _ => clock host (world env)) <$> ar).
  split; [done|]. split; [done|]. split.
  - intros k. by rewrite lookup_fmap, fmap_is_Some.
  - intros v Hv. pose proof (gather_results_answers _ _ _ _ Hg _ _ Hv) as Ha.
    destruct (_initial_load_complete (co env)).
    + eapply answer_for_sound_set; [|exact Ha].
      intros Hin. exfalso. revert Hin.
      apply (bool_decide_unpack _). by vm_compute.
    + eapply answer_for_sound_set; [|exact Ha]. intros _. by left.
Qed.

Lemma async_refresh_grows env : grows env (snd (async_refresh host env)).
Proof.
  destruct (async_refresh_spec host env) as (r & env1 & Ht & ->).
  pose proof (tick_grows env) as Hg. rewrite Ht in Hg. cbn [snd] in *.
  eapply grows_trans; [exact Hg|]. by apply grows_same.
Qed.

Lemma async_request_refresh_grows env :
  grows env (snd (async_request_refresh host env)).
Proof.
  unfold async_request_refresh, mbind, M_bind, bind, emit. cbn [world co trace].
  destruct (refresh_postponed host (world env)).
  - by apply grows_same.
  - set (env0 := Build_Env (co env) (world env) (trace env ++ [EvRefreshRequest])).
    eapply grows_trans; [|apply async_refresh_grows]. by apply grows_same.
Qed.

Lemma written_grows env p v w' :
  grows env
    (snd (async_request_refresh host
            (Build_Env (co env) w' (trace env ++ [EvSet p v])))).
Proof.
  eapply grows_trans; [|apply async_request_refresh_grows]. by apply grows_same.
Qed.

Lemma async_send_command_grows protocol value env :
  grows env (snd (async_send_command host protocol value env)).
Proof.
  unfold async_send_command, try_except, mbind, M_bind, bind, call_set_value,
    raise.
  destruct (getattr_protocol protocol) as [p|]; [|apply grows_refl].
  destruct (set_value (zeo_api host) p value (world env)) as [[r|e] w'];
    [|by apply grows_same].
  pose proof (written_grows env p value w') as Hg.
  by destruct (async_request_refresh host _) as [[[]|e] e'].
Qed.

Lemma async_set_value_grows _protocol value env :
  grows env (snd (async_set_value host _protocol value env)).
Proof.
  destruct (getattr_protocol _protocol) as [p|] eqn:Hp.
  - rewrite (async_set_value_eq host _ p) by done.
    destruct (entity_value _protocol value) as [v|e]; [|apply grows_refl].
    destruct (set_value (zeo_api host) p v (world env)) as [[r|e] w'];
      [|by apply grows_same].
    apply written_grows.
  - unfold async_set_value, try_except, raise. rewrite Hp. apply grows_refl.
Qed.

(** [async_query_protocol], outcome by outcome. *)
Lemma async_query_protocol_eq protocol_name env :
  async_query_protocol host protocol_name env =
    match getattr_protocol (upper protocol_name) with
    | None =>
        (Raise (ValueError (String.append "Unknown protocol: " protocol_name)),
         env)
    | Some p =>
        let '(o, w') := query_values (zeo_api host) [p] (world env) in
        let tr := trace env ++ [EvQuery [p]] in
        match o with
        | Raise e => (Raise e, Build_Env (co env) w' tr)
        | Ok result =>
            match coerce_boolean (bool_decide (protocol_name ∈ ["sound_set"]))
                    (unwrap_result p result) with
            | Raise e => (Raise e, Build_Env (co env) w' tr)
            | Ok v =>
                (Ok v,
                 Build_Env
                   (data_setitem protocol_name v
                      (set_last_update_times
                         (<[protocol_name := clock host w']>
                            (_last_update_times (co env)))
                         (set_state_cache
                            (<[protocol_name := v]> (_state_cache (co env)))
                            (co env))))
                   w' (tr ++ [EvNotify]))
            end
        end
    end.
Proof.
  unfold async_query_protocol, try_except, mbind, M_bind, bind,
    call_query_values, raise, lift, modify, emit, datetime_now, mret, M_ret,
    ret.
  destruct (getattr_protocol (upper protocol_name)) as [p|]; [|done].
  destruct (query_values (zeo_api host) [p] (world env)) as [[r|e] w'];
    [|done].
  by destruct (coerce_boolean _ _) as [v|e].
Qed.

Lemma data_setitem_same_key k v s :
  _state_cache s !! k = Some v →
  _state_cache (data_setitem k v s) = _state_cache s ∧
  _last_update_times (data_setitem k v s) = _last_update_times s.
Proof.
  intros Hk. unfold data_setitem. destruct (data s); [|done].
  cbn [set_state_cache _state_cache _last_update_times].
  by rewrite insert_id.
Qed.

Lemma async_query_protocol_grows protocol_name env :
  grows env (snd (async_query_protocol host protocol_name env)).
Proof.
  rewrite async_query_protocol_eq.
  destruct (getattr_protocol (upper protocol_name)) as [p|]; [|apply grows_refl].
  destruct (query_values (zeo_api host) [p] (world env)) as [[r|e] w'];
    [|by apply grows_same].
  destruct (coerce_boolean _ _) as [v|e] eqn:Hv; [|by apply grows_same].
  cbn [snd co].
  match goal with |- context [data_setitem ?k ?x ?s] =>
    destruct (data_setitem_same_key k x s) as [Hc Ht] end.
  { cbn [set_last_update_times set_state_cache _state_cache].
    apply lookup_insert_eq. }
  exists {[protocol_name := v]}, {[protocol_name := clock host w']}.
  cbn [co]. rewrite Hc, Ht.
  cbn [set_last_update_times set_state_cache _state_cache _last_update_times].
  rewrite !insert_union_singleton_l. repeat split.
  - intros [x Hx]. apply lookup_singleton_Some in Hx as [<- _].
    rewrite lookup_singleton_eq. by eexists.
  - intros [x Hx]. apply lookup_singleton_Some in Hx as [<- _].
    rewrite lookup_singleton_eq. by eexists.
  - intros v0 Hv0. apply lookup_singleton_Some in Hv0 as [-> <-].
    rewrite bool_decide_eq_true_2 in Hv by (by left).
    by eapply coerce_boolean_true_result.
Qed.

Lemma run_op_grows o env : grows env (run_op host o env).
Proof.
  destruct o; cbn [run_op].
  - apply async_refresh_grows.
  - apply async_send_command_grows.
  - apply async_query_protocol_grows.
  - apply async_set_value_grows.
  - by apply grows_same.
Qed.

Lemma run_ops_grows ops : ∀ env, grows env (run_ops host ops env).
Proof.
  induction ops as [|o ops IH]; intros env; [apply grows_refl|].
  cbn [run_ops fold_left]. eapply grows_trans; [apply run_op_grows|apply IH].
Qed.

(** X1. Nothing that happens to a coordinator removes an entry: a key that
    has a cached value, or a timestamp, still has one after any sequence of
    ticks, commands, on-demand queries, entity writes and changes of the
    world. *)
Theorem entries_are_never_deleted (ops : list (op (W:=W))) (env : Env W)
    (k : string) :
  (is_Some (_state_cache (co env) !! k) →
   is_Some (_state_cache (co (run_ops host ops env)) !! k)) ∧
  (is_Some (_last_update_times (co env) !! k) →
   is_Some (_last_update_times (co (run_ops host ops env)) !! k)).
Proof.
  destruct (run_ops_grows ops env) as (a & s & -> & -> & _).
  split; intros H; apply lookup_union_is_Some; by right.
Qed.

(** X2. Between operations the cache and the timestamps have the same
    keys: after any sequence of whole operations (ticks, commands, on-demand
    queries, entity writes, changes of the world) run one after the other
    on a new coordinator, a key has a cached value exactly when it has a
    timestamp.  This is a statement about the states between operations
    only: inside a tick a key is stamped when it is queried and cached when
    the tick ends. *)
Theorem cached_keys_are_stamped_keys (ops : list (op (W:=W))) (w : W)
    (k : string) :
  let env := run_ops host ops (new_env w) in
  is_Some (_state_cache (co env) !! k) ↔
  is_Some (_last_update_times (co env) !! k).
Proof.
  intros env. unfold env.
  destruct (run_ops_grows ops (new_env w)) as (a & s & -> & -> & Hd & _).
  cbn [new_env co new_coordinator _state_cache _last_update_times].
  by rewrite !(right_id_L ∅ (∪)).
Qed.

(** X3. In every state a coordinator can reach from its construction,
    what [get_cached_value] gives for sound_set is [None] or a boolean,
    whatever shapes the device answered with. *)
Theorem sound_set_is_cached_as_boolean (ops : list (op (W:=W))) (w : W) :
  let env := run_ops host ops (new_env w) in
  get_cached_value "sound_set" (co env) = VNone ∨
  ∃ b, get_cached_value "sound_set" (co env) = VBool b.
Proof.
  intros env. unfold env, get_cached_value.
  destruct (run_ops_grows ops (new_env w)) as (a & s & -> & _ & _ & Hs).
  cbn [new_env co new_coordinator _state_cache].
  rewrite (right_id_L ∅ (∪)).
  change (lower "sound_set") with "sound_set".
  destruct (a !! "sound_set") as [v|] eqn:Hv; [|by left].
  destruct (Hs v eq_refl) as [->|[b ->]]; [by left|right; by exists b].
Qed.

End Growth.

(* ===================================================================== *)
(** ** What one tick writes, key by key                                   *)
(* ===================================================================== *)

Lemma tick_queries_steady (s : Coordinator) t p :
  _initial_load_complete s = true →
  p ∈ tick_queries s t ↔
    (p ∈ frequent_protocols ∧
     is_due (_last_update_times s !! key p) t UPDATE_INTERVAL_FREQUENT = true) ∨
    (p ∈ infrequent_protocols ∧
     is_due (_last_update_times s !! key p) t UPDATE_INTERVAL_INFREQUENT = true).
Proof.
  intros Hc. unfold tick_queries. rewrite Hc.
  by rewrite elem_of_app, !elem_of_List_filter.
Qed.

Lemma tick_queries_initial (s : Coordinator) t p :
  _initial_load_complete s = false →
  p ∈ tick_queries s t ↔ p ∈ all_protocols ∧ write_only p = false.
Proof.
  intros Hc. unfold tick_queries. rewrite Hc.
  by rewrite elem_of_List_filter, negb_true_iff.
Qed.

Section TickWrites.
Context {W : Type} (host : Host W).

(** The value the initial-load loop ends with under a protocol's key, when
    every answer to that protocol's query is kept with a value in [P]. *)
Lemma initial_load_loop_value (P : PyVal → Prop) t p ps :
  write_only p = false →
  (∀ w, ∃ v, collected [SOUND_SET] p
               (fst (query_values (zeo_api host) [p] w)) = Some v ∧ P v) →
  ∀ acc env acc' env',
    for_each ps acc (initial_load_protocol host t) env = (Ok acc', env') →
    (∃ v, acc !! key p = Some v ∧ P v) ∨ p ∈ ps →
    ∃ v, acc' !! key p = Some v ∧ P v.
Proof.
  intros Hwo Hans. induction ps as [|q ps IH]; intros acc env acc' env' Hrun Hin.
  - cbn in Hrun. injection Hrun as <- <-.
    destruct Hin as [Hin|Hin]; [done|by apply elem_of_nil in Hin].
  - cbn [for_each] in Hrun. unfold bind in Hrun.
    rewrite initial_load_protocol_eq in Hrun.
    destruct (write_only q) eqn:Hq.
    + eapply IH; [exact Hrun|]. destruct Hin as [Hin|Hin]; [by left|right].
      apply elem_of_cons in Hin as [->|Hin]; [congruence|done].
    + rewrite query_into_eq in Hrun.
      destruct (query_values (zeo_api host) [q] (world env)) as [o w'] eqn:Ho.
      destruct (decide (q = p)) as [->|Hne].
      * destruct (Hans (world env)) as (v & Hv & HP). rewrite Ho in Hv.
        cbn [fst] in Hv. rewrite Hv in Hrun.
        eapply IH; [exact Hrun|]. left. exists v. by rewrite lookup_insert_eq.
      * assert (key q ≠ key p) as Hk by (intros H; by apply key_inj in H).
        destruct (collected [SOUND_SET] q o) as [v0|];
          (eapply IH; [exact Hrun|]);
          (destruct Hin as [(v & Hv & HP)|Hin];
           [left; exists v; by rewrite ?lookup_insert_ne
           |right; apply elem_of_cons in Hin as [->|Hin]; [done|done]]).
Qed.

(** The same for the frequent and the infrequent loop, for a protocol that
    is due when the loop starts. *)
Lemma scheduled_loop_value (P : PyVal → Prop) interval t p ps :
  (∀ w, ∃ v, collected [] p
               (fst (query_values (zeo_api host) [p] w)) = Some v ∧ P v) →
  ∀ acc env acc' env',
    for_each ps acc (scheduled_protocol host interval t) env = (Ok acc', env') →
    (∃ v, acc !! key p = Some v ∧ P v) ∨
    (p ∈ ps ∧ due (times env) t interval p = true) →
    ∃ v, acc' !! key p = Some v ∧ P v.
Proof.
  intros Hans. induction ps as [|q ps IH]; intros acc env acc' env' Hrun Hin.
  - cbn in Hrun. injection Hrun as <- <-.
    destruct Hin as [Hin|[Hin _]]; [done|by apply elem_of_nil in Hin].
  - cbn [for_each] in Hrun. unfold bind in Hrun.
    rewrite scheduled_protocol_eq in Hrun.
    destruct (decide (q = p)) as [->|Hne].
    + destruct (due (times env) t interval p) eqn:Hd.
      * rewrite query_into_eq in Hrun.
        destruct (query_values (zeo_api host) [p] (world env)) as [o w'] eqn:Ho.
        destruct (Hans (world env)) as (v & Hv & HP). rewrite Ho in Hv.
        cbn [fst] in Hv. rewrite Hv in Hrun.
        eapply IH; [exact Hrun|]. left. exists v. by rewrite lookup_insert_eq.
      * eapply IH; [exact Hrun|]. destruct Hin as [Hin|[_ Hin]]; [by left|done].
    + assert (key q ≠ key p) as Hk by (intros H; by apply key_inj in H).
      destruct (due (times env) t interval q).
      * rewrite query_into_eq in Hrun.
        destruct (query_values (zeo_api host) [q] (world env)) as [o w'].
        destruct (collected [] q o) as [v0|];
          (eapply IH; [exact Hrun|]);
          (destruct Hin as [(v & Hv & HP)|[Hin Hd]];
           [left; exists v; by rewrite ?lookup_insert_ne|right]);
          (split; [by apply elem_of_cons in Hin as [->|Hin]|]);
          unfold due in *; cbn [co set_last_update_times _last_update_times];
          by rewrite ?lookup_insert_ne.
      * eapply IH; [exact Hrun|].
        destruct Hin as [Hin|[Hin Hd]]; [by left|right].
        split; [by apply elem_of_cons in Hin as [->|Hin]|done].
Qed.

(** What a tick collects under the key of a protocol it queries, when every
    answer to that protocol's query is kept with a value in [P]. *)
Lemma gather_results_value (P : PyVal → Prop) t env p all_results env1 :
  gather_results host t env = (Ok all_results, env1) →
  p ∈ tick_queries (co env) t →
  (∀ w, ∃ v,
     collected (if _initial_load_complete (co env) then [] else [SOUND_SET]) p
       (fst (query_values (zeo_api host) [p] w)) = Some v ∧ P v) →
  ∃ v, all_results !! key p = Some v ∧ P v.
Proof.
  unfold gather_results, mbind, M_bind, bind, gets.
  destruct (_initial_load_complete (co env)) eqn:Hc; cbn [negb].
  - intros Hrun Hp Hans. apply tick_queries_steady in Hp; [|done].
    destruct (for_each frequent_protocols ∅ _ env) as [[acc1|e] e1] eqn:H1;
      [|done].
    destruct Hp as [[Hp Hd]|[Hp Hd]].
    + eapply (scheduled_loop_value P); [exact Hans|exact Hrun|]. left.
      eapply (scheduled_loop_value P); [exact Hans|exact H1|]. by right.
    + eapply (scheduled_loop_value P); [exact Hans|exact Hrun|]. right.
      split; [done|]. unfold due.
      pose proof scheduled_keys_NoDup as Hnd. rewrite map_app in Hnd.
      apply NoDup_app in Hnd as (Hnd1 & Hdisj & _).
      destruct (scheduled_loop host UPDATE_INTERVAL_FREQUENT t
                  frequent_protocols ∅ env Hnd1)
        as (a & e & Heq & _ & _ & new & _ & Htm & Hdom).
      rewrite H1 in Heq. injection Heq as <- <-.
      rewrite Htm, lookup_union_r; [done|]. rewrite lookup_fmap.
      destruct (new !! key p) as [x|] eqn:Hx; [|done].
      exfalso. destruct (Hdom (key p)) as (q & Hq & Hkey); [by eexists|].
      apply elem_of_List_filter in Hq as [Hq _].
      apply (Hdisj (key q)).
      * apply list_elem_of_fmap. by exists q.
      * rewrite <- Hkey. apply list_elem_of_fmap. by exists p.
  - intros Hrun Hp Hans. apply tick_queries_initial in Hp as [Hp Hwo]; [|done].
    destruct ((if negb (_initial_load_started (co env))
               then modify (set_initial_load_started true)
               else mret tt) env) as [[[]|e] env0]; [|done].
    destruct (for_each all_protocols ∅ _ env0) as [[acc1|e] e1] eqn:H1;
      [|done].
    injection Hrun as <- <-.
    eapply (initial_load_loop_value P); [exact Hwo|exact Hans|exact H1|].
    by right.
Qed.

(** X4. What a tick returns, which the framework makes the coordinator's
    new data, never disagrees with the cache: each entry of the returned
    dict is in the cache with the same value once the tick is over, and the
    returned dict is empty only when the cache is. *)
Theorem tick_result_is_part_of_cache (env : Env W) :
  ∃ r env',
    _async_update_data host env = (Ok r, env') ∧
    (∀ k v, result_dict r (co env') !! k = Some v →
            _state_cache (co env') !! k = Some v) ∧
    (result_dict r (co env') = ∅ → _state_cache (co env') = ∅).
Proof.
  destruct (tick_spec host env)
    as (ar & e1 & r & env' & _ & Ht & Hr & _ & Hca & _).
  exists r, env'. split; [done|].
  destruct (dict_bool ar) eqn:Hb; subst r; cbn [result_dict].
  - split.
    + intros k v Hk. rewrite Hca. by apply lookup_union_Some_l.
    + intros ->. by vm_compute in Hb.
  - by split.
Qed.

(** X5. A tick writes under the keys of the protocols it queries and under
    no other: the cached value and the timestamp of every other key are
    after the tick what they were before.  So a tick made after the initial
    load leaves the entry of every manual protocol alone. *)
Theorem tick_leaves_other_keys_alone (env : Env W) (k : string) :
  let t := clock host (world env) in
  let env' := snd (_async_update_data host env) in
  ((∀ p, p ∈ tick_queries (co env) t → k ≠ key p) →
   _state_cache (co env') !! k = _state_cache (co env) !! k ∧
   _last_update_times (co env') !! k = _last_update_times (co env) !! k) ∧
  (_initial_load_complete (co env) = true →
   ∀ p, p ∈ manual_protocols →
     _state_cache (co env') !! key p = _state_cache (co env) !! key p ∧
     _last_update_times (co env') !! key p =
       _last_update_times (co env) !! key p).
Proof.
  intros t env'. unfold env'.
  destruct (tick_spec host env)
    as (ar & e1 & r & e' & _ & -> & _ & _ & Hca & Htm & _ & _ & _ & Hdom).
  cbn [snd]. fold t in Htm, Hdom.
  assert (∀ k0, (∀ p, p ∈ tick_queries (co env) t → k0 ≠ key p) →
    _state_cache (co e') !! k0 = _state_cache (co env) !! k0 ∧
    _last_update_times (co e') !! k0 = _last_update_times (co env) !! k0)
    as Hframe.
  { intros k0 Hk. assert (ar !! k0 = None) as Hnone.
    { destruct (ar !! k0) as [x|] eqn:Hx; [|done].
      destruct (Hdom k0) as (p & Hp & ->); [by eexists|]. by destruct (Hk p Hp). }
    rewrite Hca, Htm. split; apply lookup_union_r; [done|].
    by rewrite lookup_fmap, Hnone. }
  split; [apply Hframe|].
  intros Hc p Hp. apply Hframe. intros q Hq Hk. apply key_inj in Hk as ->.
  apply (manual_not_scheduled q Hp).
  apply tick_queries_steady in Hq; [|done].
  apply elem_of_app. destruct Hq as [[Hq _]|[Hq _]]; [by left|by right].
Qed.

(** X6. A tick stores what it was answered.  If the api's answer to the
    single-key query for a protocol is kept as [v] in whatever state the
    device is, then after a tick that queries the protocol the cache holds
    [v] under the protocol's lower-case name, stamped with the time the tick
    started. *)
Theorem tick_stores_the_answer (env : Env W) (p : RoborockZeoProtocol)
    (v : PyVal) :
  let t := clock host (world env) in
  let env' := snd (_async_update_data host env) in
  p ∈ tick_queries (co env) t →
  (∀ w,
     collected (if _initial_load_complete (co env) then [] else [SOUND_SET]) p
       (fst (query_values (zeo_api host) [p] w)) = Some v) →
  get_cached_value (name p) (co env') = v ∧
  _state_cache (co env') !! key p = Some v ∧
  _last_update_times (co env') !! key p = Some t.
Proof.
  intros t env' Hp Hans. unfold env'.
  destruct (tick_spec host env)
    as (ar & e1 & r & e' & Hg & -> & _ & _ & Hca & Htm & _).
  cbn [snd]. fold t in Hg, Htm.
  destruct (gather_results_value (fun x => x = v) t env p ar e1 Hg Hp)
    as (x & Hx & ->).
  { intros w. exists v. by rewrite Hans. }
  assert (_state_cache (co e') !! key p = Some v) as Hc.
  { rewrite Hca. by apply lookup_union_Some_l. }
  unfold get_cached_value. rewrite Hc. repeat split.
  rewrite Htm. apply lookup_union_Some_l. by rewrite lookup_fmap, Hx.
Qed.

End TickWrites.

(* ===================================================================== *)
(** ** Names, the on-demand query and the scheduler                       *)
(* ===================================================================== *)

Lemma getattr_protocol_name p : getattr_protocol (name p) = Some p.
Proof. by destruct p. Qed.

Lemma getattr_protocol_key p : getattr_protocol (key p) = None.
Proof. by destruct p. Qed.

Lemma upper_key p : upper (key p) = name p.
Proof. by destruct p. Qed.

Lemma key_is_lowercase p : lower (key p) = key p.
Proof. apply lower_idemp. Qed.

Section OnDemand.
Context {W : Type} (host : Host W).

(** A successful on-demand query on a lower-case name, field by field. *)
Lemma async_query_protocol_success (env : Env W)
    (p : RoborockZeoProtocol) (result v : PyVal) (w' : W) :
  query_values (zeo_api host) [p] (world env) = (Ok result, w') →
  coerce_boolean (bool_decide (key p ∈ ["sound_set"])) (unwrap_result p result)
    = Ok v →
  ∃ env',
    async_query_protocol host (key p) env = (Ok v, env') ∧
    trace env' = trace env ++ [EvQuery [p]; EvNotify] ∧
    world env' = w' ∧
    _state_cache (co env') = <[key p := v]> (_state_cache (co env)) ∧
    _last_update_times (co env') =
      <[key p := clock host w']> (_last_update_times (co env)) ∧
    get_cached_value (name p) (co env') = v ∧
    get_cached_value (key p) (co env') = v ∧
    _initial_load_complete (co env') = _initial_load_complete (co env).
Proof.
  intros Hq Hv. rewrite async_query_protocol_eq, upper_key, getattr_protocol_name.
  rewrite Hq, Hv. eexists. split; [done|].
  cbn [trace world co].
  match goal with |- context [data_setitem ?k ?x ?s] =>
    destruct (data_setitem_same_key k x s) as [Hc Ht];
      [cbn [set_last_update_times set_state_cache _state_cache];
       apply lookup_insert_eq|];
    pose proof (data_setitem_flag k x s) as Hf end.
  unfold get_cached_value. rewrite key_is_lowercase, Hc, Ht, Hf.
  cbn [set_last_update_times set_state_cache _state_cache _last_update_times
       _initial_load_complete].
  rewrite lookup_insert_eq. split; [by rewrite <- app_assoc|]. by repeat split.
Qed.

(** X7. The command path looks a protocol up by its exact name, the
    on-demand query by the name in capitals.  Given the lower-case name of
    any protocol (the form under which values are cached),
    [async_send_command] and the entity's [async_set_value] raise
    [ValueError] without any call and without touching the coordinator,
    while [async_query_protocol] goes ahead and queries that protocol. *)
Theorem command_names_are_case_sensitive (env : Env W)
    (p : RoborockZeoProtocol) (value : PyVal) :
  (∃ msg, async_send_command host (key p) value env
            = (Raise (ValueError msg), env)) ∧
  (∃ msg, async_set_value host (key p) value env
            = (Raise (ValueError msg), env)) ∧
  (∃ o env' rest,
     async_query_protocol host (key p) env = (o, env') ∧
     trace env' = trace env ++ EvQuery [p] :: rest) ∧
  (∃ o env' rest,
     async_send_command host (name p) value env = (o, env') ∧
     trace env' = trace env ++ EvSet p value :: rest).
Proof.
  split; [|split; [|split]].
  - unfold async_send_command, try_except, raise.
    rewrite getattr_protocol_key. by eexists.
  - unfold async_set_value, try_except, raise.
    rewrite getattr_protocol_key. by eexists.
  - rewrite async_query_protocol_eq, upper_key, getattr_protocol_name.
    destruct (query_values (zeo_api host) [p] (world env)) as [[r|e] w'].
    + destruct (coerce_boolean _ _) as [v|e];
        eexists _, _, _; (split; [done|]); cbn [trace];
        by rewrite <- ?app_assoc.
    + eexists _, _, _. by split.
  - unfold async_send_command, try_except, mbind, M_bind, bind, call_set_value.
    rewrite getattr_protocol_name.
    destruct (set_value (zeo_api host) p value (world env)) as [[r|e] w'].
    + destruct (async_request_refresh_spec host
                  (Build_Env (co env) w' (trace env ++ [EvSet p value])))
        as (env' & -> & Htr & _).
      eexists _, _, _. split; [done|]. rewrite Htr. cbn [trace].
      by rewrite <- app_assoc.
    + eexists _, _, []. by split.
Qed.

(** X8. Read after an on-demand query.  Whatever the timestamps say,
    [async_query_protocol] on a lower-case protocol name makes exactly one
    single-key query; when the api answers and the answer is kept as [v],
    it returns [v], has stored [v] and the time then read under that name,
    has called the listeners once, and [get_cached_value] gives [v] for the
    name in any casing of its letters that lower-cases to it. *)
Theorem query_protocol_read_after_query (env : Env W)
    (p : RoborockZeoProtocol) (result v : PyVal) (w' : W) :
  query_values (zeo_api host) [p] (world env) = (Ok result, w') →
  coerce_boolean (bool_decide (key p ∈ ["sound_set"])) (unwrap_result p result)
    = Ok v →
  ∃ env',
    async_query_protocol host (key p) env = (Ok v, env') ∧
    trace env' = trace env ++ [EvQuery [p]; EvNotify] ∧
    world env' = w' ∧
    _state_cache (co env') = <[key p := v]> (_state_cache (co env)) ∧
    _last_update_times (co env') =
      <[key p := clock host w']> (_last_update_times (co env)) ∧
    get_cached_value (name p) (co env') = v ∧
    get_cached_value (key p) (co env') = v ∧
    _initial_load_complete (co env') = _initial_load_complete (co env).
Proof. apply async_query_protocol_success. Qed.

(** X9. A failed on-demand query changes nothing.  When the api raises, or
    the answer for sound_set is a string [int] rejects, the call raises the
    same exception, the coordinator's fields and every cached value and
    timestamp are what they were, and no listener is called; the query
    itself is the only call made. *)
Theorem query_protocol_failure_changes_nothing (env : Env W)
    (protocol_name : string) (p : RoborockZeoProtocol) :
  getattr_protocol (upper protocol_name) = Some p →
  ∀ o w',
    query_values (zeo_api host) [p] (world env) = (o, w') →
    ∀ e,
      (o = Raise e ∨
       ∃ result, o = Ok result ∧
         coerce_boolean (bool_decide (protocol_name ∈ ["sound_set"]))
           (unwrap_result p result) = Raise e) →
      async_query_protocol host protocol_name env =
        (Raise e, Build_Env (co env) w' (trace env ++ [EvQuery [p]])).
Proof.
  intros Hp o w' Hq e He. rewrite async_query_protocol_eq, Hp, Hq.
  destruct He as [->|(result & -> & ->)]; done.
Qed.

(** X10. An on-demand query puts off the scheduled one.  After a successful
    [async_query_protocol] on the lower-case name of a frequent or
    infrequent protocol, made once the initial load is over, no tick that
    starts before the stored time plus the protocol's interval queries that
    protocol, whatever else the tick queries. *)
Theorem on_demand_query_postpones_scheduled_one (env env1 : Env W)
    (p : RoborockZeoProtocol) (v : PyVal) :
  _initial_load_complete (co env) = true →
  async_query_protocol host (key p) env = (Ok v, env1) →
  let t0 := clock host (world env1) in
  _last_update_times (co env1) !! key p = Some t0 ∧
  ∀ env2 : Env W,
    co env2 = co env1 →
    let now := clock host (world env2) in
    (p ∈ frequent_protocols ∧ now < t0 + UPDATE_INTERVAL_FREQUENT) ∨
    (p ∈ infrequent_protocols ∧ now < t0 + UPDATE_INTERVAL_INFREQUENT) →
    ∃ r env' qs,
      _async_update_data host env2 = (Ok r, env') ∧
      trace env' = trace env2 ++ map (fun q => EvQuery [q]) qs ∧
      p ∉ qs.
Proof.
  intros Hc Hrun t0.
  assert (_last_update_times (co env1) !! key p = Some t0 ∧
          _initial_load_complete (co env1) = true) as [Ht0 Hflag].
  { pose proof Hrun as Hrun'.
    rewrite async_query_protocol_eq, upper_key, getattr_protocol_name in Hrun'.
    destruct (query_values (zeo_api host) [p] (world env)) as [[r|e] w'] eqn:Hq;
      [|done].
    destruct (coerce_boolean _ _) as [v0|e] eqn:Hv; [|done].
    destruct (async_query_protocol_success env p r v0 w' Hq Hv)
      as (e1 & He1 & _ & Hw & _ & Htm & _ & _ & Hf).
    rewrite Hrun in He1. injection He1 as <- <-.
    unfold t0. rewrite Htm, Hw, Hf. split; [apply lookup_insert_eq|done]. }
  split; [exact Ht0|].
  intros env2 Hco now Hsoon.
  destruct (tick_spec host env2)
    as (ar & e2 & r2 & env' & _ & Ht & _ & Htr & _).
  exists r2, env', (tick_queries (co env2) now).
  split; [done|]. split; [done|].
  intros Hin. apply tick_queries_steady in Hin; [|by rewrite Hco].
  rewrite Hco, Ht0 in Hin. cbn [is_due] in Hin.
  rewrite !Z.leb_le in Hin.
  destruct Hsoon as [[Hp Hlt]|[Hp Hlt]], Hin as [[Hq' Hle]|[Hq' Hle]];
    try lia; by apply (frequent_not_infrequent p).
Qed.

End OnDemand.

(* ===================================================================== *)
(** ** Behind the [ZeoProtocol] wrapper                                   *)
(* ===================================================================== *)

Lemma sensor_keys :
  SENSOR_DESCRIPTIONS =
  map (fun p => key p)
    [STATE; COUNTDOWN; WASHING_LEFT; ERROR; TIMES_AFTER_CLEAN; DETERGENT_EMPTY;
     DRYING_MODE; SOUND_SET; TEMP; SPIN_LEVEL; DETERGENT_TYPE; RINSE_TIMES;
     MODE; PROGRAM].
Proof. reflexivity. Qed.

(** Every sensor is built on the lower-case name of a protocol the initial
    load queries. *)
Lemma sensor_key_protocol k :
  k ∈ SENSOR_DESCRIPTIONS →
  ∃ p, k = key p ∧ p ∈ all_protocols ∧ write_only p = false.
Proof.
  rewrite sensor_keys. intros (p & -> & Hp)%list_elem_of_fmap.
  exists p. split; [done|]. revert p Hp. apply Forall_forall.
  apply (bool_decide_unpack _). by vm_compute.
Qed.

Lemma native_value_of_empty_dict k (s : Coordinator) :
  get_cached_value k s = VDict [] → native_value k s = VNone.
Proof.
  unfold native_value, get_state, get_cached_value.
  rewrite lower_idemp. by intros ->.
Qed.

Section BehindTheWrapper.
Context {W : Type} (host : Host W) (_device : Device W).
Hypothesis wired : zeo_api host = ZeoProtocol.as_api _device.

(** Behind the wrapper every query is answered, and what is kept of the
    answer for a protocol that is not coerced is the unwrapped answer. *)
Lemma wired_collected bps p w :
  p ∉ bps →
  ∃ v, collected bps p (fst (query_values (zeo_api host) [p] w)) = Some v.
Proof.
  intros Hp. rewrite wired. cbn [query_values ZeoProtocol.as_api].
  destruct (zeo_query_values_returns _device [p] w) as (r & w' & -> & _).
  cbn [fst collected]. rewrite bool_decide_eq_false_2 by done.
  by eexists.
Qed.

Lemma wired_failure_collected bps p w :
  device_fails _device → p ∉ bps →
  collected bps p (fst (query_values (zeo_api host) [p] w)) = Some (VDict []).
Proof.
  intros Hf Hp. rewrite wired. cbn [query_values ZeoProtocol.as_api].
  unfold ZeoProtocol.query_values.
  destruct Hf as [->|(z & -> & Hz)].
  - cbn [fst collected]. by rewrite bool_decide_eq_false_2.
  - destruct (Hz [p] w) as [e He].
    destruct (query_values z [p] w) as [[r|e'] w']; [done|].
    cbn [fst collected]. by rewrite bool_decide_eq_false_2.
Qed.

(** X11. Behind the wrapper the first tick gives every sensor but the one
    for sound_set something to show: whatever the device does, after the
    tick the cache has an entry under each such sensor's key. *)
Theorem wired_first_tick_fills_the_sensors (env : Env W) (k : string) :
  _initial_load_complete (co env) = false →
  k ∈ SENSOR_DESCRIPTIONS →
  k ≠ "sound_set" →
  is_Some (_state_cache (co (snd (_async_update_data host env))) !! k).
Proof.
  intros Hc Hk Hne.
  destruct (sensor_key_protocol k Hk) as (p & -> & Hp & Hwo).
  destruct (tick_spec host env)
    as (ar & e1 & r & e' & Hg & -> & _ & _ & Hca & _).
  cbn [snd]. rewrite Hca. apply lookup_union_is_Some. left.
  destruct (gather_results_value host (fun _ => True) _ env p ar e1 Hg)
    as (v & Hv & _); [|..|by eexists].
  - by apply tick_queries_initial.
  - intros w. rewrite Hc.
    destruct (wired_collected [SOUND_SET] p w) as [v Hv]; [|by exists v].
    intros ->%list_elem_of_singleton. by apply Hne.
Qed.

(** X12. Behind the wrapper a failed refresh wipes what the sensor showed.
    When the device has no [zeo] or its queries raise, every protocol a tick
    queries, SOUND_SET apart, has the empty dict as its cached value after
    the tick, whatever it had before, and the sensor on its key reports
    [None]. *)
Theorem failed_refresh_shows_unknown (env : Env W) (p : RoborockZeoProtocol) :
  device_fails _device →
  p ∈ tick_queries (co env) (clock host (world env)) →
  p ≠ SOUND_SET →
  let env' := snd (_async_update_data host env) in
  get_cached_value (key p) (co env') = VDict [] ∧
  native_value (key p) (co env') = VNone.
Proof.
  intros Hf Hp Hne env'. unfold env'.
  destruct (tick_spec host env)
    as (ar & e1 & r & e' & Hg & -> & _ & _ & Hca & _).
  cbn [snd].
  destruct (gather_results_value host (fun x => x = VDict []) _ env p ar e1 Hg Hp)
    as (v & Hv & ->).
  { intros w. exists (VDict []). split; [|done].
    apply wired_failure_collected; [done|].
    destruct (_initial_load_complete (co env)); [apply not_elem_of_nil|].
    by intros ->%list_elem_of_singleton. }
  assert (get_cached_value (key p) (co e') = VDict []) as Hget.
  { unfold get_cached_value. rewrite key_is_lowercase, Hca.
    by rewrite (lookup_union_Some_l _ _ _ _ Hv). }
  split; [done|]. by apply native_value_of_empty_dict.
Qed.

(** X13. Behind the wrapper a failed initial load leaves the selects
    unable to report.  When the device has no [zeo] or its queries raise,
    after the first tick [current_option] of each of the seven selects
    raises [TypeError], the cached value being a dict, which cannot be
    looked up in the options map; the sound switch reads off. *)
Theorem failed_initial_load_breaks_the_selects (env : Env W)
    (description : SelectDescription) :
  device_fails _device →
  _initial_load_complete (co env) = false →
  description ∈ SELECT_TYPES →
  let env' := snd (_async_update_data host env) in
  current_option description (co env') = inl EnhancedOptionsMap.TypeError ∧
  (∀ d, d ∈ SWITCH_TYPES →
        get_cached_value "sound_set" (co env') = VBool false ∧
        is_on d (co env') = false).
Proof.
  intros Hf Hc Hd env'. unfold env'.
  destruct (tick_spec host env)
    as (ar & e1 & r & e' & Hg & -> & _ & _ & Hca & _).
  cbn [snd].
  assert (∀ p v, p ∈ all_protocols → write_only p = false →
            (∀ w, collected [SOUND_SET] p
                    (fst (query_values (zeo_api host) [p] w)) = Some v) →
            get_cached_value (key p) (co e') = v) as Hval.
  { intros p v Hp Hwo Hans.
    destruct (gather_results_value host (fun x => x = v) _ env p ar e1 Hg)
      as (x & Hx & ->).
    - by apply tick_queries_initial.
    - intros w. exists v. by rewrite Hc, Hans.
    - unfold get_cached_value. rewrite key_is_lowercase, Hca.
      by rewrite (lookup_union_Some_l _ _ _ _ Hx). }
  assert (∀ p, p ∈ all_protocols → write_only p = false → p ≠ SOUND_SET →
            get_cached_value (key p) (co e') = VDict []) as Hdict.
  { intros p Hp Hwo Hne. apply Hval; [done|done|]. intros w.
    apply wired_failure_collected; [done|].
    by intros ->%list_elem_of_singleton. }
  split.
  - unfold SELECT_TYPES in Hd.
    repeat (apply elem_of_cons in Hd as [->|Hd];
            [unfold current_option, get_state, select_protocol;
             cbn [select_key select_data_protocol options_map];
             match goal with |- context [get_cached_value (lower ?n) _] =>
               let p := eval vm_compute in (getattr_protocol n) in
               match p with Some ?q =>
                 change (lower n) with (key q);
                 rewrite (Hdict q) by
                   (first [ apply (bool_decide_unpack _); by vm_compute
                          | done ])
               end
             end; reflexivity|]).
    by apply elem_of_nil in Hd.
  - intros d Hd'. apply list_elem_of_singleton in Hd' as ->.
    assert (get_cached_value "sound_set" (co e') = VBool false) as Hs.
    { change "sound_set" with (key SOUND_SET). apply Hval.
      - apply (bool_decide_unpack _). by vm_compute.
      - done.
      - intros w. rewrite wired. cbn [query_values ZeoProtocol.as_api].
        unfold ZeoProtocol.query_values.
        destruct Hf as [->|(z & -> & Hz)]; [done|].
        destruct (Hz [SOUND_SET] w) as [e He].
        by destruct (query_values z [SOUND_SET] w) as [[r0|e0] w0]. }
    split; [done|]. unfold is_on, get_state.
    cbn [switch_data_protocol].
    change (lower "SOUND_SET") with "sound_set". by rewrite Hs.
Qed.

End BehindTheWrapper.

(* ===================================================================== *)
(** ** The entities that write: button, switch and select                 *)
(* ===================================================================== *)

Section EntityWrites.
Context {W : Type} (host : Host W).

(** What an entity write leaves in the trace: the write itself, then, when
    the write returned, the refresh request and its events. *)
Lemma async_set_value_trace _protocol p value v (env : Env W) :
  getattr_protocol _protocol = Some p →
  entity_value _protocol value = Ok v →
  ∃ o env' rest,
    async_set_value host _protocol value env = (o, env') ∧
    trace env' = trace env ++ EvSet p v :: rest ∧
    List.filter is_write rest = [] ∧
    (o = Ok tt ∨ ∃ e, o = Raise e ∧ rest = []).
Proof.
  intros Hp Hv. rewrite (async_set_value_eq host _ p) by done. rewrite Hv.
  destruct (set_value (zeo_api host) p v (world env)) as [[r|e] w'].
  - destruct (async_request_refresh_spec host
                (Build_Env (co env) w' (trace env ++ [EvSet p v])))
      as (env' & -> & Htr & _).
    eexists _, _, _. split; [done|]. rewrite Htr. cbn [trace].
    rewrite <- app_assoc. split; [done|]. split; [|by left].
    cbn [List.filter is_write app]. apply refresh_events_no_write.
  - eexists _, _, []. split; [done|]. split; [done|]. split; [done|].
    right. by exists e.
Qed.

(** What an on-demand query leaves in the trace. *)
Lemma async_query_protocol_trace protocol_name p (env : Env W) :
  getattr_protocol (upper protocol_name) = Some p →
  ∃ rest,
    trace (snd (async_query_protocol host protocol_name env))
      = trace env ++ EvQuery [p] :: rest ∧
    (rest = [] ∨ rest = [EvNotify]).
Proof.
  intros Hp. rewrite async_query_protocol_eq, Hp.
  destruct (query_values (zeo_api host) [p] (world env)) as [[r|e] w'].
  - destruct (coerce_boolean _ _) as [v|e]; cbn [snd trace].
    + exists [EvNotify]. rewrite <- app_assoc. by split; [|right].
    + exists []. by split; [|left].
  - exists []. by split; [|left].
Qed.

Lemma async_query_protocol_no_write protocol_name (env : Env W) :
  ∃ rest,
    trace (snd (async_query_protocol host protocol_name env))
      = trace env ++ rest ∧
    List.filter is_write rest = [].
Proof.
  destruct (getattr_protocol (upper protocol_name)) as [p|] eqn:Hp.
  - destruct (async_query_protocol_trace protocol_name p env Hp)
      as (rest & -> & [->| ->]); by eexists.
  - rewrite async_query_protocol_eq, Hp. exists []. cbn [snd].
    by rewrite app_nil_r.
Qed.

(** [async_press], outcome by outcome of the write. *)
Lemma async_press_eq data_protocol press_value (env : Env W) :
  async_press host data_protocol press_value env =
    match async_set_value host data_protocol press_value env with
    | (Raise e, env1) => (Raise e, env1)
    | (Ok _, env1) =>
        if bool_decide (data_protocol ∈ ["START"; "PAUSE"; "SHUTDOWN"])
        then (Ok tt, snd (async_query_protocol host "state" env1))
        else (Ok tt, env1)
    end.
Proof.
  unfold async_press, try_except, mbind, M_bind, bind, raise, mret, M_ret, ret.
  destruct (async_set_value host data_protocol press_value env)
    as [[[]|e] env1]; [|done].
  destruct (bool_decide _); [|done].
  by destruct (async_query_protocol host "state" env1) as [[v|e] env2].
Qed.

(** X14. A button reports the write and nothing else.  For the three
    buttons, [async_press] raises exactly when the entity write raises, and
    then leaves the environment as the write left it.  When the write
    returned, one on-demand query of STATE follows; whether that query
    fails or not, the press returns normally. *)
Theorem press_reports_the_write_only (env : Env W)
    (data_protocol : string) (press_value : PyVal) :
  data_protocol ∈ ["START"; "PAUSE"; "SHUTDOWN"] →
  let written := async_set_value host data_protocol press_value env in
  let pressed := async_press host data_protocol press_value env in
  fst pressed = fst written ∧
  match fst written with
  | Raise _ => snd pressed = snd written
  | Ok _ =>
      ∃ rest,
        trace (snd pressed) = trace (snd written) ++ EvQuery [STATE] :: rest ∧
        (rest = [] ∨ rest = [EvNotify])
  end.
Proof.
  intros Hin written pressed. unfold pressed, written.
  rewrite async_press_eq.
  destruct (async_set_value host data_protocol press_value env)
    as [[[]|e] env1]; [|done].
  rewrite bool_decide_eq_true_2 by done. cbn [fst snd]. split; [done|].
  by apply async_query_protocol_trace.
Qed.

(** The switch's own [async_set_value] never raises, and whatever it does
    after the write is no write. *)
Lemma switch_async_set_value_spec (description : SwitchDescription)
    (p : RoborockZeoProtocol) value v (env : Env W) :
  getattr_protocol (switch_data_protocol description) = Some p →
  entity_value (switch_data_protocol description) value = Ok v →
  ∃ env' rest,
    switch_async_set_value host description value env = (Ok tt, env') ∧
    trace env' = trace env ++ EvSet p v :: rest ∧
    List.filter is_write rest = [].
Proof.
  intros Hp Hv.
  destruct (async_set_value_trace _ p value v env Hp Hv)
    as (o & env1 & rest & Hw & Htr & Hnw & Ho).
  unfold switch_async_set_value, try_except, mbind, M_bind, bind, mret,
    M_ret, ret.
  rewrite Hw. destruct Ho as [->|(e & -> & ->)].
  - destruct (String.eqb _ _).
    + destruct (async_query_protocol_no_write
                  (lower (switch_data_protocol description)) env1)
        as (rest' & Htr' & Hnw').
      destruct (async_query_protocol host _ env1) as [[x|e] env2];
        cbn [snd] in Htr'; eexists _, (rest ++ rest');
        (split; [done|]); rewrite Htr', Htr, <- app_assoc;
        (split; [done|]); by rewrite List.filter_app, Hnw, Hnw'.
    + by eexists _, _.
  - by eexists _, _.
Qed.

(** X15. The sound switch never raises and writes once.  Whatever the
    device does, [async_turn_on] and [async_turn_off] return normally; the
    first thing either does is the write of 1, respectively 0, to
    SOUND_SET, and nothing after it is a write. *)
Theorem switch_never_raises_and_writes_once (env : Env W)
    (description : SwitchDescription) :
  description ∈ SWITCH_TYPES →
  (∃ env' rest,
     async_turn_on host description env = (Ok tt, env') ∧
     trace env' = trace env ++ EvSet SOUND_SET (VInt 1) :: rest ∧
     List.filter is_write rest = []) ∧
  (∃ env' rest,
     async_turn_off host description env = (Ok tt, env') ∧
     trace env' = trace env ++ EvSet SOUND_SET (VInt 0) :: rest ∧
     List.filter is_write rest = []).
Proof.
  intros ->%list_elem_of_singleton.
  unfold async_turn_on, async_turn_off, try_except.
  cbn [setter_value_on setter_value_off].
  split.
  - destruct (switch_async_set_value_spec
                (Build_SwitchDescription "sound_set" "SOUND_SET" (VInt 1) (VInt 0))
                SOUND_SET (VInt 1) (VInt 1) env)
      as (env' & rest & -> & Htr & Hnw); [done|done|].
    by exists env', rest.
  - destruct (switch_async_set_value_spec
                (Build_SwitchDescription "sound_set" "SOUND_SET" (VInt 1) (VInt 0))
                SOUND_SET (VInt 0) (VInt 0) env)
      as (env' & rest & -> & Htr & Hnw); [done|done|].
    by exists env', rest.
Qed.

(** X16. After switching on, the switch shows what the device answers, not
    what was written.  When the write returned and the follow-up query of
    SOUND_SET is answered, [is_on] after [async_turn_on] is the truth value
    of that answer: a device that answers 0 leaves the switch off. *)
Theorem switch_shows_the_device_answer (env : Env W)
    (description : SwitchDescription) (result v : PyVal) (w' : W) :
  description ∈ SWITCH_TYPES →
  let written := async_set_value host "SOUND_SET" (VInt 1) env in
  fst written = Ok tt →
  query_values (zeo_api host) [SOUND_SET] (world (snd written))
    = (Ok result, w') →
  coerce_boolean true (unwrap_result SOUND_SET result) = Ok v →
  is_on description (co (snd (async_turn_on host description env)))
    = py_bool v.
Proof.
  intros ->%list_elem_of_singleton written Hw Hq Hv.
  destruct (async_query_protocol_success host (snd written) SOUND_SET
              result v w' Hq Hv)
    as (env' & Hrun & _ & _ & _ & _ & _ & Hget & _).
  unfold async_turn_on, switch_async_set_value, try_except, mbind, M_bind,
    bind, mret, M_ret, ret.
  cbn [setter_value_on switch_data_protocol String.eqb].
  fold written. destruct written as [[[]|e] env1]; [|done].
  cbn [snd] in Hrun, Hq.
  change (lower "SOUND_SET") with (key SOUND_SET).
  cbn [Ascii.eqb Bool.eqb]. rewrite Hrun. cbn [snd co].
  unfold is_on, get_state. cbn [switch_data_protocol].
  change (lower "SOUND_SET") with (key SOUND_SET). by rewrite Hget.
Qed.

(** The select's own [async_set_value] never raises either. *)
Lemma select_async_set_value_spec (description : SelectDescription)
    (p : RoborockZeoProtocol) value (env : Env W) :
  getattr_protocol (select_protocol description) = Some p →
  lower (select_protocol description) ∉ integer_protocols →
  ∃ env' rest,
    select_async_set_value host description value env = (Ok tt, env') ∧
    trace env' = trace env ++ EvSet p value :: rest ∧
    List.filter is_write rest = [].
Proof.
  intros Hp Hni.
  destruct (async_set_value_trace _ p value value env Hp)
    as (o & env1 & rest & Hw & Htr & Hnw & Ho).
  { unfold entity_value. by rewrite bool_decide_eq_false_2. }
  unfold select_async_set_value, try_except, mbind, M_bind, bind, mret,
    M_ret, ret.
  rewrite Hw. destruct Ho as [->|(e & -> & ->)].
  - match goal with |- context [async_query_protocol host ?n env1] =>
      destruct (async_query_protocol_no_write n env1) as (rest' & Htr' & Hnw');
      destruct (async_query_protocol host n env1) as [[x|e] env2]
    end;
      cbn [snd] in Htr'; eexists _, (rest ++ rest');
      (split; [done|]); rewrite Htr', Htr, <- app_assoc;
      (split; [done|]); by rewrite List.filter_app, Hnw, Hnw'.
  - by eexists _, _.
Qed.

(** X17. Choosing an option.  For each of the seven selects
    [async_select_option] returns normally whatever the device does.  On
    the detergent_type select it does nothing at all.  On the other six it
    writes once, to the select's protocol, the value of the chosen member
    of the select's enumeration, or the value of the fall-back member when
    the option is no member; nothing after the write is a write. *)
Theorem select_option_writes_member_or_fallback (env : Env W)
    (mappings : CodeMappings) (description : SelectDescription)
    (option : string) :
  description ∈ SELECT_TYPES →
  let done := async_select_option host mappings description option env in
  fst done = Ok tt ∧
  (select_key description = "detergent_type" → snd done = env) ∧
  (∀ e, (select_key description, e) ∈
          [("mode", ZeoMode mappings); ("program", ZeoProgram mappings);
           ("temperature", ZeoTemperature mappings);
           ("spin_level", ZeoSpin mappings);
           ("rinse_times", ZeoRinse mappings);
           ("drying_mode", ZeoDryingMode mappings)] →
        ∃ p rest,
          getattr_protocol (select_data_protocol description) = Some p ∧
          trace (snd done) =
            trace env ++ EvSet p (value_of_option e option) :: rest ∧
          List.filter is_write rest = [] ∧
          (member_value (__members__ e) option = None →
           value_of_option e option = fallback_value e)).
Proof.
  intros Hd done. unfold done, SELECT_TYPES in *.
  repeat (apply elem_of_cons in Hd as [->|Hd]; [|]);
    [..|by apply elem_of_nil in Hd];
    unfold async_select_option, try_except;
    cbn [select_key String.eqb Ascii.eqb Bool.eqb];
    try (split; [done|]; split; [done|]; intros e He;
         exfalso; revert He; rewrite !elem_of_cons, elem_of_nil;
         by intros [?|[?|[?|[?|[?|[?|[]]]]]]]).
  all: match goal with
       | |- context [select_async_set_value _ ?d ?v ?en] =>
           let q := eval vm_compute in (getattr_protocol (select_protocol d)) in
           match q with
           | Some ?p =>
               destruct (select_async_set_value_spec d p v en)
                 as (env' & rest & -> & Htr & Hnw);
                 [done | apply (bool_decide_unpack _); by vm_compute |]
           end
       end.
  all: cbn [fst snd]; split; [done|]; split; [done|]; intros e He.
  all: revert He; rewrite !elem_of_cons, elem_of_nil.
  all: intros [He|[He|[He|[He|[He|[He|[]]]]]]]; try done.
  all: injection He as ->; eexists _, _; split; [reflexivity|].
  all: split; [done|]; split; [done|].
  all: unfold value_of_option; by intros ->.
Qed.

End EntityWrites.

(* ===================================================================== *)
(** ** Lower-case keys, over the coordinator's whole life                 *)
(* ===================================================================== *)

Lemma get_cached_value_any_casing (s : Coordinator) k k' v :
  _state_cache s !! k = Some v → lower k' = k → get_cached_value k' s = v.
Proof. intros Hk <-. unfold get_cached_value. by rewrite Hk. Qed.

(** The names the entities hand to [async_query_protocol]. *)
Lemma select_query_name_is_lowercase description :
  description ∈ SELECT_TYPES →
  lower (if negb (String.eqb (select_data_protocol description) "")
         then lower (select_data_protocol description)
         else select_key description)
  = (if negb (String.eqb (select_data_protocol description) "")
     then lower (select_data_protocol description)
     else select_key description).
Proof.
  revert description. apply Forall_forall.
  apply (bool_decide_unpack _). by vm_compute.
Qed.

Section LowercaseKeys.
Context {W : Type} (host : Host W).

Lemma async_refresh_keeps_lowercase_keys (env : Env W) :
  lowercase_keys (cache env) →
  lowercase_keys (cache (snd (async_refresh host env))).
Proof.
  intros Hl. pose proof (tick_keeps_lowercase_keys host env Hl) as H.
  destruct (async_refresh_spec host env) as (r & env1 & Ht & ->).
  by rewrite Ht in H.
Qed.

Lemma async_request_refresh_keeps_lowercase_keys (env : Env W) :
  lowercase_keys (cache env) →
  lowercase_keys (cache (snd (async_request_refresh host env))).
Proof.
  intros Hl.
  unfold async_request_refresh, mbind, M_bind, bind, emit. cbn [world co trace].
  destruct (refresh_postponed host (world env)); [done|].
  by apply async_refresh_keeps_lowercase_keys.
Qed.

Lemma async_send_command_keeps_lowercase_keys protocol value (env : Env W) :
  lowercase_keys (cache env) →
  lowercase_keys (cache (snd (async_send_command host protocol value env))).
Proof.
  intros Hl.
  unfold async_send_command, try_except, mbind, M_bind, bind, call_set_value,
    raise.
  destruct (getattr_protocol protocol) as [p|]; [|done].
  destruct (set_value (zeo_api host) p value (world env)) as [[r|e] w'];
    [|done].
  pose proof (async_request_refresh_keeps_lowercase_keys
                (Build_Env (co env) w' (trace env ++ [EvSet p value])) Hl) as H.
  by destruct (async_request_refresh host _) as [[[]|e] e'].
Qed.

Lemma async_set_value_keeps_lowercase_keys _protocol value (env : Env W) :
  lowercase_keys (cache env) →
  lowercase_keys (cache (snd (async_set_value host _protocol value env))).
Proof.
  intros Hl. destruct (getattr_protocol _protocol) as [p|] eqn:Hp.
  - rewrite (async_set_value_eq host _ p) by done.
    destruct (entity_value _protocol value) as [v|e]; [|done].
    destruct (set_value (zeo_api host) p v (world env)) as [[r|e] w'];
      [|done].
    by apply (async_request_refresh_keeps_lowercase_keys
                (Build_Env (co env) w' (trace env ++ [EvSet p v]))).
  - unfold async_set_value, try_except, raise. by rewrite Hp.
Qed.

Lemma run_op_keeps_lowercase_keys (o : op) (env : Env W) :
  lowercase_query o →
  lowercase_keys (cache env) →
  lowercase_keys (cache (run_op host o env)).
Proof.
  intros Ho Hl. destruct o as [|protocol value|protocol_name|_protocol value|f];
    cbn [run_op lowercase_query] in *.
  - by apply async_refresh_keeps_lowercase_keys.
  - by apply async_send_command_keeps_lowercase_keys.
  - by apply query_protocol_keeps_lowercase_keys.
  - by apply async_set_value_keeps_lowercase_keys.
  - done.
Qed.

Lemma run_ops_keeps_lowercase_keys (ops : list op) : ∀ env : Env W,
  Forall lowercase_query ops →
  lowercase_keys (cache env) →
  lowercase_keys (cache (run_ops host ops env)).
Proof.
  induction ops as [|o ops IH]; intros env Hops Hl; [done|].
  apply Forall_cons in Hops as [Ho Hops].
  apply (IH (run_op host o env)); [done|].
  by apply run_op_keeps_lowercase_keys.
Qed.

Lemma async_press_keeps_lowercase_keys data_protocol press_value
    (env : Env W) :
  lowercase_keys (cache env) →
  lowercase_keys
    (cache (snd (async_press host data_protocol press_value env))).
Proof.
  intros Hl.
  pose proof (async_set_value_keeps_lowercase_keys data_protocol press_value
                env Hl) as H.
  rewrite async_press_eq.
  destruct (async_set_value host data_protocol press_value env)
    as [[[]|e] env1]; [|done].
  destruct (bool_decide _); [|done].
  by apply query_protocol_keeps_lowercase_keys.
Qed.

Lemma switch_async_set_value_keeps_lowercase_keys
    (description : SwitchDescription) value (env : Env W) :
  lowercase_keys (cache env) →
  lowercase_keys
    (cache (snd (switch_async_set_value host description value env))).
Proof.
  intros Hl.
  pose proof (async_set_value_keeps_lowercase_keys
                (switch_data_protocol description) value env Hl) as H.
  unfold switch_async_set_value, try_except, mbind, M_bind, bind, mret,
    M_ret, ret.
  destruct (async_set_value host _ value env) as [[[]|e] env1]; [|done].
  destruct (String.eqb _ _); [|done].
  pose proof (query_protocol_keeps_lowercase_keys host
                (lower (switch_data_protocol description)) env1
                (lower_idemp _) H) as H'.
  by destruct (async_query_protocol host _ env1) as [[x|e] env2].
Qed.

Lemma select_async_set_value_keeps_lowercase_keys
    (description : SelectDescription) value (env : Env W) :
  description ∈ SELECT_TYPES →
  lowercase_keys (cache env) →
  lowercase_keys
    (cache (snd (select_async_set_value host description value env))).
Proof.
  intros Hd Hl.
  pose proof (async_set_value_keeps_lowercase_keys
                (select_protocol description) value env Hl) as H.
  unfold select_async_set_value, try_except, mbind, M_bind, bind, mret,
    M_ret, ret.
  destruct (async_set_value host _ value env) as [[[]|e] env1]; [|done].
  cbv zeta.
  pose proof (query_protocol_keeps_lowercase_keys host _ env1
                (select_query_name_is_lowercase description Hd) H) as H'.
  by destruct (async_query_protocol host _ env1) as [[x|e] env2].
Qed.

(** C9. Cache keys are lower-case in every state the program reaches.
    [_async_update_data] stores under [protocol.name.lower()];
    [async_query_protocol] stores under the name it is given, and every
    caller in the repository gives it a lower-case name.  So after any
    sequence of ticks, commands, entity writes, changes of the world and
    on-demand queries under lower-case names on a new coordinator, every
    key of the cache is lower-case and [get_cached_value] finds each entry
    under any casing of its key.  The callers of [async_query_protocol]
    keep it so: a button press, switching the sound on or off and choosing
    an option of any of the seven selects leave the keys lower-case. *)
Theorem cache_keys_are_lowercase (ops : list (op (W:=W))) (w : W) :
  Forall lowercase_query ops →
  let env := run_ops host ops (new_env w) in
  lowercase_keys (_state_cache (co env)) ∧
  (∀ k v, _state_cache (co env) !! k = Some v →
     ∀ k', lower k' = k → get_cached_value k' (co env) = v) ∧
  (∀ e : Env W, lowercase_keys (_state_cache (co e)) →
     (∀ data_protocol press_value,
        lowercase_keys
          (_state_cache
             (co (snd (async_press host data_protocol press_value e))))) ∧
     (∀ description,
        lowercase_keys
          (_state_cache (co (snd (async_turn_on host description e)))) ∧
        lowercase_keys
          (_state_cache (co (snd (async_turn_off host description e))))) ∧
     (∀ mappings description option,
        description ∈ SELECT_TYPES →
        lowercase_keys
          (_state_cache
             (co (snd (async_select_option host mappings description option
                         e)))))).
Proof.
  intros Hops env.
  assert (lowercase_keys (_state_cache (co env))) as Hl.
  { apply run_ops_keeps_lowercase_keys; [done|].
    intros k [v Hk].
    cbn [new_env co new_coordinator _state_cache] in Hk.
    by rewrite lookup_empty in Hk. }
  split; [exact Hl|]. split.
  { intros k v Hk k' Hk'. by apply (get_cached_value_any_casing _ k). }
  intros e He. split; [|split].
  - intros data_protocol press_value.
    by apply async_press_keeps_lowercase_keys.
  - intros description. unfold async_turn_on, async_turn_off, try_except.
    pose proof (switch_async_set_value_keeps_lowercase_keys description
                  (setter_value_on description) e He) as Hon.
    pose proof (switch_async_set_value_keeps_lowercase_keys description
                  (setter_value_off description) e He) as Hoff.
    destruct (switch_async_set_value host description
                (setter_value_on description) e) as [[[]|ex] e1],
      (switch_async_set_value host description
         (setter_value_off description) e) as [[[]|ex'] e2]; by split.
  - intros mappings description option Hd.
    unfold async_select_option, try_except.
    repeat (destruct (String.eqb (select_key description) _);
      [match goal with
       | |- context [select_async_set_value host description ?v e] =>
           pose proof (select_async_set_value_keeps_lowercase_keys
                         description v e Hd He) as H;
           by destruct (select_async_set_value host description v e)
             as [[[]|ex] e1]
       end|]).
    done.
Qed.

End LowercaseKeys.

(* ===================================================================== *)
(** ** [str] and [int] on integers                                        *)
(* ===================================================================== *)

Lemma digit_of_chr d :
  0 ≤ d < 10 → digit_of (ascii_of_N (Z.to_N (48 + d))) = Some d.
Proof.
  intros H.
  assert (d = 0 ∨ d = 1 ∨ d = 2 ∨ d = 3 ∨ d = 4 ∨ d = 5 ∨ d = 6 ∨ d = 7 ∨
          d = 8 ∨ d = 9) as Hd by lia.
  repeat (destruct Hd as [->|Hd]; [reflexivity|]). by subst.
Qed.

Lemma digit_bounds c d :
  digit_of c = Some d → (48 ≤ N_of_ascii c ≤ 57)%N.
Proof.
  unfold digit_of.
  destruct (N.leb_spec 48 (N_of_ascii c)), (N.leb_spec (N_of_ascii c) 57);
    cbn; try discriminate. lia.
Qed.

Lemma digit_is_no_space c d : digit_of c = Some d → is_space c = false.
Proof.
  intros H%digit_bounds. unfold is_space.
  destruct (N.leb_spec 9 (N_of_ascii c)), (N.leb_spec (N_of_ascii c) 13),
    (N.eqb_spec (N_of_ascii c) 32);
    cbn; try done; lia.
Qed.

Lemma digit_is_no_letter c d : digit_of c = Some d → is_lower_letter c = false.
Proof.
  intros H%digit_bounds. unfold is_lower_letter.
  destruct (N.leb_spec 97 (N_of_ascii c)), (N.leb_spec (N_of_ascii c) 122);
    cbn; try done; lia.
Qed.

Lemma digits_onto_all_digits fuel : ∀ n acc,
  0 ≤ n → all_digits acc = true → all_digits (digits_onto fuel n acc) = true.
Proof.
  induction fuel as [|fuel IH]; intros n acc Hn Hacc; [done|].
  cbn [digits_onto].
  assert (all_digits (String (ascii_of_N (Z.to_N (48 + n mod 10))) acc) = true)
    as Hacc'.
  { cbn [all_digits]. rewrite digit_of_chr; [done|].
    apply Z.mod_pos_bound. lia. }
  destruct (n <? 10); [done|]. apply IH; [|done].
  apply Z.div_pos; lia.
Qed.

Lemma digits_onto_head fuel : ∀ n acc,
  ∃ c rest, digits_onto (S fuel) n acc = String c rest.
Proof.
  induction fuel as [|fuel IH]; intros n acc.
  - cbn [digits_onto]. destruct (n <? 10); by eexists _, _.
  - change (digits_onto (S (S fuel)) n acc) with
      (let acc' := String (ascii_of_N (Z.to_N (48 + n mod 10))) acc in
       if n <? 10 then acc' else digits_onto (S fuel) (n / 10) acc').
    cbv zeta. destruct (n <? 10); [by eexists _, _|]. apply IH.
Qed.

(** Reading back what [digits_onto] wrote. *)
Lemma parse_digits_onto fuel : ∀ n acc,
  0 ≤ n < 10 ^ Z.of_nat (S fuel) →
  ∃ k, 0 ≤ k ∧
    ∀ a b, parse_digits a b (digits_onto (S fuel) n acc)
           = parse_digits (a * 10 ^ k + n) true acc.
Proof.
  induction fuel as [|fuel IH]; intros n acc Hn.
  - exists 1. split; [lia|]. intros a b. cbn [digits_onto].
    change (10 ^ Z.of_nat 1) with 10 in Hn.
    assert (n mod 10 = n) as Hm by (apply Z.mod_small; lia).
    destruct (n <? 10) eqn:Hlt; [|lia].
    cbn [parse_digits]. rewrite digit_of_chr, Hm by lia.
    f_equal; lia.
  - change (digits_onto (S (S fuel)) n acc) with
      (let acc' := String (ascii_of_N (Z.to_N (48 + n mod 10))) acc in
       if n <? 10 then acc' else digits_onto (S fuel) (n / 10) acc').
    cbv zeta. destruct (n <? 10) eqn:Hlt.
    + exists 1. split; [lia|]. intros a b.
      assert (n mod 10 = n) as Hm by (apply Z.mod_small; lia).
      cbn [parse_digits]. rewrite digit_of_chr, Hm by lia.
      f_equal; lia.
    + apply Z.ltb_ge in Hlt.
      destruct (IH (n / 10)
                  (String (ascii_of_N (Z.to_N (48 + n mod 10))) acc))
        as (k & Hk & Hparse).
      { split; [apply Z.div_pos; lia|].
        apply Z.div_lt_upper_bound; [lia|].
        rewrite <- Z.pow_succ_r by lia.
        replace (Z.succ (Z.of_nat (S fuel))) with (Z.of_nat (S (S fuel)))
          by lia. lia. }
      exists (k + 1). split; [lia|]. intros a b. rewrite Hparse.
      cbn [parse_digits].
      rewrite digit_of_chr by (apply Z.mod_pos_bound; lia).
      f_equal. rewrite Z.pow_add_r, Z.pow_1_r by lia.
      pose proof (Z.div_mod n 10). lia.
Qed.

Lemma digits_fuel n :
  0 ≤ n → n < 10 ^ Z.of_nat (S (Z.to_nat (Z.log2 n))).
Proof.
  intros Hn. pose proof (Z.log2_nonneg n) as Hl.
  replace (Z.of_nat (S (Z.to_nat (Z.log2 n)))) with (Z.succ (Z.log2 n))
    by lia.
  destruct (Z.eq_dec n 0) as [->|Hne]; [done|].
  pose proof (Z.log2_spec n ltac:(lia)) as [_ Hlt].
  eapply Z.lt_le_trans; [exact Hlt|].
  apply Z.pow_le_mono_l. lia.
Qed.

Lemma all_digits_lstrip s : all_digits s = true → lstrip s = s.
Proof.
  destruct s as [|c r]; [done|]. cbn [all_digits lstrip].
  destruct (digit_of c) as [d|] eqn:Hd; [|done].
  by rewrite (digit_is_no_space c d).
Qed.

Lemma all_digits_rstrip s : all_digits s = true → rstrip s = s.
Proof.
  induction s as [|c r IH]; [done|]. cbn [all_digits rstrip].
  destruct (digit_of c) as [d|] eqn:Hd; [|done].
  intros Hr. rewrite (IH Hr), (digit_is_no_space c d) by done.
  by destruct r.
Qed.

Lemma py_int_of_digits s :
  all_digits s = true → s ≠ "" → py_int_of_str s = parse_digits 0 false s.
Proof.
  intros Hs Hne. unfold py_int_of_str.
  rewrite (all_digits_lstrip s Hs), (all_digits_rstrip s Hs).
  destruct s as [|c r]; [done|]. cbn [all_digits] in Hs.
  destruct (digit_of c) as [d|] eqn:Hd; [|done].
  apply digit_bounds in Hd.
  destruct c as [[] [] [] [] [] [] [] []]; try reflexivity;
    vm_compute in Hd; destruct Hd as [H1 H2]; exfalso;
    first [by apply H1 | by apply H2].
Qed.

(** [int(str(z))] is [z]. *)
Lemma py_int_of_str_of_int z : py_int_of_str (py_str_of_int z) = Some z.
Proof.
  unfold py_str_of_int. destruct (z <? 0) eqn:Hz.
  - apply Z.ltb_lt in Hz.
    set (ds := digits_onto (S (Z.to_nat (Z.log2 (- z)))) (- z) "").
    assert (all_digits ds = true) as Hall
      by (apply digits_onto_all_digits; [lia|done]).
    destruct (digits_onto_head (Z.to_nat (Z.log2 (- z))) (- z) "")
      as (c & r & Hds). fold ds in Hds.
    destruct (parse_digits_onto (Z.to_nat (Z.log2 (- z))) (- z) "")
      as (k & _ & Hparse); [split; [lia|apply digits_fuel; lia]|].
    fold ds in Hparse.
    unfold py_int_of_str. cbn [lstrip]. change (is_space "-") with false.
    cbv iota. cbn [rstrip]. rewrite (all_digits_rstrip ds Hall).
    rewrite Hds at 1. rewrite <- Hds. rewrite Hparse. cbn [parse_digits].
    cbn [fmap option_fmap option_map]. f_equal. lia.
  - apply Z.ltb_ge in Hz.
    set (ds := digits_onto (S (Z.to_nat (Z.log2 z))) z "").
    assert (all_digits ds = true) as Hall
      by (apply digits_onto_all_digits; [lia|done]).
    destruct (digits_onto_head (Z.to_nat (Z.log2 z)) z "")
      as (c & r & Hds). fold ds in Hds.
    destruct (parse_digits_onto (Z.to_nat (Z.log2 z)) z "")
      as (k & _ & Hparse); [split; [lia|apply digits_fuel; lia]|].
    fold ds in Hparse.
    rewrite py_int_of_digits; [|done|by rewrite Hds].
    rewrite Hparse. cbn [parse_digits]. f_equal; lia.
Qed.

(** [str] of an integer starts with a digit or the minus sign, never with
    a letter. *)
Lemma py_str_of_int_head z :
  head_sat is_lower_letter (py_str_of_int z) = false ∧
  head_sat (fun c => negb (Ascii.eqb c "C")) (py_str_of_int z) = true.
Proof.
  unfold py_str_of_int. destruct (z <? 0) eqn:Hz; [done|].
  apply Z.ltb_ge in Hz.
  pose proof (digits_onto_all_digits (S (Z.to_nat (Z.log2 z))) z "" Hz eq_refl)
    as Hall.
  destruct (digits_onto_head (Z.to_nat (Z.log2 z)) z "") as (c & r & Hds).
  rewrite Hds in *. cbn [all_digits head_sat] in *.
  destruct (digit_of c) as [d|] eqn:Hd; [|done].
  split; [by apply (digit_is_no_letter c d)|].
  apply digit_bounds in Hd.
  destruct (Ascii.eqb_spec c "C") as [->|]; [|done].
  vm_compute in Hd. destruct Hd as [_ H]. exfalso. by apply H.
Qed.

(* ===================================================================== *)
(** ** select.py: the option maps                                         *)
(* ===================================================================== *)

Lemma lookup_elem d k v :
  EnhancedOptionsMap.lookup d k = Some v → (k, v) ∈ d.
Proof.
  induction d as [|[k0 v0] d IH]; [done|]. cbn [EnhancedOptionsMap.lookup].
  destruct (String.eqb_spec k0 k) as [->|].
  - intros [= ->]. apply elem_of_cons. by left.
  - intros H. apply elem_of_cons. right. by apply IH.
Qed.

Lemma lookup_NoDup d k v :
  NoDup (map fst d) → (k, v) ∈ d → EnhancedOptionsMap.lookup d k = Some v.
Proof.
  induction d as [|[k0 v0] d IH]; intros Hnd Hin.
  - by apply elem_of_nil in Hin.
  - cbn [map fst] in Hnd. apply NoDup_cons in Hnd as [Hk0 Hnd].
    cbn [EnhancedOptionsMap.lookup].
    apply elem_of_cons in Hin as [[= -> ->]|Hin].
    + by rewrite String.eqb_refl.
    + destruct (String.eqb_spec k0 k) as [->|]; [|by apply IH].
      exfalso. apply Hk0. apply list_elem_of_fmap. by exists (k, v).
Qed.

Lemma lookup_head_None (P : ascii → bool) d s :
  Forall (fun kv => head_sat P (fst kv) = true) d →
  head_sat P s = false →
  EnhancedOptionsMap.lookup d s = None.
Proof.
  intros Hd Hs. induction Hd as [|[k v] d Hk _ IH]; [done|].
  cbn [EnhancedOptionsMap.lookup]. cbn [fst] in Hk.
  destruct (String.eqb_spec k s) as [->|]; [|done]. congruence.
Qed.

Lemma ends_with_paren_cons c t :
  ends_with_paren t = true → ends_with_paren (String c t) = true.
Proof. by destruct t. Qed.

Lemma ends_with_paren_append p s :
  ends_with_paren (String.append p (String.append s ")")) = true.
Proof.
  induction p as [|c p IH]; cbn [String.append].
  - induction s as [|c s IH]; [done|].
    cbn [String.append]. by apply ends_with_paren_cons.
  - by apply ends_with_paren_cons.
Qed.

Lemma drop_last_append s : drop_last (String.append s ")") = s.
Proof.
  induction s as [|c s IH]; [done|].
  change (drop_last (String c (String.append s ")")) = String c s).
  destruct s as [|a s']; [done|].
  change (String c (drop_last (String.append (String a s') ")"))
          = String c (String a s')).
  by rewrite IH.
Qed.

(** The label made up for an unknown value is read back as that value's
    text, as an integer where [int] accepts the text. *)
Lemma get_value_custom_label _base_map s :
  EnhancedOptionsMap.lookup (EnhancedOptionsMap._reverse_map _base_map)
    (custom_label s) = None →
  EnhancedOptionsMap.get_value _base_map (custom_label s) =
    inr (match py_int_of_str s with Some z => VInt z | None => VStr s end).
Proof.
  intros Hr. unfold EnhancedOptionsMap.get_value. rewrite Hr.
  unfold custom_label. rewrite ends_with_paren_append.
  change (startswith "Custom (" (String.append "Custom (" (String.append s ")")))
    with true.
  cbn [andb]. cbv zeta.
  change (drop_first 8 (String.append "Custom (" (String.append s ")")))
    with (String.append s ")").
  rewrite drop_last_append. by destruct (py_int_of_str s).
Qed.

Lemma enhanced_map_keys base :
  base ∈ enhanced_maps →
  Forall (fun kv => head_sat is_lower_letter (fst kv) = true) base ∧
  Forall (fun kv => head_sat (fun c => negb (Ascii.eqb c "C")) (fst kv) = true)
    (EnhancedOptionsMap._reverse_map base) ∧
  NoDup (map snd base).
Proof.
  revert base. apply Forall_forall.
  unfold enhanced_maps.
  repeat (apply Forall_cons; split;
          [split; [|split]; apply (bool_decide_unpack _); by vm_compute|]).
  apply Forall_nil_2.
Qed.

Lemma custom_label_unknown base s :
  base ∈ enhanced_maps →
  EnhancedOptionsMap.lookup (EnhancedOptionsMap._reverse_map base)
    (custom_label s) = None.
Proof.
  intros (_ & Hr & _)%enhanced_map_keys.
  by apply (lookup_head_None _ _ _ Hr).
Qed.

(** X18. The labels of a map round-trip.  When no two keys of the base
    map share a label, [get_option] on a key gives its label and
    [get_value] on that label gives the key back. *)
Theorem known_option_round_trip (_base_map : EnhancedOptionsMap.base_map)
    (k o : string) :
  NoDup (map snd _base_map) →
  EnhancedOptionsMap.lookup _base_map k = Some o →
  EnhancedOptionsMap.get_option _base_map (VStr k) = inr o ∧
  EnhancedOptionsMap.get_value _base_map o = inr (VStr k).
Proof.
  intros Hnd Hk. split.
  - unfold EnhancedOptionsMap.get_option. cbn [hashable negb]. by rewrite Hk.
  - unfold EnhancedOptionsMap.get_value.
    rewrite (lookup_NoDup _ o k); [done| |].
    + unfold EnhancedOptionsMap._reverse_map.
      rewrite <- Permutation_rev, map_map. by cbn [fst].
    + unfold EnhancedOptionsMap._reverse_map. rewrite <- Permutation_rev.
      apply list_elem_of_fmap. exists (k, o). split; [done|].
      by apply lookup_elem.
Qed.

(** X19. An integer the maps do not know round-trips.  For each of the six
    enhanced maps and every integer, [get_option] makes up the label
    "Custom (n)" and [get_value] reads the integer back from it. *)
Theorem unknown_integer_round_trip (base : EnhancedOptionsMap.base_map)
    (z : Z) :
  base ∈ enhanced_maps →
  EnhancedOptionsMap.get_option base (VInt z)
    = inr (custom_label (py_str_of_int z)) ∧
  EnhancedOptionsMap.get_value base (custom_label (py_str_of_int z))
    = inr (VInt z).
Proof.
  intros Hb. split.
  - destruct (enhanced_map_keys base Hb) as (Hk & _ & _).
    unfold EnhancedOptionsMap.get_option. cbn [hashable negb py_str].
    rewrite (lookup_head_None _ _ _ Hk); [done|].
    apply py_str_of_int_head.
  - rewrite get_value_custom_label by by apply custom_label_unknown.
    by rewrite py_int_of_str_of_int.
Qed.

(** X20. A text the maps do not know does not always round-trip.  For each
    of the six enhanced maps and a string that is no key, [get_option]
    makes up the label "Custom (text)"; [get_value] on that label gives the
    text back only when [int] rejects it, and the integer [int] reads from
    it otherwise: the text 7 comes back as the number 7. *)
Theorem numeric_text_comes_back_as_integer (base : EnhancedOptionsMap.base_map)
    (s : string) :
  base ∈ enhanced_maps →
  EnhancedOptionsMap.lookup base s = None →
  EnhancedOptionsMap.get_option base (VStr s) = inr (custom_label s) ∧
  EnhancedOptionsMap.get_value base (custom_label s)
    = inr (match py_int_of_str s with Some z => VInt z | None => VStr s end).
Proof.
  intros Hb Hs. split.
  - unfold EnhancedOptionsMap.get_option. cbn [hashable negb py_str].
    by rewrite Hs.
  - apply get_value_custom_label. by apply custom_label_unknown.
Qed.

Lemma select_types_facts description :
  description ∈ SELECT_TYPES →
  select_key description ∈
    ["mode"; "program"; "detergent_type"; "temperature"; "spin_level";
     "rinse_times"; "drying_mode"] ∧
  String.eqb (select_key description) "operation" = false ∧
  Forall (fun kv => head_sat is_lower_letter (fst kv) = true)
    (options_map description) ∧
  (∀ x, x ∈ ["not set"; "None"; "True"; "False"] →
        EnhancedOptionsMap.lookup (options_map description) x = None).
Proof.
  revert description. apply Forall_forall. unfold SELECT_TYPES.
  repeat (apply Forall_cons; split;
          [split; [|split; [|split]];
           [apply (bool_decide_unpack _); by vm_compute
           |reflexivity
           |apply (bool_decide_unpack _); by vm_compute
           |apply Forall_forall; apply (bool_decide_unpack _); by vm_compute]|]).
  apply Forall_nil_2.
Qed.

(** X21. What a select shows.  For each of the seven selects,
    [current_option] is an option exactly when the cached value is a
    string that is a key of the select's map, and then it is that key's
    label, one of the options the entity offers.  In particular an
    integer code in the cache shows as no option at all. *)
Theorem current_option_shows_known_text_only (s : Coordinator)
    (description : SelectDescription) (o : string) :
  description ∈ SELECT_TYPES →
  (current_option description s = inr (Some o) ↔
   ∃ x, get_state (select_protocol description) s = VStr x ∧
        EnhancedOptionsMap.lookup (options_map description) x = Some o) ∧
  (current_option description s = inr (Some o) →
   o ∈ _attr_options description) ∧
  (∀ z, get_state (select_protocol description) s = VInt z →
        current_option description s = inr None).
Proof.
  intros (Hkey & Hop & Hhead & Hnone)%select_types_facts.
  assert (∀ z, EnhancedOptionsMap.lookup (options_map description)
                 (py_str_of_int z) = None) as Hint.
  { intros z. apply (lookup_head_None _ _ _ Hhead), py_str_of_int_head. }
  assert (current_option description s = inr (Some o) ↔
          ∃ x, get_state (select_protocol description) s = VStr x ∧
               EnhancedOptionsMap.lookup (options_map description) x = Some o)
    as Hiff.
  { unfold current_option. rewrite Hop, (bool_decide_eq_true_2 _ Hkey).
    destruct (get_state (select_protocol description) s) as [|b|z|x|l|l];
      cbn [is_None py_eq_str hashable negb orb py_str].
    - split; [done|]. by intros (x & ? & _).
    - split; [|by intros (x & ? & _)].
      destruct b; rewrite Hnone; try done;
        apply (bool_decide_unpack _); by vm_compute.
    - rewrite Hint. split; [done|]. by intros (x & ? & _).
    - destruct (String.eqb_spec x "not set") as [->|Hx].
      + split; [done|]. intros (x & [= <-] & Hl).
        rewrite Hnone in Hl; [done|]. apply (bool_decide_unpack _).
        by vm_compute.
      + destruct (EnhancedOptionsMap.lookup (options_map description) x)
          as [mv|] eqn:Hl.
        * split; [intros [= ->]; by exists x|].
          intros (x' & [= <-] & Hl'). congruence.
        * split; [done|]. intros (x' & [= <-] & Hl'). congruence.
    - split; [done|]. by intros (x & ? & _).
    - split; [done|]. by intros (x & ? & _). }
  split; [done|]. split.
  - intros (x & _ & Hl)%Hiff. unfold _attr_options.
    apply list_elem_of_fmap. exists (x, o). split; [done|].
    by apply lookup_elem.
  - intros z Hz. unfold current_option.
    rewrite Hop, (bool_decide_eq_true_2 _ Hkey), Hz.
    cbn [is_None py_eq_str hashable negb orb py_str]. by rewrite Hint.
Qed.

(* ===================================================================== *)
(** ** Runs of the added theorems on the demonstration worlds             *)
(* ===================================================================== *)

Lemma co_Build_Env {W : Type} (s : Coordinator) (w : W) (tr : list event) :
  co (Build_Env s w tr) = s.
Proof. reflexivity. Qed.

Module EntityRuns.
Import Demo DemoEntities.

Lemma tick_leaves_other_keys_alone_witness :
  _initial_load_complete (co (later (65 * second))) = true ∧
  MODE ∈ manual_protocols ∧
  _state_cache (co (snd (_async_update_data answering (later (65 * second)))))
    !! key MODE
  = _state_cache (co (later (65 * second))) !! key MODE.
Proof.
  split; [reflexivity|].
  assert (MODE ∈ manual_protocols) as Hm
    by (unfold manual_protocols; do 3 right; left).
  split; [exact Hm|].
  destruct (tick_leaves_other_keys_alone answering (later (65 * second))
              (key MODE)) as [_ H].
  exact (proj1 (H eq_refl MODE Hm)).
Defined.

Lemma tick_stores_the_answer_witness :
  STATE ∈ tick_queries (co (new_env (W:=Z) 0))
            (clock answering (world (new_env 0))) ∧
  (∀ w, collected [SOUND_SET] STATE
          (fst (query_values (zeo_api answering) [STATE] w))
        = Some (VInt 1)) ∧
  get_cached_value "STATE"
    (co (snd (_async_update_data answering (new_env 0)))) = VInt 1.
Proof.
  assert (STATE ∈ tick_queries (co (new_env (W:=Z) 0))
                    (clock answering (world (new_env 0)))) as Hq
    by (apply (bool_decide_unpack _); vm_compute; exact I).
  assert (∀ w, collected [SOUND_SET] STATE
                 (fst (query_values (zeo_api answering) [STATE] w))
               = Some (VInt 1)) as Ha by (intros w; reflexivity).
  split; [exact Hq|]. split; [exact Ha|].
  destruct (tick_stores_the_answer answering (new_env 0) STATE (VInt 1)
              Hq Ha) as [H _].
  exact H.
Defined.

Lemma query_protocol_read_after_query_witness :
  query_values (zeo_api answering) [STATE] (world (new_env 0))
    = (Ok (VDict [(STATE, VInt 1)]), second) ∧
  coerce_boolean (bool_decide (key STATE ∈ ["sound_set"]))
    (unwrap_result STATE (VDict [(STATE, VInt 1)])) = Ok (VInt 1) ∧
  ∃ env',
    async_query_protocol answering (key STATE) (new_env 0)
      = (Ok (VInt 1), env') ∧
    get_cached_value (name STATE) (co env') = VInt 1.
Proof.
  split; [reflexivity|]. split; [reflexivity|].
  destruct (query_protocol_read_after_query answering (new_env 0) STATE
              (VDict [(STATE, VInt 1)]) (VInt 1) second eq_refl eq_refl)
    as (env' & H1 & _ & _ & _ & _ & H6 & _).
  exists env'. split; [exact H1|exact H6].
Defined.

Lemma query_protocol_failure_changes_nothing_witness :
  getattr_protocol (upper "state") = Some STATE ∧
  query_values (zeo_api (bare failing_zeo)) [STATE] (world (new_env 0))
    = (Raise (RoborockException "timeout"), second) ∧
  async_query_protocol (bare failing_zeo) "state" (new_env 0) =
    (Raise (RoborockException "timeout"),
     Build_Env (co (new_env 0)) second (trace (new_env 0) ++ [EvQuery [STATE]])).
Proof.
  split; [reflexivity|]. split; [reflexivity|].
  apply (query_protocol_failure_changes_nothing (bare failing_zeo) (new_env 0)
           "state" STATE eq_refl _ _ eq_refl).
  left. reflexivity.
Defined.

Lemma on_demand_query_postpones_scheduled_one_witness :
  _initial_load_complete (co (later 0)) = true ∧
  async_query_protocol answering (key STATE) (later 0)
    = (Ok (VInt 1), queried) ∧
  (STATE ∈ frequent_protocols ∧
   clock answering (world half_a_minute_on)
     < clock answering (world queried) + UPDATE_INTERVAL_FREQUENT) ∧
  ∃ r env' qs,
    _async_update_data answering half_a_minute_on = (Ok r, env') ∧
    trace env' = trace half_a_minute_on ++ map (fun q => EvQuery [q]) qs ∧
    STATE ∉ qs.
Proof.
  assert (async_query_protocol answering (key STATE) (later 0)
          = (Ok (VInt 1), queried)) as Hrun.
  { unfold queried.
    destruct (async_query_protocol answering (key STATE) (later 0))
      as [o e] eqn:Hq.
    assert (o = Ok (VInt 1)) as ->
      by (change o with (fst (o, e)); rewrite <- Hq; vm_compute; reflexivity).
    reflexivity. }
  assert (STATE ∈ frequent_protocols ∧
          clock answering (world half_a_minute_on)
            < clock answering (world queried) + UPDATE_INTERVAL_FREQUENT)
    as Hdue.
  { split; [left|]. unfold half_a_minute_on.
    cbn [world clock answering wired].
    unfold UPDATE_INTERVAL_FREQUENT, second. lia. }
  split; [reflexivity|]. split; [exact Hrun|]. split; [exact Hdue|].
  destruct (on_demand_query_postpones_scheduled_one answering (later 0) queried
              STATE (VInt 1) eq_refl Hrun) as [_ H].
  exact (H half_a_minute_on (co_Build_Env _ _ _) (or_introl Hdue)).
Defined.

Lemma wired_first_tick_fills_the_sensors_witness :
  _initial_load_complete (co (new_env (W:=Z) 0)) = false ∧
  "state" ∈ SENSOR_DESCRIPTIONS ∧
  "state" ≠ "sound_set" ∧
  is_Some (_state_cache (co (snd (_async_update_data failing (new_env 0))))
             !! "state").
Proof.
  assert ("state" ∈ SENSOR_DESCRIPTIONS) as Hin by left.
  assert ("state" ≠ "sound_set") as Hne by discriminate.
  split; [reflexivity|]. split; [exact Hin|]. split; [exact Hne|].
  exact (wired_first_tick_fills_the_sensors failing failing_device eq_refl
           (new_env 0) "state" eq_refl Hin Hne).
Defined.

Lemma failing_device_fails : device_fails failing_device.
Proof.
  right. exists failing_zeo. split; [reflexivity|].
  intros ps w. eexists. reflexivity.
Defined.

Lemma failed_refresh_shows_unknown_witness :
  device_fails failing_device ∧
  STATE ∈ tick_queries (co (later (65 * second)))
            (clock failing (world (later (65 * second)))) ∧
  STATE ≠ SOUND_SET ∧
  get_cached_value (key STATE) (co (later (65 * second))) = VInt 1 ∧
  get_cached_value (key STATE)
    (co (snd (_async_update_data failing (later (65 * second))))) = VDict [] ∧
  native_value (key STATE)
    (co (snd (_async_update_data failing (later (65 * second))))) = VNone.
Proof.
  assert (STATE ∈ tick_queries (co (later (65 * second)))
                    (clock failing (world (later (65 * second))))) as Hq
    by (apply (bool_decide_unpack _); vm_compute; exact I).
  assert (STATE ≠ SOUND_SET) as Hne by discriminate.
  split; [exact failing_device_fails|]. split; [exact Hq|].
  split; [exact Hne|]. split; [by vm_compute|].
  exact (failed_refresh_shows_unknown failing failing_device eq_refl
           (later (65 * second)) STATE failing_device_fails Hq Hne).
Defined.

Lemma failed_initial_load_breaks_the_selects_witness :
  device_fails failing_device ∧
  _initial_load_complete (co (new_env (W:=Z) 0)) = false ∧
  mode_select ∈ SELECT_TYPES ∧
  current_option mode_select
    (co (snd (_async_update_data failing (new_env 0))))
  = inl EnhancedOptionsMap.TypeError.
Proof.
  assert (mode_select ∈ SELECT_TYPES) as Hin by left.
  split; [exact failing_device_fails|]. split; [reflexivity|].
  split; [exact Hin|].
  destruct (failed_initial_load_breaks_the_selects failing failing_device
              eq_refl (new_env 0) mode_select failing_device_fails
              eq_refl Hin) as [H _].
  exact H.
Defined.

Lemma press_reports_the_write_only_witness :
  "START" ∈ ["START"; "PAUSE"; "SHUTDOWN"] ∧
  fst (async_press answering "START" (VInt 1) (new_env 0))
  = fst (async_set_value answering "START" (VInt 1) (new_env 0)).
Proof.
  assert ("START" ∈ ["START"; "PAUSE"; "SHUTDOWN"]) as Hin by left.
  split; [exact Hin|].
  destruct (press_reports_the_write_only answering (new_env 0) "START"
              (VInt 1) Hin) as [H _].
  exact H.
Defined.

Lemma switch_never_raises_and_writes_once_witness :
  sound_switch ∈ SWITCH_TYPES ∧
  ∃ env' rest,
    async_turn_on (bare failing_zeo) sound_switch (new_env 0) = (Ok tt, env') ∧
    trace env' = trace (new_env 0) ++ EvSet SOUND_SET (VInt 1) :: rest ∧
    List.filter is_write rest = [].
Proof.
  assert (sound_switch ∈ SWITCH_TYPES) as Hin by left.
  split; [exact Hin|].
  destruct (switch_never_raises_and_writes_once (bare failing_zeo)
              (new_env 0) sound_switch Hin) as [H _].
  exact H.
Defined.

(** The entity write that switching the sound on makes, against the device
    that answers 0. *)
Local Abbreviation sound_written :=
  (async_set_value (bare zero_zeo) "SOUND_SET" (VInt 1) (new_env 0)).

Lemma switch_shows_the_device_answer_witness :
  sound_switch ∈ SWITCH_TYPES ∧
  fst sound_written = Ok tt ∧
  query_values (zeo_api (bare zero_zeo)) [SOUND_SET] (world (snd sound_written))
    = (Ok (VDict [(SOUND_SET, VInt 0)]), world (snd sound_written) + second) ∧
  coerce_boolean true (unwrap_result SOUND_SET (VDict [(SOUND_SET, VInt 0)]))
    = Ok (VBool false) ∧
  is_on sound_switch
    (co (snd (async_turn_on (bare zero_zeo) sound_switch (new_env 0))))
  = false.
Proof.
  assert (sound_switch ∈ SWITCH_TYPES) as Hin by left.
  assert (fst sound_written = Ok tt) as Hw by (by vm_compute).
  split; [exact Hin|]. split; [exact Hw|]. split; [reflexivity|].
  split; [reflexivity|].
  exact (switch_shows_the_device_answer (bare zero_zeo) (new_env 0)
           sound_switch (VDict [(SOUND_SET, VInt 0)]) (VBool false)
           (world (snd sound_written) + second) Hin Hw eq_refl eq_refl).
Defined.

Lemma select_option_writes_member_or_fallback_witness :
  mode_select ∈ SELECT_TYPES ∧
  fst (async_select_option (bare failing_zeo) mappings mode_select "tumble"
         (new_env 0)) = Ok tt.
Proof.
  assert (mode_select ∈ SELECT_TYPES) as Hin by left.
  split; [exact Hin|].
  destruct (select_option_writes_member_or_fallback (bare failing_zeo)
              (new_env 0) mappings mode_select "tumble" Hin) as [H _].
  exact H.
Defined.

Lemma known_option_round_trip_witness :
  NoDup (map snd TEMP_ENHANCED_MAP) ∧
  EnhancedOptionsMap.lookup TEMP_ENHANCED_MAP "high" = Some "high" ∧
  EnhancedOptionsMap.get_option TEMP_ENHANCED_MAP (VStr "high") = inr "high" ∧
  EnhancedOptionsMap.get_value TEMP_ENHANCED_MAP "high" = inr (VStr "high").
Proof.
  assert (NoDup (map snd TEMP_ENHANCED_MAP)) as Hnd
    by (apply (bool_decide_unpack _); vm_compute; exact I).
  split; [exact Hnd|]. split; [reflexivity|].
  exact (known_option_round_trip TEMP_ENHANCED_MAP "high" "high" Hnd eq_refl).
Defined.

Lemma unknown_integer_round_trip_witness :
  MODE_ENHANCED_MAP ∈ enhanced_maps ∧
  EnhancedOptionsMap.get_option MODE_ENHANCED_MAP (VInt 7)
    = inr (custom_label (py_str_of_int 7)) ∧
  EnhancedOptionsMap.get_value MODE_ENHANCED_MAP (custom_label (py_str_of_int 7))
    = inr (VInt 7).
Proof.
  assert (MODE_ENHANCED_MAP ∈ enhanced_maps) as Hin by left.
  split; [exact Hin|].
  exact (unknown_integer_round_trip MODE_ENHANCED_MAP 7 Hin).
Defined.

Lemma numeric_text_comes_back_as_integer_witness :
  MODE_ENHANCED_MAP ∈ enhanced_maps ∧
  EnhancedOptionsMap.lookup MODE_ENHANCED_MAP "7" = None ∧
  EnhancedOptionsMap.get_option MODE_ENHANCED_MAP (VStr "7")
    = inr (custom_label "7") ∧
  EnhancedOptionsMap.get_value MODE_ENHANCED_MAP (custom_label "7")
    = inr (match py_int_of_str "7" with
           | Some z => VInt z
           | None => VStr "7"
           end).
Proof.
  assert (MODE_ENHANCED_MAP ∈ enhanced_maps) as Hin by left.
  split; [exact Hin|]. split; [reflexivity|].
  exact (numeric_text_comes_back_as_integer MODE_ENHANCED_MAP "7" Hin eq_refl).
Defined.

Lemma current_option_shows_known_text_only_witness :
  mode_select ∈ SELECT_TYPES ∧
  get_state (select_protocol mode_select) (co loaded) = VInt 1 ∧
  current_option mode_select (co loaded) = inr None.
Proof.
  assert (mode_select ∈ SELECT_TYPES) as Hin by left.
  assert (get_state (select_protocol mode_select) (co loaded) = VInt 1) as Hg
    by (by vm_compute).
  split; [exact Hin|]. split; [exact Hg|].
  destruct (current_option_shows_known_text_only (co loaded) mode_select ""
              Hin) as (_ & _ & H).
  exact (H 1 Hg).
Defined.

Lemma cache_keys_are_lowercase_witness :
  Forall (lowercase_query (W:=Z))
    [OpTick; OpQueryProtocol "sound_set"; OpSetValue "START" (VInt 1)] ∧
  _state_cache
    (co (run_ops answering
           [OpTick; OpQueryProtocol "sound_set"; OpSetValue "START" (VInt 1)]
           (new_env 0))) !! "sound_set" = Some (VBool true) ∧
  get_cached_value "SOUND_SET"
    (co (run_ops answering
           [OpTick; OpQueryProtocol "sound_set"; OpSetValue "START" (VInt 1)]
           (new_env 0))) = VBool true.
Proof.
  assert (Forall (lowercase_query (W:=Z))
            [OpTick; OpQueryProtocol "sound_set";
             OpSetValue "START" (VInt 1)]) as Hops
    by (repeat constructor).
  assert (_state_cache
    (co (run_ops answering
           [OpTick; OpQueryProtocol "sound_set"; OpSetValue "START" (VInt 1)]
           (new_env 0))) !! "sound_set" = Some (VBool true)) as Hk
    by (by vm_compute).
  split; [exact Hops|]. split; [exact Hk|].
  destruct (cache_keys_are_lowercase answering
              [OpTick; OpQueryProtocol "sound_set";
               OpSetValue "START" (VInt 1)] 0 Hops) as (_ & H & _).
  exact (H "sound_set" (VBool true) Hk "SOUND_SET" eq_refl).
Defined.

End EntityRuns.
